(** * VTK Legacy geometry parser (mesio): a shallow embedding

    Source: [src/input/parsers/vtklegacy/parser/geometry.cpp].

    Conventions of the embedding.
    - [size_t] is a 64-bit unsigned integer: a [Z] with the wrap-around
      written out ([wrap]).  [esint] values and cell type codes are [Z]; the
      code only compares, copies and adds them.
    - Bytes of a file are [list byte].  A scalar read from a binary file
      (float, double, int) is kept as its object representation, the bytes
      it occupies in the memory of the little-endian host.
    - Fatal diagnostics ([eslog::error], [eslog::globalerror]) end the run;
      [eslog::warning] is logged and the run goes on.  Both are results of a
      small error-and-log monad.
    - Undefined behaviour (dereferencing [end()], a copy outside the buffer)
      is [None]. *)

From Stdlib Require Import ZArith List Lia Bool.
From Stdlib.Strings Require Import Byte.
From stdpp Require Import base list numbers sorting strings gmap.

Open Scope Z_scope.

(** ** Machine integers *)

Definition size_t_bits : Z := 64.
Definition size_t_modulus : Z := 2 ^ size_t_bits.

(** A [size_t] result: arithmetic modulo 2^64. *)
Definition wrap (z : Z) : Z := z mod size_t_modulus.

Definition size_t_sub (a b : Z) : Z := wrap (a - b).
Definition size_t_add (a b : Z) : Z := wrap (a + b).
Definition size_t_mul (a b : Z) : Z := wrap (a * b).

(** A value that fits in a [size_t]. *)
Definition is_size_t (z : Z) : Prop := 0 <= z < size_t_modulus.

(** ** Element dimension and element code tables *)

(** [_dimension]: VTK cell type code to topological dimension. *)
Definition _dimension (vtktype : Z) : Z :=
  match vtktype with
  | 1 => 0
  | 3 => 1
  | 21 => 1
  | 9 => 2
  | 23 => 2
  | 5 => 2
  | 22 => 2
  | 10 => 3
  | 24 => 3
  | 14 => 3
  | 27 => 3
  | 13 => 3
  | 26 => 3
  | 12 => 3
  | 25 => 3
  | _ => -1
  end.

(** The cell type codes [_dimension] has a case for. *)
Definition known_vtktypes : list Z :=
  [1; 3; 21; 9; 23; 5; 22; 10; 24; 14; 27; 13; 26; 12; 25].

(** Modelled from the spec: [Element::CODE] of mesh/element.h is not part of
    the sources at hand; only the names [_etype] uses are listed. *)
Inductive ElementCode : Type :=
  | LINE2 | LINE3
  | TRIANGLE3 | SQUARE4 | TRIANGLE6 | SQUARE8
  | TETRA4 | PYRAMID5 | PRISMA6 | HEXA8
  | TETRA10 | PYRAMID13 | PRISMA15 | HEXA20.

(** ** Diagnostics *)

Inductive Event : Type :=
  | UnrecognizedElementType (dimension esize : Z) (file : nat)
  | VariousElementsDimension (file : nat)
  | SynchronizationWarning (region : nat).

(** The outcome of a run: stopped by a fatal diagnostic; without a defined
    result (undefined behaviour, or a loop that does not end); or finished
    with the warnings logged on the way. *)
Inductive Run (A : Type) : Type :=
  | Fatal (e : Event)
  | Stuck
  | Finished (log : list Event) (a : A).
Arguments Fatal {A} e.
Arguments Stuck {A}.
Arguments Finished {A} log a.

#[global] Instance Run_ret : MRet Run := fun A a => Finished [] a.

#[global] Instance Run_bind : MBind Run := fun A B k m =>
  match m with
  | Fatal e => Fatal e
  | Stuck => Stuck
  | Finished l a =>
      match k a with
      | Fatal e => Fatal e
      | Stuck => Stuck
      | Finished l' b => Finished (l ++ l') b
      end
  end.

(** A step that is undefined when it has no value. *)
Definition defined {A} (o : option A) : Run A :=
  match o with
  | Some a => Finished [] a
  | None => Stuck
  end.

Definition warning (e : Event) : Run unit := Finished [e] tt.
Definition error {A} (e : Event) : Run A := Fatal e.
Definition globalerror {A} (e : Event) : Run A := Fatal e.

(** Run [f] on every element in order, stopping at the first fatal one. *)
Fixpoint for_each {A} (f : A -> Run unit) (l : list A) : Run unit :=
  match l with
  | [] => mret tt
  | a :: r => f a ;; for_each f r
  end.

(** [_etype]: element code for a dimension and a node count; anything else
    is the fatal "unrecognized element type". *)
Definition _etype (dimension esize : Z) (file : nat) : Run ElementCode :=
  match dimension, esize with
  | 1, 2 => mret LINE2
  | 1, 3 => mret LINE3
  | 2, 3 => mret TRIANGLE3
  | 2, 4 => mret SQUARE4
  | 2, 6 => mret TRIANGLE6
  | 2, 8 => mret SQUARE8
  | 3, 4 => mret TETRA4
  | 3, 5 => mret PYRAMID5
  | 3, 6 => mret PRISMA6
  | 3, 8 => mret HEXA8
  | 3, 10 => mret TETRA10
  | 3, 13 => mret PYRAMID13
  | 3, 15 => mret PRISMA15
  | 3, 20 => mret HEXA20
  | _, _ => error (UnrecognizedElementType dimension esize file)
  end.

(** The lambda handed to [mixedparser.parse] in [VTKLegacyGeometry::parse]:
    given the file's [mindim] it returns [id] for an admissible record size
    and [esint{}], zero, otherwise. *)
Definition esize_check (mindim : Z) (id : Z) : Z :=
  match mindim with
  | 0 => if id =? 1 then id else 0
  | 1 => if (id =? 2) || (id =? 3) then id else 0
  | 2 => if (id =? 3) || (id =? 4) || (id =? 6) || (id =? 8) then id else 0
  | 3 => if (id =? 4) || (id =? 5) || (id =? 6) || (id =? 8)
            || (id =? 10) || (id =? 13) || (id =? 15) || (id =? 20)
         then id else 0
  | _ => 0
  end.

(** The table of the specification, as a decidable predicate. *)
Definition admissible_sizes (dimension : Z) : list Z :=
  match dimension with
  | 0 => [1]
  | 1 => [2; 3]
  | 2 => [3; 4; 6; 8]
  | 3 => [4; 5; 6; 8; 10; 13; 15; 20]
  | _ => []
  end.

Definition admissible (dimension size : Z) : bool :=
  bool_decide (size ∈ admissible_sizes dimension).

(** A record size is accepted when the lambda does not return zero. *)
Definition accepts (mindim id : Z) : bool := negb (esize_check mindim id =? 0).


(** ** Section index: keyword records *)

(** [VTKLegacyGeometry::Keyword]: where a keyword was found ([offset]) and
    the byte range of its payload. *)
Record Keyword : Type := mkKeyword {
  fileindex : nat;
  rank : nat;
  offset : Z;
  begin : Z;
  end_ : Z
}.

Inductive Format : Type := FormatUNKNOWN | ASCII | BINARY.
Inductive DataSet : Type := DataSetUNKNOWN | UNSTRUCTURED_GRID.
Inductive Datatype : Type := DatatypeUNKNOWN | FLOAT | DOUBLE.
Inductive DataSource : Type := SourcePOINTS | SourceCELLS.

Record Header : Type := mkHeader {
  header_keyword : Keyword; format : Format; dataset : DataSet }.
Record Points : Type := mkPoints {
  points_keyword : Keyword; nn : Z; datatype : Datatype }.
Record Cells : Type := mkCells {
  cells_keyword : Keyword; cells_ne : Z; cells_size : Z }.
Record CellTypes : Type := mkCellTypes {
  celltypes_keyword : Keyword; celltypes_ne : Z }.
Record Data : Type := mkData {
  data_keyword : Keyword; source : DataSource }.

(** The record kinds [addoffset] and [setend] are instantiated at. *)
Class TKeyword (T : Type) : Type := {
  keyword : T -> Keyword;
  with_keyword : Keyword -> T -> T;
  keyword_with_keyword : forall k t, keyword (with_keyword k t) = k
}.

#[global] Instance Keyword_TKeyword : TKeyword Keyword :=
  {| keyword := fun k => k; with_keyword := fun k _ => k;
     keyword_with_keyword := fun _ _ => eq_refl |}.
#[global] Instance Points_TKeyword : TKeyword Points :=
  {| keyword := points_keyword;
     with_keyword := fun k p => mkPoints k (nn p) (datatype p);
     keyword_with_keyword := fun _ _ => eq_refl |}.
#[global] Instance Cells_TKeyword : TKeyword Cells :=
  {| keyword := cells_keyword;
     with_keyword := fun k c => mkCells k (cells_ne c) (cells_size c);
     keyword_with_keyword := fun _ _ => eq_refl |}.
#[global] Instance CellTypes_TKeyword : TKeyword CellTypes :=
  {| keyword := celltypes_keyword;
     with_keyword := fun k c => mkCellTypes k (celltypes_ne c);
     keyword_with_keyword := fun _ _ => eq_refl |}.
#[global] Instance Data_TKeyword : TKeyword Data :=
  {| keyword := data_keyword;
     with_keyword := fun k d => mkData k (source d);
     keyword_with_keyword := fun _ _ => eq_refl |}.

Definition set_end (e : Z) (k : Keyword) : Keyword :=
  mkKeyword (fileindex k) (rank k) (offset k) (begin k) e.

(** [Data::Data]: the payload of an attribute block is taken to start a
    fixed number of bytes after the keyword. *)
Definition Data_begin (off : Z) (src : DataSource) : Z :=
  size_t_add off (match src with SourceCELLS => 9 | SourcePOINTS => 10 end).

(** ** Resolving the payload ends ([VTKLegacyGeometry::scan], the tail) *)

(** [addoffset]: every record's [offset] is appended to the list of its
    file.  (A record whose [fileindex] is not a file of the pack leaves the
    lists as they are here; the properties below are about records that
    name a file.) *)
Definition addoffset {T} `{TKeyword T}
    (offsets : list (list Z)) (keywords : list T) : list (list Z) :=
  fold_left
    (fun offs k => alter (fun l => l ++ [offset (keyword k)])
                         (fileindex (keyword k)) offs)
    keywords offsets.

(** [std::lower_bound] on a sorted range: the first element that is not
    less than [v], which on a sorted range is what a scan from the left
    finds; [None] stands for the past-the-end iterator. *)
Fixpoint lower_bound (l : list Z) (v : Z) : option Z :=
  match l with
  | [] => None
  | x :: r => if x <? v then lower_bound r v else Some x
  end.

(** [setend] for one record: [end] is what [lower_bound] points at.
    Dereferencing the past-the-end iterator is undefined. *)
Definition setend1 {T} `{TKeyword T} (offsets : list (list Z)) (k : T)
    : option T :=
  row ← offsets !! fileindex (keyword k);
  e ← lower_bound row (begin (keyword k));
  Some (with_keyword (set_end e (keyword k)) k).

Definition setend {T} `{TKeyword T} (offsets : list (list Z))
    (keywords : list T) : option (list T) :=
  mapM (setend1 offsets) keywords.

(** Lines 229-234 of [scan]: one list of offsets per file, the file's final
    byte offset (the back of its [distribution]) appended, each list
    sorted. *)
Definition build_offsets (file_ends : list Z)
    (points : list Points) (cells : list Cells) (cellTypes : list CellTypes)
    (pointData cellData : list Data) : list (list Z) :=
  let offsets0 := replicate (length file_ends) [] in
  let offsets1 :=
    addoffset (addoffset (addoffset (addoffset (addoffset offsets0 points)
      cells) cellTypes) pointData) cellData in
  zip_with (fun row fe => merge_sort Z.le (row ++ [fe])) offsets1 file_ends.

Record Sections : Type := mkSections {
  _points : list Points;
  _cells : list Cells;
  _cellTypes : list CellTypes;
  _pointData : list Data;
  _cellData : list Data
}.

(** Lines 229-235 of [scan]. *)
Definition resolve_ends (file_ends : list Z) (s : Sections)
    : option Sections :=
  let offsets := build_offsets file_ends (_points s) (_cells s)
                   (_cellTypes s) (_pointData s) (_cellData s) in
  p ← setend offsets (_points s);
  c ← setend offsets (_cells s);
  t ← setend offsets (_cellTypes s);
  pd ← setend offsets (_pointData s);
  cd ← setend offsets (_cellData s);
  Some (mkSections p c t pd cd).

(** The end the specification words describe: the smallest value strictly
    greater than the record's own [begin] among the [begin]s of all the
    records of the file and the file's final byte offset. *)
Definition spec_boundaries (file_end : Z) (records : list Keyword) : list Z :=
  merge_sort Z.le (map begin records ++ [file_end]).

Fixpoint upper_bound (l : list Z) (v : Z) : option Z :=
  match l with
  | [] => None
  | x :: r => if x <=? v then upper_bound r v else Some x
  end.

Definition spec_end (file_end : Z) (records : list Keyword) (k : Keyword)
    : option Z :=
  upper_bound (spec_boundaries file_end records) (begin k).

(** All the records of a scan, in the order [addoffset] and [setend] visit
    them, and those of one file. *)
Definition all_keywords (s : Sections) : list Keyword :=
  (keyword <$> _points s) ++ (keyword <$> _cells s)
    ++ (keyword <$> _cellTypes s) ++ (keyword <$> _pointData s)
    ++ (keyword <$> _cellData s).

Definition file_records (f : nat) (s : Sections) : list Keyword :=
  filter (fun k => fileindex k = f) (all_keywords s).

(** The boundaries of file [f]: the keyword offsets of its records and the
    file's final byte offset. *)
Definition boundaries (file_end : Z) (f : nat) (s : Sections) : list Z :=
  (offset <$> file_records f s) ++ [file_end].

(** [e] is the smallest boundary that is not less than [b]. *)
Definition least_from (B : list Z) (b e : Z) : Prop :=
  e ∈ B /\ b <= e /\ forall x, x ∈ B -> b <= x -> e <= x.

(** [e] is the smallest boundary strictly greater than [o]. *)
Definition least_after (B : list Z) (o e : Z) : Prop :=
  e ∈ B /\ o < e /\ forall x, x ∈ B -> o < x -> e <= x.

(** The record names a file of the pack and begins inside it. *)
Definition in_file (file_ends : list Z) (k : Keyword) : bool :=
  match file_ends !! fileindex k with
  | Some fe => begin k <=? fe
  | None => false
  end.

(** Every record names a file of the pack and begins inside it. *)
Definition records_in_files (file_ends : list Z) (s : Sections) : bool :=
  forallb (in_file file_ends) (all_keywords s).

(** Every record's [begin] lies after its own keyword and not after the
    next boundary of its file, and no two records of a file have one and
    the same keyword offset. *)
Definition well_placed (file_ends : list Z) (s : Sections) : bool :=
  forallb (fun k =>
             match file_ends !! fileindex k with
             | Some fe =>
                 (offset k <? begin k)
                 && forallb (fun b => (b <=? offset k) || (begin k <=? b))
                      (boundaries fe (fileindex k) s)
             | None => false
             end)
          (all_keywords s)
  && bool_decide
       (NoDup ((fun k => (fileindex k, offset k)) <$> all_keywords s)).

(** What [setend] establishes for a record [k], resolved to [k']: only
    [end] changes, and it is the smallest boundary of the record's file not
    less than the record's [begin]; when that [begin] lies between the
    record's own keyword and the next boundary [n] after the keyword, the
    payload ends at [n]. *)
Definition resolved (file_ends : list Z) (s : Sections) (k k' : Keyword)
    : Prop :=
  k' = set_end (end_ k') k /\
  forall fe, file_ends !! fileindex k = Some fe ->
    let B := boundaries fe (fileindex k) s in
    least_from B (begin k) (end_ k') /\
    forall n, offset k < begin k -> begin k <= n ->
              least_after B (offset k) n -> end_ k' = n.

(** A scan of one file: [POINTS] at byte 100 with its payload from byte
    115, [CELLS] at byte 200 with its payload from byte 210, and 300 bytes
    in the file. *)
Definition two_sections : Sections :=
  mkSections [mkPoints (mkKeyword 0 0 100 115 0) 4 FLOAT]
             [mkCells (mkKeyword 0 0 200 210 0) 2 9] [] [] [].

(** ** Scalars and their object representation *)

(** A fixed-width scalar type: its size and the bytes an object occupies in
    host memory, lowest address first. *)
Class Scalar (T : Type) : Type := {
  sizeof : nat;
  object_bytes : T -> list byte;
  from_bytes : list byte -> T;
  sizeof_pos : (0 < sizeof)%nat;
  length_object_bytes : forall t, length (object_bytes t) = sizeof;
  from_object_bytes : forall t, from_bytes (object_bytes t) = t;
  object_from_bytes :
    forall bs, length bs = sizeof -> object_bytes (from_bytes bs) = bs
}.

Inductive float : Type := Float (b0 b1 b2 b3 : byte).
Inductive int : Type := Int (b0 b1 b2 b3 : byte).
Inductive double : Type := Double (b0 b1 b2 b3 b4 b5 b6 b7 : byte).

Definition float_bytes (f : float) : list byte :=
  let 'Float b0 b1 b2 b3 := f in [b0; b1; b2; b3].
Definition bytes_float (bs : list byte) : float :=
  match bs with
  | b0 :: b1 :: b2 :: b3 :: _ => Float b0 b1 b2 b3
  | _ => Float x00 x00 x00 x00
  end.

Definition int_bytes (i : int) : list byte :=
  let 'Int b0 b1 b2 b3 := i in [b0; b1; b2; b3].
Definition bytes_int (bs : list byte) : int :=
  match bs with
  | b0 :: b1 :: b2 :: b3 :: _ => Int b0 b1 b2 b3
  | _ => Int x00 x00 x00 x00
  end.

Definition double_bytes (d : double) : list byte :=
  let 'Double b0 b1 b2 b3 b4 b5 b6 b7 := d in [b0; b1; b2; b3; b4; b5; b6; b7].
Definition bytes_double (bs : list byte) : double :=
  match bs with
  | b0 :: b1 :: b2 :: b3 :: b4 :: b5 :: b6 :: b7 :: _ =>
      Double b0 b1 b2 b3 b4 b5 b6 b7
  | _ => Double x00 x00 x00 x00 x00 x00 x00 x00
  end.

#[global, refine] Instance float_Scalar : Scalar float :=
  {| sizeof := 4; object_bytes := float_bytes; from_bytes := bytes_float |}.
Proof.
  - lia.
  - intros []; reflexivity.
  - intros []; reflexivity.
  - intros [|?[|?[|?[|?[|??]]]]]; cbn; intros; try discriminate; reflexivity.
Defined.

#[global, refine] Instance int_Scalar : Scalar int :=
  {| sizeof := 4; object_bytes := int_bytes; from_bytes := bytes_int |}.
Proof.
  - lia.
  - intros []; reflexivity.
  - intros []; reflexivity.
  - intros [|?[|?[|?[|?[|??]]]]]; cbn; intros; try discriminate; reflexivity.
Defined.

#[global, refine] Instance double_Scalar : Scalar double :=
  {| sizeof := 8; object_bytes := double_bytes; from_bytes := bytes_double |}.
Proof.
  - lia.
  - intros []; reflexivity.
  - intros []; reflexivity.
  - intros [|?[|?[|?[|?[|?[|?[|?[|?[|??]]]]]]]]]; cbn; intros;
      try discriminate; reflexivity.
Defined.

(** [swap]: the object whose byte [i] is byte [sizeof(T) - i - 1] of [t]. *)
Definition swap {T} `{Scalar T} (t : T) : T :=
  let c := object_bytes t in
  from_bytes ((fun i => nth (sizeof - i - 1)%nat c x00) <$> seq 0 sizeof).

(** The host is little-endian (the code swaps every value it reads from a
    big-endian file): the unsigned value of an object representation. *)
Definition le_value (bs : list byte) : Z :=
  foldr (fun b acc => Z.of_N (Byte.to_N b) + 256 * acc) 0 bs.

Definition byte_of_Z (z : Z) : byte :=
  default x00 (Byte.of_N (Z.to_N (z mod 256))).

Definition le_bytes (n : nat) (v : Z) : list byte :=
  (fun i => byte_of_Z (v / 256 ^ Z.of_nat i)) <$> seq 0 n.

(** The conversion of [read<int, esint>]: the value of a 32-bit two's
    complement integer. *)
Definition esint_of_int (i : int) : Z :=
  let v := le_value (object_bytes i) in
  if v <? 2 ^ 31 then v else v - 2 ^ 32.

(** The conversion of [read<float, double>]: an IEEE 754 binary32 pattern
    widened to the binary64 pattern of the same value.  An infinity stays
    an infinity; a NaN keeps its payload and comes out quiet, the
    conversion setting the first bit of the mantissa, bit 51. *)
Definition double_of_float (f : float) : double :=
  let bits := le_value (object_bytes f) in
  let s := bits / 2 ^ 31 in
  let e := (bits / 2 ^ 23) mod 256 in
  let m := bits mod 2 ^ 23 in
  let '(e', m') :=
    if e =? 255 then
      (2047, if m =? 0 then 0 else Z.lor (m * 2 ^ 29) (2 ^ 51))
    else if e =? 0 then
      if m =? 0 then (0, 0)
      else let k := Z.log2 m in (874 + k, (m - 2 ^ k) * 2 ^ (52 - k))
    else (e + 896, m * 2 ^ 29) in
  from_bytes (le_bytes 8 (s * 2 ^ 63 + e' * 2 ^ 52 + m')).

(** The conversion of [read<double, double>]. *)
Definition double_of_double (d : double) : double := d.

(** The big-endian encoding of a scalar as the file stores it: its object
    bytes on the little-endian host, most significant first. *)
Definition encode_be {T} `{Scalar T} (t : T) : list byte :=
  reverse (object_bytes t).

(** A binary payload: the encodings of its values one after the other. *)
Definition encode_payload {T} `{Scalar T} (vs : list T) : list byte :=
  concat (encode_be <$> vs).

(** The buffer of a worker whose window starts at byte [d0] of [file] and
    that can read [n] bytes from there (its window and the slack). *)
Definition buffer_of (file : list byte) (d0 : Z) (n : nat) : list byte :=
  take n (drop (Z.to_nat d0) file).

(** The real number a finite IEEE 754 pattern stands for, as a pair
    (significand, exponent) that denotes significand * 2^exponent; [None]
    for the infinities and the NaNs. *)
Definition float_value (f : float) : option (Z * Z) :=
  let bits := le_value (object_bytes f) in
  let s := bits / 2 ^ 31 in
  let e := (bits / 2 ^ 23) mod 256 in
  let m := bits mod 2 ^ 23 in
  if e =? 255 then None
  else Some ((if s =? 0 then 1 else -1) * (if e =? 0 then m else 2 ^ 23 + m),
             if e =? 0 then -149 else e - 150).

Definition double_value (d : double) : option (Z * Z) :=
  let bits := le_value (object_bytes d) in
  let s := bits / 2 ^ 63 in
  let e := (bits / 2 ^ 52) mod 2048 in
  let m := bits mod 2 ^ 52 in
  if e =? 2047 then None
  else Some ((if s =? 0 then 1 else -1) * (if e =? 0 then m else 2 ^ 52 + m),
             if e =? 0 then -1074 else e - 1075).

(** Two pairs that denote the same real number. *)
Definition same_real (x y : Z * Z) : Prop :=
  x.1 * 2 ^ (x.2 - Z.min x.2 y.2) = y.1 * 2 ^ (y.2 - Z.min x.2 y.2).

(** ** The binary decode: [round], [read], [readMore] *)

(** A worker's view of one file: the cumulative offsets of the workers'
    windows, and the bytes at [_pack.begin], which are the bytes of the
    worker's own window followed by the slack the buffer keeps after it. *)
Record InputFilePack : Type := mkPack {
  pack_fileindex : nat;
  distribution : list Z;
  pack_begin : list byte
}.

(** [round]: [current] moved up to the next multiple of [chunk] counted
    from [start]; the difference is taken in [size_t]. *)
Definition round (current start chunk : Z) : Z :=
  if size_t_sub current start mod chunk =? 0 then current
  else size_t_add current (chunk - size_t_sub current start mod chunk).

(** [memcpy] of [n] bytes found [from] bytes after the start of [src];
    a copy that leaves the buffer is undefined, a copy of no bytes touches
    nothing. *)
Definition memcpy (src : list byte) (from n : Z) : option (list byte) :=
  if n =? 0 then Some []
  else if (0 <=? from) && (0 <? n) && (from + n <=? Z.of_nat (length src))
  then Some (take (Z.to_nat n) (drop (Z.to_nat from) src))
  else None.

(** Element [i] of an array of [T] laid over [bytes]. *)
Definition element {T} `{Scalar T} (bytes : list byte) (i : nat) : T :=
  from_bytes (take sizeof (drop (i * sizeof) bytes)).

(** The values pushed by the loop [output.push_back(swap(data[i]))], [cast]
    being the conversion from [Input] to [Output]. *)
Definition swapped {Input Output} `{Scalar Input} (cast : Input -> Output)
    (bytes : list byte) (n : nat) : list Output :=
  (fun i => cast (swap (element bytes i))) <$> seq 0 n.

(** The byte range [read] decodes: the record's range cut to the worker's
    window, both ends rounded from the record's [begin]. *)
Definition read_range (pack : InputFilePack) (mpi_rank : nat)
    (k : Keyword) (align : Z) : option (Z * Z) :=
  d0 ← distribution pack !! mpi_rank;
  d1 ← distribution pack !! S mpi_rank;
  let b := Z.max (begin k) d0 in
  let e := Z.min (end_ k) d1 in
  Some (round b (begin k) align, round e (begin k) align).

(** [read<Input, Output>]. *)
Definition read {Input Output} `{Scalar Input} (cast : Input -> Output)
    (pack : InputFilePack) (mpi_rank : nat) (k : Keyword)
    (output : list Output) (align : Z) : option (list Output) :=
  d0 ← distribution pack !! mpi_rank;
  '(b, e) ← read_range pack mpi_rank k align;
  if b <? e then
    let size := size_t_sub e b / Z.of_nat sizeof in
    data ← memcpy (pack_begin pack) (b - d0) (size_t_sub e b);
    if Z.of_nat (length data) <=? size * Z.of_nat sizeof
    then Some (output ++ swapped cast data (Z.to_nat size))
    else None
  else Some output.

(** [readMore<Input, Output>]: [size] further elements found right after
    the rounded end of the worker's part. *)
Definition readMore {Input Output} `{Scalar Input} (cast : Input -> Output)
    (pack : InputFilePack) (mpi_rank : nat) (k : Keyword)
    (output : list Output) (align : Z) (size : Z) : option (list Output) :=
  d0 ← distribution pack !! mpi_rank;
  d1 ← distribution pack !! S mpi_rank;
  let e := round (Z.min (end_ k) d1) (begin k) align in
  data ← memcpy (pack_begin pack) (e - d0) (size_t_mul size (Z.of_nat sizeof));
  Some (output ++ swapped cast data (Z.to_nat size)).

(** ** [VTKLegacyGeometry::parse]: decoding *)

(** Modelled from the spec: [ASCIIParser::parse] and [ASCIIParser::addmore]
    (basis/utilities, input/parsers/asciiparser.h) are not part of the
    sources at hand.  An ASCII payload is its whitespace-delimited numeric
    tokens in file order, each with the byte offset it starts at; [parse]
    yields the tokens that start inside the record's range cut to the
    worker's window, [addmore] appends the next [n] tokens of the record
    found past the window. *)
Definition ascii_parse {V} (tokens : list (Z * V)) (d0 d1 : Z)
    (begin_ end_ : Z) : list V :=
  snd <$> filter (fun t => Z.max begin_ d0 <= t.1 < Z.min end_ d1) tokens.

Definition ascii_addmore {V} (data : list V) (tokens : list (Z * V))
    (d1 : Z) (n : Z) (end_ : Z) : list V :=
  data ++ take (Z.to_nat n)
            (snd <$> filter (fun t => d1 <= t.1 < end_) tokens).

Record AsciiTokens : Type := mkAsciiTokens {
  points_tokens : list (Z * double);
  cells_tokens : list (Z * Z);
  celltypes_tokens : list (Z * Z)
}.

(** What a worker sees of one file. *)
Record FileView : Type := mkFileView {
  pack : InputFilePack;
  text : AsciiTokens
}.

(** The arrays [points], [cells] and [celltypes] of one file. *)
Record Decoded : Type := mkDecoded {
  points : list double;
  cells : list Z;
  celltypes : list Z
}.

(** Lines 298 and 303-308: the [points] array of one file. *)
Definition decode_points (h : Header) (v : FileView) (mpi_rank : nat)
    (p : Points) : option (list double) :=
  match format h with
  | ASCII =>
      d0 ← distribution (pack v) !! mpi_rank;
      d1 ← distribution (pack v) !! S mpi_rank;
      Some (ascii_parse (points_tokens (text v)) d0 d1
              (begin (keyword p)) (end_ (keyword p)))
  | BINARY =>
      match datatype p with
      | FLOAT =>
          read double_of_float (pack v) mpi_rank (keyword p) []
            (3 * Z.of_nat (sizeof (T := float)))
      | DOUBLE =>
          read double_of_double (pack v) mpi_rank (keyword p) []
            (3 * Z.of_nat (sizeof (T := double)))
      | DatatypeUNKNOWN => Some []
      end
  | FormatUNKNOWN => Some []
  end.

(** Lines 299 and 309: the [cells] array of one file. *)
Definition decode_cells (h : Header) (v : FileView) (mpi_rank : nat)
    (c : Cells) : option (list Z) :=
  match format h with
  | ASCII =>
      d0 ← distribution (pack v) !! mpi_rank;
      d1 ← distribution (pack v) !! S mpi_rank;
      Some (ascii_parse (cells_tokens (text v)) d0 d1
              (begin (keyword c)) (end_ (keyword c)))
  | BINARY =>
      read esint_of_int (pack v) mpi_rank (keyword c) []
        (Z.of_nat (sizeof (T := int)))
  | FormatUNKNOWN => Some []
  end.

(** Lines 300 and 310: the [celltypes] array of one file. *)
Definition decode_celltypes (h : Header) (v : FileView) (mpi_rank : nat)
    (t : CellTypes) : option (list Z) :=
  match format h with
  | ASCII =>
      d0 ← distribution (pack v) !! mpi_rank;
      d1 ← distribution (pack v) !! S mpi_rank;
      Some (ascii_parse (celltypes_tokens (text v)) d0 d1
              (begin (keyword t)) (end_ (keyword t)))
  | BINARY =>
      read esint_of_int (pack v) mpi_rank (keyword t) []
        (Z.of_nat (sizeof (T := int)))
  | FormatUNKNOWN => Some []
  end.

(** Lines 297-311: the first loop of [parse], for one file. *)
Definition decode_file (h : Header) (v : FileView) (mpi_rank : nat)
    (p : Points) (c : Cells) (t : CellTypes) : option Decoded :=
  pts ← decode_points h v mpi_rank p;
  cs ← decode_cells h v mpi_rank c;
  ts ← decode_celltypes h v mpi_rank t;
  Some (mkDecoded pts cs ts).

(** Lines 316-317: the bounds of the dimensions met in a slice of cell type
    codes, starting from [_mindim = 4] and [_maxdim = 0]. *)
Definition scan_dimensions (celltypes : list Z) : Z * Z :=
  fold_left (fun mm t => let d := _dimension t in
                         (Z.min mm.1 d, Z.max mm.2 d))
            celltypes (4, 0).

(** ** Collectives *)

(** Modelled from the spec: [Communication::allReduce] (wrappers/mpi) is
    not part of the sources at hand.  With [MPI_MIN] or [MPI_MAX] every
    worker receives the minimum or maximum of the workers' contributions. *)
Definition allReduce (op : Z -> Z -> Z) (contributions : list Z) : Z :=
  match contributions with
  | [] => 0
  | v :: r => fold_left op r v
  end.

(** Modelled from the spec: [Communication::exscan] (wrappers/mpi) is not
    part of the sources at hand.  Worker [mpi_rank] receives the sum of the
    contributions of the workers before it. *)
Definition exscan (contributions : list Z) (mpi_rank : nat) : Z :=
  wrap (foldr Z.add 0 (take mpi_rank contributions)).

(** Modelled from the spec: [MixedElementsParser]
    (input/parsers/mixedelementsparser.h) is not part of the sources at
    hand.  [parse] reads four of its result vectors, one entry per file. *)
Record MixedElementsParser : Type := mkMixedElementsParser {
  invalid : list Z;
  first : list Z;
  missing : list Z;
  mixed_offset : list Z
}.

(** ** [VTKLegacyGeometry::parse]: dimension check and warnings *)

(** Lines 326-330 for one file. *)
Definition check_dimension (mindim maxdim : Z) (file : nat) : Run unit :=
  if mindim =? maxdim then mret tt
  else globalerror (VariousElementsDimension file).

(** The reduced bounds of one file, from the cell type slices the workers
    decoded. *)
Definition global_mindim (slices : list (list Z)) : Z :=
  allReduce Z.min ((fun ts => (scan_dimensions ts).1) <$> slices).
Definition global_maxdim (slices : list (list Z)) : Z :=
  allReduce Z.max ((fun ts => (scan_dimensions ts).2) <$> slices).

(** Lines 354-360. *)
Definition invalid_warning (mpi_size : Z) (i : nat) (inv : Z) : Run unit :=
  if inv =? mpi_size then mret tt
  else warning (SynchronizationWarning i).

Definition invalid_warnings (mpi_size : Z) (invalid : list Z) : Run unit :=
  for_each (fun '(i, inv) => invalid_warning mpi_size i inv)
           (imap pair invalid).


(** ** [VTKLegacyGeometry::parse]: boundary completion *)

(** Lines 365 and 389: the values at the front of this worker's array that
    finish a point begun by the workers before it, [npoints] being the
    result of [exscan]. *)
Definition pbegin (npoints : Z) : Z := (3 - npoints mod 3) mod 3.

(** Line 366: the values this worker's last point still lacks. *)
Definition pmissing (npoints size : Z) : Z :=
  (3 - size_t_sub size (pbegin npoints) mod 3) mod 3.

(** Lines 365-367: the completion of the [points] array; a binary array
    is left as it is. *)
Definition complete_points (h : Header) (v : FileView) (mpi_rank : nat)
    (p : Points) (npoints : Z) (pts : list double) : option (list double) :=
  match format h with
  | ASCII =>
      d1 ← distribution (pack v) !! S mpi_rank;
      Some (ascii_addmore pts (points_tokens (text v)) d1
              (pmissing npoints (Z.of_nat (length pts)))
              (end_ (keyword p)))
  | _ => Some pts
  end.

(** Lines 368 and 373: the completion of the [cells] array by the number
    of integers the classifier found missing. *)
Definition complete_cells (h : Header) (v : FileView) (mpi_rank : nat)
    (c : Cells) (cmissing : Z) (cs : list Z) : option (list Z) :=
  match format h with
  | ASCII =>
      d1 ← distribution (pack v) !! S mpi_rank;
      Some (ascii_addmore cs (cells_tokens (text v)) d1 cmissing
              (end_ (keyword c)))
  | BINARY =>
      readMore esint_of_int (pack v) mpi_rank (keyword c) cs
        (Z.of_nat (sizeof (T := int))) cmissing
  | FormatUNKNOWN => Some cs
  end.

(** Lines 364-376 for one file. *)
Definition complete_file (h : Header) (v : FileView) (mpi_rank : nat)
    (p : Points) (c : Cells) (npoints : Z) (cmissing : Z) (d : Decoded)
    : option Decoded :=
  pts ← complete_points h v mpi_rank p npoints (points d);
  cs ← complete_cells h v mpi_rank c cmissing (cells d);
  Some (mkDecoded pts cs (celltypes d)).

(** ** [VTKLegacyGeometry::parse]: emission *)

Record Point : Type := mkPoint { px : double; py : double; pz : double }.

(** Modelled from the spec: the members of [MeshBuilder]
    (input/meshbuilder.h) that [parse] appends to. *)
Record MeshBuilder : Type := mkMeshBuilder {
  nIDs : list Z;
  coordinates : list Point;
  esize : list Z;
  etype : list ElementCode;
  eIDs : list Z;
  enodes : list Z;
  eregions : gmap string (list Z);
  nregions : gmap string (list Z)
}.

Definition empty_mesh : MeshBuilder :=
  mkMeshBuilder [] [] [] [] [] [] ∅ ∅.

(** Lines 390-391. *)
Definition csize (npoints size : Z) : Z :=
  size_t_sub size (pbegin npoints) / 3.
Definition noffset (npoints : Z) : Z :=
  size_t_add npoints (pbegin npoints) / 3.

(** Line 393: the node ids pushed by one worker for one file. *)
Definition node_ids (nidoffset npoints size : Z) : list Z :=
  (fun i => size_t_add (size_t_add nidoffset (Z.of_nat i)) (noffset npoints))
    <$> seq 0 (Z.to_nat (csize npoints size)).

(** Lines 394-397: the points pushed; reading past the array is
    undefined. *)
Definition node_coordinates (pts : list double) (npoints : Z)
    : option (list Point) :=
  mapM (fun i =>
          let j := Z.to_nat (3 * Z.of_nat i + pbegin npoints) in
          x ← pts !! j; y ← pts !! S j; z ← pts !! S (S j);
          Some (mkPoint x y z))
       (seq 0 (Z.to_nat (csize npoints (Z.of_nat (length pts))))).

(** What the loop of lines 403-414 has pushed so far. *)
Record Elements : Type := mkElements {
  ids : list Z;
  new_esize : list Z;
  new_etype : list ElementCode;
  new_enodes : list Z;
  nelements : Z
}.

(** Lines 403-414, from index [i] on.  [fuel] bounds the number of rounds;
    a loop that outlives it has no result here. *)
Fixpoint fill_elements (fuel : nat) (cells : list Z) (i : Z)
    (maxdim : Z) (file : nat) (nidoffset eidoffset eoffset : Z)
    (acc : Elements) : Run Elements :=
  if Z.of_nat (length cells) <=? i then mret acc
  else
    match fuel with
    | O => Stuck
    | S fuel' =>
        n ← defined (cells !! Z.to_nat i);
        acc' ←
          (if n =? 1 then
             node ← defined (cells !! Z.to_nat (i + 1));
             mret (mkElements (ids acc ++ [node + nidoffset]) (new_esize acc)
                     (new_etype acc) (new_enodes acc) (nelements acc))
           else
             code ← _etype maxdim n file;
             nodes ← defined
               (mapM (fun j => cells !! Z.to_nat (i + 1 + Z.of_nat j))
                     (seq 0 (Z.to_nat n)));
             mret (mkElements
                     (ids acc ++ [eidoffset + eoffset + nelements acc])
                     (new_esize acc ++ [n]) (new_etype acc ++ [code])
                     (new_enodes acc ++ ((fun x => x + nidoffset) <$> nodes))
                     (nelements acc + 1)));
        fill_elements fuel' cells (size_t_add i (n + 1)) maxdim file
          nidoffset eidoffset eoffset acc'
    end.

(** Lines 388-422: what one file adds to the mesh. *)
Definition fill_file (mesh : MeshBuilder) (d : Decoded) (npoints : Z)
    (maxdim : Z) (file : nat) (name : string) (nidoffset eidoffset : Z)
    (efirst eoffset : Z) : Run MeshBuilder :=
  coords ← defined (node_coordinates (points d) npoints);
  els ← fill_elements (S (length (cells d))) (cells d) efirst maxdim file
          nidoffset eidoffset eoffset (mkElements [] [] [] [] 0);
  let mesh1 :=
    mkMeshBuilder
      (nIDs mesh
         ++ node_ids nidoffset npoints (Z.of_nat (length (points d))))
      (coordinates mesh ++ coords)
      (esize mesh ++ new_esize els) (etype mesh ++ new_etype els)
      (eIDs mesh) (enodes mesh ++ new_enodes els)
      (eregions mesh) (nregions mesh) in
  mret (if maxdim =? 0
        then mkMeshBuilder (nIDs mesh1) (coordinates mesh1) (esize mesh1)
               (etype mesh1) (eIDs mesh1) (enodes mesh1) (eregions mesh1)
               (<[name := ids els]> (nregions mesh1))
        else mkMeshBuilder (nIDs mesh1) (coordinates mesh1) (esize mesh1)
               (etype mesh1) (eIDs mesh1 ++ ids els) (enodes mesh1)
               (<[name := ids els]> (eregions mesh1)) (nregions mesh1)).

(** The state of a worker between the loops of [parse], for one file. *)
Record FileState : Type := mkFileState {
  state_file : nat;
  state_decoded : Decoded;
  state_npoints : Z;
  state_mindim : Z;
  state_maxdim : Z
}.

(** Lines 386-425: the last loop of [parse]. *)
Fixpoint fill_files (files : list FileState) (s : Sections)
    (mixedparser : MixedElementsParser) (names : list string)
    (nidoffset eidoffset : Z) (mesh : MeshBuilder) : Run MeshBuilder :=
  match files with
  | [] => mret mesh
  | st :: rest =>
      let f := state_file st in
      name ← defined (names !! f);
      efirst ← defined (first mixedparser !! f);
      eoffset ← defined (mixed_offset mixedparser !! f);
      p ← defined (_points s !! f);
      c ← defined (_cells s !! f);
      mesh' ← fill_file mesh (state_decoded st) (state_npoints st)
                (state_maxdim st) f name nidoffset eidoffset efirst eoffset;
      fill_files rest s mixedparser names
        (size_t_add nidoffset (nn p)) (size_t_add eidoffset (cells_ne c))
        mesh'
  end.

(** ** [VTKLegacyGeometry::parse] *)

(** The first loop of [parse] as run by worker [mpi_rank]. *)
Definition decode_worker (_header : list Header) (s : Sections)
    (mpi_rank : nat) (views : list FileView) : option (list Decoded) :=
  mapM (fun fv : nat * FileView =>
          h ← _header !! fv.1;
          p ← _points s !! fv.1;
          c ← _cells s !! fv.1;
          t ← _cellTypes s !! fv.1;
          decode_file h fv.2 mpi_rank p c t)
       (imap pair views).

(** The arrays every worker holds for file [f]. *)
Definition column (f : nat) (decoded : list (list Decoded)) : list Decoded :=
  omap (fun w => w !! f) decoded.

(** The collectives of lines 321-324, as worker [mpi_rank] sees them. *)
Definition reduce_file (decoded : list (list Decoded)) (mpi_rank : nat)
    (f : nat) (d : Decoded) : FileState :=
  let col := column f decoded in
  mkFileState f d
    (exscan ((fun w => Z.of_nat (length (points w))) <$> col) mpi_rank)
    (global_mindim (celltypes <$> col))
    (global_maxdim (celltypes <$> col)).

(** Lines 362-377 as run by worker [mpi_rank]. *)
Definition complete_worker (_header : list Header) (s : Sections)
    (mixedparser : MixedElementsParser) (mpi_rank : nat)
    (views : list FileView) (states : list FileState)
    : option (list FileState) :=
  mapM (fun st =>
          let f := state_file st in
          h ← _header !! f;
          v ← views !! f;
          p ← _points s !! f;
          c ← _cells s !! f;
          m ← missing mixedparser !! f;
          d ← complete_file h v mpi_rank p c (state_npoints st) m
                (state_decoded st);
          Some (mkFileState f d (state_npoints st) (state_mindim st)
                  (state_maxdim st)))
       states.

(** The first loop of [parse] on every worker of [world], which lists for
    every worker its view of every file. *)
Definition decode_world (world : list (list FileView))
    (_header : list Header) (s : Sections) : option (list (list Decoded)) :=
  mapM (fun rv : nat * list FileView => decode_worker _header s rv.1 rv.2)
       (imap pair world).

(** Lines 326-330. *)
Definition check_dimensions (states : list FileState) : Run unit :=
  for_each (fun st => check_dimension (state_mindim st) (state_maxdim st)
                        (state_file st)) states.

(** [VTKLegacyGeometry::parse] as run by worker [mpi_rank] of [world].  The
    results of the classifier, [mixedparser], are taken as given.  The
    [reserve] calls of lines 379-384 size the arrays beforehand and push
    nothing; they are left out. *)
Definition parse (world : list (list FileView)) (mpi_rank : nat)
    (_header : list Header) (s : Sections)
    (mixedparser : MixedElementsParser) (names : list string)
    (mesh : MeshBuilder) : Run MeshBuilder :=
  decoded ← defined (decode_world world _header s);
  mine ← defined (decoded !! mpi_rank);
  views ← defined (world !! mpi_rank);
  let states := imap (reduce_file decoded mpi_rank) mine in
  check_dimensions states;;
  invalid_warnings (Z.of_nat (length world)) (invalid mixedparser);;
  completed ← defined
    (complete_worker _header s mixedparser mpi_rank views states);
  fill_files completed s mixedparser names 0 0 mesh.

(** The cell type slices are of one dimension [d]; some slice has a code. *)
Definition uniform_dimension (d : Z) (slices : list (list Z)) : bool :=
  forallb (forallb (fun t => _dimension t =? d)) slices.

Definition some_code (slices : list (list Z)) : bool :=
  existsb (fun ts => negb (Nat.eqb (length ts) 0)) slices.

(** The reduced bounds of a file differ. *)
Definition mismatch (st : FileState) : bool :=
  negb (state_mindim st =? state_maxdim st).

(** The warnings of lines 354-360 as a list: one for every entry of
    [invalid] that differs from the number of workers. *)
Definition warned (mpi_size : Z) (invalid : list Z) : list Event :=
  (fun iv : nat * Z => SynchronizationWarning iv.1)
    <$> filter (fun iv : nat * Z => iv.2 <> mpi_size) (imap pair invalid).

(** A one-worker run on one ASCII file of 170 bytes with one point, and two
    cells whose type codes are 5 (triangle) and 7 (polygon, a code
    [_dimension] has no case for). *)
Definition zero : double := Double x00 x00 x00 x00 x00 x00 x00 x00.

Definition polygon_header : list Header :=
  [mkHeader (mkKeyword 0 0 0 0 0) ASCII UNSTRUCTURED_GRID].

Definition polygon_sections : Sections :=
  mkSections [mkPoints (mkKeyword 0 0 50 65 120) 1 FLOAT]
             [mkCells (mkKeyword 0 0 120 130 150) 2 8]
             [mkCellTypes (mkKeyword 0 0 150 163 170) 2] [] [].

Definition polygon_world : list (list FileView) :=
  [[mkFileView (mkPack 0 [0; 170] [])
      (mkAsciiTokens
         [(65, zero); (69, zero); (73, zero)]
         [(130, 3); (132, 0); (134, 0); (136, 0);
          (138, 3); (140, 0); (142, 0); (144, 0)]
         [(163, 5); (165, 7)])]].

Definition polygon_decoded : Decoded :=
  mkDecoded [zero; zero; zero] [3; 0; 0; 0; 3; 0; 0; 0] [5; 7].

(** ** Node ids across workers *)

(** The number of points that [x] coordinate values begin or complete. *)
Definition ceil3 (x : Z) : Z := (x + 2) / 3.

Definition sum_sizes (sizes : list Z) : Z := foldr Z.add 0 sizes.

(** The length of a worker's [points] array after lines 364-376, [size]
    being its length as decoded and [rest] the number of values the record
    holds past the worker's window: in an ASCII file [addmore] appends the
    [pmissing] values of line 366, or as many as are left; a binary array
    is left as decoded. *)
Definition completed_size (fmt : Format) (npoints size rest : Z) : Z :=
  match fmt with
  | ASCII => size + Z.min (pmissing npoints size) rest
  | _ => size
  end.

(** The node ids of one file, worker after worker: [sizes] lists the
    lengths of the workers' [points] arrays as decoded, whose exclusive
    prefix sums are the workers' [npoints]. *)
Definition workers_node_ids (fmt : Format) (nidoffset : Z) (sizes : list Z)
    : list Z :=
  concat (imap (fun k size =>
                  node_ids nidoffset (exscan sizes k)
                    (completed_size fmt (exscan sizes k) size
                       (sum_sizes (drop (S k) sizes))))
               sizes).

(** A worker's array fits the split, [P] being the number of values held
    by the workers before: in an ASCII file it is not shorter than the
    values it owes to the point begun before it; in a binary file it holds
    whole points and so do the arrays before it. *)
Definition split_fits (fmt : Format) (P size : Z) : bool :=
  (0 <=? size)
  && match fmt with
     | ASCII => pbegin P <=? size
     | _ => (P mod 3 =? 0) && (size mod 3 =? 0)
     end.

Fixpoint splits_ok (fmt : Format) (P : Z) (sizes : list Z) : bool :=
  match sizes with
  | [] => true
  | size :: rest => split_fits fmt P size && splits_ok fmt (P + size) rest
  end.

(** A binary file of 120 bytes whose [POINTS 1 float] payload, the point
    (1, 2, 3) in big-endian floats, occupies bytes [100,112), read by a
    single worker. *)
Definition one_point : list float :=
  [Float x00 x00 x80 x3f; Float x00 x00 x00 x40; Float x00 x00 x40 x40].

Definition one_point_file : list byte :=
  replicate 100 x0a ++ encode_payload one_point ++ replicate 8 x0a.

Definition one_point_pack : InputFilePack :=
  mkPack 0 [0; 120] (buffer_of one_point_file 0 120).

Definition one_point_keyword : Keyword := mkKeyword 0 0 85 100 112.

(** ** The classifier's view of a cell array *)

(** A cells payload: the blocks [count, id, ..., id] of its records. *)
Definition encode_cells (records : list (list Z)) : list Z :=
  concat ((fun r => Z.of_nat (length r) :: r) <$> records).

(** The index at which the walk over the blocks of [cells] that starts at
    [i] leaves the array: a block that starts at [i] spans [cells[i] + 1]
    integers. *)
Fixpoint walk (fuel : nat) (cells : list Z) (i : nat) : nat :=
  match fuel with
  | O => i
  | S fuel' =>
      match cells !! i with
      | None => i
      | Some n => walk fuel' cells (i + Z.to_nat n + 1)
      end
  end.

(** Modelled from the spec: [MixedElementsParser::missing]
    (input/parsers/mixedelementsparser.h is not part of the sources at
    hand), "how many more integers this worker's last record needs": the
    distance from the end of the worker's array to the end of the block it
    ends in, blocks counted from the worker's first complete record. *)
Definition trailing_missing (cells : list Z) (first : nat) : nat :=
  walk (length cells) cells first - length cells.

(** The first start of a block of [whole], walking from [i], that is not
    before index [k]. *)
Fixpoint boundary_from (fuel : nat) (whole : list Z) (i k : nat) : nat :=
  if decide (k <= i)%nat then i
  else
    match fuel with
    | O => i
    | S fuel' =>
        match whole !! i with
        | None => i
        | Some n => boundary_from fuel' whole (i + Z.to_nat n + 1) k
        end
    end.

(** Modelled from the spec: [MixedElementsParser::first], "offset into
    cellInts where this worker's first complete record begins - earlier
    bytes belong to the previous worker's trailing record": [k] being the
    number of integers of the payload held by the workers before. *)
Definition first_complete (whole : list Z) (k : nat) : nat :=
  boundary_from (length whole) whole 0 k - k.

(** ** A payload split between two workers *)

(** The view of a worker whose window starts at byte [d] of [file] and whose
    buffer holds [n] bytes; [tokens] is the text of the file when it is an
    ASCII file. *)
Definition view_of (file : list byte) (tokens : AsciiTokens)
    (dist : list Z) (d : Z) (n : nat) : FileView :=
  mkFileView (mkPack 0 dist (buffer_of file d n)) tokens.

(** The points of a file held by two workers after decoding and
    completion, put together the way the emission reads them: the second
    worker's array from index [pbegin] on, its [npoints] being the exclusive
    prefix sum of the array lengths. *)
Definition two_workers_points (h : Header) (v0 v1 : FileView) (p : Points)
    : option (list double) :=
  a0 ← decode_points h v0 0 p;
  a1 ← decode_points h v1 1 p;
  let sizes := [Z.of_nat (length a0); Z.of_nat (length a1)] in
  c0 ← complete_points h v0 0 p (exscan sizes 0) a0;
  c1 ← complete_points h v1 1 p (exscan sizes 1) a1;
  Some (c0 ++ drop (Z.to_nat (pbegin (exscan sizes 1))) c1).

Definition one_worker_points (h : Header) (v : FileView) (p : Points)
    : option (list double) :=
  a ← decode_points h v 0 p;
  complete_points h v 0 p (exscan [Z.of_nat (length a)] 0) a.

(** The cells of a file held by two workers after decoding and completion,
    put together the way the emission reads them: the second worker's array
    from its first complete record on.  The classifier has every worker's
    array. *)
Definition two_workers_cells (h : Header) (v0 v1 : FileView) (c : Cells)
    : option (list Z) :=
  a0 ← decode_cells h v0 0 c;
  a1 ← decode_cells h v1 1 c;
  let first1 := first_complete (a0 ++ a1) (length a0) in
  c0 ← complete_cells h v0 0 c (Z.of_nat (trailing_missing a0 0)) a0;
  c1 ← complete_cells h v1 1 c (Z.of_nat (trailing_missing a1 first1)) a1;
  Some (c0 ++ drop first1 c1).

Definition one_worker_cells (h : Header) (v : FileView) (c : Cells)
    : option (list Z) :=
  a ← decode_cells h v 0 c;
  complete_cells h v 0 c (Z.of_nat (trailing_missing a 0)) a.

(** The tokens of a record: in file order and inside the record's range. *)
Definition tokens_in {V} (tokens : list (Z * V)) (k : Keyword) : Prop :=
  StronglySorted (fun a b : Z * V => a.1 < b.1) tokens
  /\ Forall (fun t : Z * V => begin k <= t.1 < end_ k) tokens.

(** A binary record: its range in [file] holds the big-endian encoding of
    [vs] and nothing else. *)
Definition binary_in {T} `{Scalar T} (file : list byte) (k : Keyword)
    (vs : list T) : Prop :=
  take (length vs * sizeof) (drop (Z.to_nat (begin k)) file)
  = encode_payload vs
  /\ end_ k = begin k + Z.of_nat (length vs * sizeof).

(** The payload of the points record [p] holds the values [vals]. *)
Definition points_payload (h : Header) (p : Points) (file : list byte)
    (tokens : AsciiTokens) (vals : list double) : Prop :=
  match format h, datatype p with
  | ASCII, _ =>
      tokens_in (points_tokens tokens) (keyword p)
      /\ snd <$> points_tokens tokens = vals
  | BINARY, FLOAT =>
      exists vs : list float,
        binary_in file (keyword p) vs /\ double_of_float <$> vs = vals
  | BINARY, DOUBLE =>
      exists vs : list double,
        binary_in file (keyword p) vs /\ double_of_double <$> vs = vals
  | _, _ => False
  end.

(** The payload of the cells record [c] holds the integers [vals]. *)
Definition cells_payload (h : Header) (c : Cells) (file : list byte)
    (tokens : AsciiTokens) (vals : list Z) : Prop :=
  match format h with
  | ASCII =>
      tokens_in (cells_tokens tokens) (keyword c)
      /\ snd <$> cells_tokens tokens = vals
  | BINARY =>
      exists vs : list int,
        binary_in file (keyword c) vs /\ esint_of_int <$> vs = vals
  | FormatUNKNOWN => False
  end.

(** The windows [d0,s) and [s,d2) split the payload of [k]; the buffers of
    the two workers and of a single worker, of [n0], [n1] and [nS] bytes,
    reach the end of the payload. *)
Definition split_ok (k : Keyword) (d0 s d2 : Z) (n0 n1 nS : nat) : bool :=
  (0 <=? d0) && (d0 <=? begin k) && (begin k <=? s) && (s <=? end_ k)
  && (end_ k <=? d2) && (end_ k <=? d0 + Z.of_nat n0)
  && (end_ k <=? s + Z.of_nat n1) && (end_ k <=? d0 + Z.of_nat nS)
  && (d2 + 24 <=? size_t_modulus).

(** An ASCII file whose points record, two points, has its six tokens at
    bytes 65, 70, ..., 90 of the range [65,120). *)
Definition ascii_header : Header :=
  mkHeader (mkKeyword 0 0 0 0 0) ASCII UNSTRUCTURED_GRID.

Definition two_points : Points := mkPoints (mkKeyword 0 0 50 65 120) 2 FLOAT.

Definition two_points_values : list double :=
  [Double x00 x00 x00 x00 x00 x00 x00 x00;
   Double x00 x00 x00 x00 x00 x00 xf0 x3f;
   Double x00 x00 x00 x00 x00 x00 x00 x40;
   Double x00 x00 x00 x00 x00 x00 x08 x40;
   Double x00 x00 x00 x00 x00 x00 x10 x40;
   Double x00 x00 x00 x00 x00 x00 x14 x40].

Definition two_points_tokens : AsciiTokens :=
  mkAsciiTokens (zip [65; 70; 75; 80; 85; 90] two_points_values) [] [].

(** A binary file whose cells record, the triangles (0,1,2) and (1,2,3),
    occupies bytes [130,162). *)
Definition binary_header : Header :=
  mkHeader (mkKeyword 0 0 0 0 0) BINARY UNSTRUCTURED_GRID.

Definition two_triangles : list (list Z) := [[0; 1; 2]; [1; 2; 3]].

Definition two_triangles_ints : list int :=
  (fun z => from_bytes (le_bytes 4 z)) <$> encode_cells two_triangles.

Definition two_triangles_cells : Cells :=
  mkCells (mkKeyword 0 0 120 130 162) 2 8.

Definition two_triangles_file : list byte :=
  replicate 130 x0a ++ encode_payload two_triangles_ints ++ replicate 10 x0a.

(** A worker whose window [0,99) ends one byte before the payload of a
    [POINTS 4 float] record that occupies bytes [100,148); the buffer holds
    the window and 21 bytes of slack. *)
Definition window_before_points : InputFilePack :=
  mkPack 0 [0; 99; 200] (replicate 120 x00).

Definition points_100_148 : Keyword := mkKeyword 0 0 85 100 148.

(** ** Windows narrower than a point *)

(** The node ids a run has pushed, when it finishes. *)
Definition pushed_node_ids (r : Run MeshBuilder) : option (list Z) :=
  match r with
  | Finished _ mesh => Some (nIDs mesh)
  | _ => None
  end.

(** An ASCII file of 203 bytes read by eleven workers, each with a window
    of 20 bytes but the last.  After the 61 bytes of the header the
    [POINTS 2 float] record has its keyword at byte 61 and its six values,
    16 bytes apart, at bytes 76, 92, 108, 124, 140 and 156 of the range
    [76,172); the [CELLS 1 3] record, one line between the two points, has
    its values at bytes 182, 184 and 186; the cell's type code is at byte
    201. *)
Definition narrow_sections : Sections :=
  mkSections [mkPoints (mkKeyword 0 0 61 76 172) 2 FLOAT]
             [mkCells (mkKeyword 0 0 172 182 188) 1 3]
             [mkCellTypes (mkKeyword 0 0 188 201 203) 1] [] [].

Definition narrow_tokens : AsciiTokens :=
  mkAsciiTokens (zip [76; 92; 108; 124; 140; 156] two_points_values)
    [(182, 2); (184, 0); (186, 1)] [(201, 3)].

Definition narrow_world : list (list FileView) :=
  replicate 11
    [mkFileView
       (mkPack 0 [0; 20; 40; 60; 80; 100; 120; 140; 160; 180; 200; 203] [])
       narrow_tokens].

(** The lengths of the eleven workers' [points] arrays as decoded. *)
Definition narrow_sizes : list Z := [0; 0; 0; 1; 1; 1; 1; 2; 0; 0; 0].

(** What the classifier hands to every worker of [narrow_world]: no region
    out of step, the first record at index 0, nothing missing. *)
Definition narrow_classifier : MixedElementsParser :=
  mkMixedElementsParser [11] [0] [0] [0].

Definition narrow_run (mpi_rank : nat) : Run MeshBuilder :=
  parse narrow_world mpi_rank [ascii_header] narrow_sections
    narrow_classifier ["region"%string] empty_mesh.

(** ** Records [setend] has an end for *)

(** The record names a file of the pack, and some boundary of that file is
    not less than the record's [begin]. *)
Definition has_end (file_ends : list Z) (s : Sections) (k : Keyword) : Prop :=
  exists fe, file_ends !! fileindex k = Some fe
             /\ exists x, x ∈ boundaries fe (fileindex k) s /\ begin k <= x.

(** ** Records and arrays of the emission *)

(** A record the loop passes: a single node, or a node count [_etype] has
    a code for. *)
Definition passes (maxdim : Z) (r : list Z) : Prop :=
  length r = 1%nat
  \/ (maxdim <> 0 /\ accepts maxdim (Z.of_nat (length r)) = true).

(** The arrays of a mesh are in step: one point for every node id, one
    code for every element size, every size one [_etype] has a code for,
    and as many element nodes as the sizes add up to. *)
Definition in_step (mesh : MeshBuilder) : Prop :=
  length (nIDs mesh) = length (coordinates mesh)
  /\ length (esize mesh) = length (etype mesh)
  /\ Forall (fun n => 2 <= n <= 20) (esize mesh)
  /\ Z.of_nat (length (enodes mesh)) = sum_sizes (esize mesh).

(** ** Sorting the records by file (lines 225-227 of [scan]) *)

(** The order of the [std::sort] calls: no record comes before a record of
    a smaller [fileindex]. *)
Definition by_fileindex {T} `{TKeyword T} (a b : T) : Prop :=
  (fileindex (keyword a) <= fileindex (keyword b))%nat.

#[global] Instance by_fileindex_dec {T} `{TKeyword T} :
  RelDecision (by_fileindex (T := T)).
Proof. intros a b. unfold by_fileindex. apply _. Defined.

(** Lines 225-227: a record list ordered by [fileindex].  In what order
    [std::sort] leaves the records of one and the same file is not
    specified, and the order [merge_sort] leaves them in need not be the
    one of the code: the definition stands for the sort only on lists
    without two records of one file, where the sorted list is unique. *)
Definition sort_by_fileindex {T} `{TKeyword T} (l : list T) : list T :=
  merge_sort by_fileindex l.

(** ** The file header ([Header::Header] and the first loop of [scan]) *)

(** The lower case of a byte: the letters A-Z moved to a-z. *)
Definition tolower (b : byte) : byte :=
  let n := Byte.to_N b in
  if ((65 <=? n) && (n <=? 90))%N then default b (Byte.of_N (n + 32)) else b.

(** Modelled from the spec: [StringCompare::caseInsensitiveEq]
    (basis/utilities/parser.h) is not part of the sources at hand; the
    header is recognised by "case-insensitive literal matching", taken here
    as equality of two byte strings after the letters are lowered. *)
Definition caseInsensitiveEq (s1 s2 : list byte) : bool :=
  Nat.eqb (length s1) (length s2)
  && forallb (fun ab : byte * byte => Byte.eqb (tolower ab.1) (tolower ab.2))
       (zip s1 s2).

(** The loops of lines 85, 86 and 93, which move [c] past the next line
    feed: what follows the first line feed.  Running off the buffer is
    undefined. *)
Fixpoint skip_line (c : list byte) : option (list byte) :=
  match c with
  | [] => None
  | b :: r => if Byte.eqb b x0a then Some r else skip_line r
  end.

(** [std::string(c + from, c + from + n)]; a range that leaves the buffer
    is undefined. *)
Definition substring (c : list byte) (from n : nat) : option (list byte) :=
  if (from + n <=? length c)%nat then Some (take n (drop from c)) else None.

(** [Keyword::Keyword] for a keyword found [c] bytes into the buffer. *)
Definition Keyword_Keyword (pack : InputFilePack) (mpi_rank : nat) (c : nat)
    : option Keyword :=
  d0 ← distribution pack !! mpi_rank;
  Some (mkKeyword (pack_fileindex pack) mpi_rank
          (size_t_add d0 (Z.of_nat c)) 0 0).

(** [Header::Header]. *)
Definition Header_Header (pack : InputFilePack) (mpi_rank : nat) (c : nat)
    : option Header :=
  k ← Keyword_Keyword pack mpi_rank c;
  c1 ← skip_line (drop c (pack_begin pack));
  c2 ← skip_line c1;
  s5 ← substring c2 0 5;
  let format1 :=
    if caseInsensitiveEq s5 (String.list_byte_of_string "ASCII")
    then ASCII else FormatUNKNOWN in
  s6 ← substring c2 0 6;
  let format2 :=
    if caseInsensitiveEq s6 (String.list_byte_of_string "BINARY")
    then BINARY else format1 in
  c3 ← skip_line c2;
  s7 ← substring c3 0 7;
  if caseInsensitiveEq s7 (String.list_byte_of_string "DATASET") then
    s17 ← substring c3 8 17;
    Some (mkHeader k format2
            (if caseInsensitiveEq s17
                  (String.list_byte_of_string "UNSTRUCTURED_GRID")
             then UNSTRUCTURED_GRID else DataSetUNKNOWN))
  else Some (mkHeader k format2 DataSetUNKNOWN).

(** The fatal diagnostics of the first loop of [scan]. *)
Inductive HeaderError : Type :=
  | UnknownFormat (file : nat)
  | UnsupportedDataset (file : nat).

(** Line 194: the worker whose window starts the file and is not empty.
    The second entry is read only when the first is zero. *)
Definition header_owner (dist : list Z) (mpi_rank : nat) : option bool :=
  d0 ← dist !! mpi_rank;
  if d0 =? 0 then d1 ← dist !! S mpi_rank; Some (negb (d1 =? 0))
  else Some false.

(** Lines 194-202 for one file: the headers this worker holds afterwards,
    or the first fatal diagnostic. *)
Definition scan_header (pack : InputFilePack) (mpi_rank : nat)
    (_header : list Header) : option (HeaderError + list Header) :=
  owner ← header_owner (distribution pack) mpi_rank;
  match owner with
  | true =>
      h ← Header_Header pack mpi_rank 0;
      match format h, dataset h with
      | FormatUNKNOWN, _ => Some (inl (UnknownFormat (pack_fileindex pack)))
      | _, DataSetUNKNOWN =>
          Some (inl (UnsupportedDataset (pack_fileindex pack)))
      | _, _ => Some (inr (_header ++ [h]))
      end
  | false => Some (inr _header)
  end.

(** The first bytes of a small ASCII file, as its first worker holds
    them. *)
Definition small_header : list byte :=
  String.list_byte_of_string "# vtk DataFile Version 3.0" ++ x0a
    :: String.list_byte_of_string "mesh" ++ x0a
    :: String.list_byte_of_string "ascii" ++ x0a
    :: String.list_byte_of_string "DATASET UNSTRUCTURED_GRID" ++ x0a
    :: String.list_byte_of_string "POINTS 0 float" ++ [x0a].

(** A one-worker run on one ASCII file of 170 bytes with one point and
    one triangle. *)
Definition triangle_world : list (list FileView) :=
  [[mkFileView (mkPack 0 [0; 170] [])
      (mkAsciiTokens
         [(65, zero); (69, zero); (73, zero)]
         [(130, 3); (132, 0); (134, 0); (136, 0)]
         [(163, 5)])]].

(* ================================================================== *)
(** * Properties *)

(** ** Machine integers *)

Lemma wrap_small z : is_size_t z -> wrap z = z.
Proof. intros H. apply Z.mod_small. exact H. Qed.

Lemma wrap_range z : is_size_t (wrap z).
Proof. apply Z.mod_pos_bound. reflexivity. Qed.

(** Drop a wrap-around that the bounds at hand rule out. *)
Ltac unwrap := rewrite wrap_small by (unfold is_size_t; lia).

(** ** The record-size predicate of the classifier *)

Lemma esize_check_admissible mindim id :
  esize_check mindim id = if admissible mindim id then id else 0.
Proof.
  unfold admissible.
  destruct mindim as [|p|p];
    [ | destruct p as [[?|?|]|[?|?|]|] | ]; cbn [esize_check admissible_sizes];
    repeat (case Z.eqb_spec; [intros ->; reflexivity | intros ?]);
    cbn [orb];
    (rewrite bool_decide_eq_false_2; [reflexivity |]);
    rewrite ?elem_of_cons, elem_of_nil; intuition congruence.
Qed.

Lemma admissible_nonzero dimension size :
  admissible dimension size = true -> size <> 0.
Proof.
  unfold admissible. intros H%bool_decide_eq_true_1 ->.
  destruct dimension as [|p|p];
    [ | destruct p as [[?|?|]|[?|?|]|] | ]; cbn [admissible_sizes] in H;
    rewrite ?elem_of_cons, elem_of_nil in H; intuition congruence.
Qed.

(** C3.  The record-size predicate handed to the classifier, read against the
    file's globally reduced minimal dimension, accepts a size exactly when
    the pair is in the table: dimension 0 with size 1; dimension 1 with 2 or
    3; dimension 2 with 3, 4, 6 or 8; dimension 3 with 4, 5, 6, 8, 10, 13, 15
    or 20.  An accepted size is returned unchanged, every other pair
    (also a dimension outside 0..3) yields zero. *)
Theorem esize_check_accepts_exactly mindim id :
  (accepts mindim id = true <->
     (mindim = 0 /\ id = 1)
     \/ (mindim = 1 /\ (id = 2 \/ id = 3))
     \/ (mindim = 2 /\ (id = 3 \/ id = 4 \/ id = 6 \/ id = 8))
     \/ (mindim = 3 /\ (id = 4 \/ id = 5 \/ id = 6 \/ id = 8
                        \/ id = 10 \/ id = 13 \/ id = 15 \/ id = 20)))
  /\ (accepts mindim id = true -> esize_check mindim id = id)
  /\ (accepts mindim id = false -> esize_check mindim id = 0).
Proof.
  unfold accepts. rewrite esize_check_admissible.
  destruct (admissible mindim id) eqn:E.
  - pose proof (admissible_nonzero _ _ E) as Hnz.
    apply Z.eqb_neq in Hnz. rewrite Hnz. cbn [negb].
    split; [| split; [reflexivity | discriminate]].
    split; [intros _ | reflexivity].
    unfold admissible in E. apply bool_decide_eq_true_1 in E.
    destruct mindim as [|p|p];
      [ | destruct p as [[?|?|]|[?|?|]|] | ]; cbn [admissible_sizes] in E;
      rewrite ?elem_of_cons, elem_of_nil in E; intuition congruence.
  - cbn. split; [| split; [discriminate | reflexivity]].
    split; [discriminate |]. intros H.
    unfold admissible in E. apply bool_decide_eq_false_1 in E.
    exfalso. apply E.
    destruct H as [[-> ->]|[[-> H]|[[-> H]|[-> H]]]]; cbn [admissible_sizes];
      rewrite ?elem_of_cons; intuition auto.
Qed.

(** ** Resolving the payload ends *)

Lemma addoffset_lookup {T} `{TKeyword T} (ks : list T) offs f :
  addoffset offs ks !! f =
  (fun row => row ++ (offset <$> filter (fun k => fileindex k = f)
                                       (keyword <$> ks))) <$> offs !! f.
Proof.
  unfold addoffset. revert offs.
  induction ks as [|k ks IH]; intros offs; cbn [fold_left fmap list_fmap].
  - destruct (offs !! f); cbn; [rewrite app_nil_r|]; reflexivity.
  - rewrite IH, filter_cons.
    destruct (decide (fileindex (keyword k) = f)) as [E|E].
    + rewrite <- E at 1. rewrite list_lookup_alter_eq, E.
      destruct (offs !! f); cbn; [|reflexivity].
      rewrite <- app_assoc. reflexivity.
    + rewrite list_lookup_alter_ne by exact E. reflexivity.
Qed.

Lemma build_offsets_lookup file_ends s f fe :
  file_ends !! f = Some fe ->
  build_offsets file_ends (_points s) (_cells s) (_cellTypes s)
    (_pointData s) (_cellData s) !! f
  = Some (merge_sort Z.le (boundaries fe f s)).
Proof.
  intros Hfe. unfold build_offsets.
  rewrite lookup_zip_with, !addoffset_lookup, Hfe.
  rewrite lookup_replicate_2 by (eapply lookup_lt_Some; eassumption).
  cbn. unfold boundaries, file_records, all_keywords.
  rewrite !filter_app, !fmap_app, <- !app_assoc. reflexivity.
Qed.

Lemma lower_bound_Some l v e :
  lower_bound l v = Some e -> e ∈ l /\ v <= e.
Proof.
  induction l as [|x l IH]; cbn; [discriminate|].
  case Z.ltb_spec; intros Hx H.
  - destruct (IH H) as [Hin Hle]. split; [right; exact Hin | exact Hle].
  - injection H as <-. split; [left | lia].
Qed.

Lemma lower_bound_least l v e x :
  StronglySorted Z.le l ->
  lower_bound l v = Some e -> x ∈ l -> v <= x -> e <= x.
Proof.
  induction 1 as [|y l Hs IH Hall]; cbn; [discriminate|].
  case Z.ltb_spec; intros Hy He Hin Hvx.
  - apply elem_of_cons in Hin as [->|Hin]; [lia | auto].
  - injection He as <-.
    apply elem_of_cons in Hin as [->|Hin]; [lia|].
    rewrite Forall_forall in Hall. apply Hall. exact Hin.
Qed.

Lemma lower_bound_exists l v x :
  x ∈ l -> v <= x -> exists e, lower_bound l v = Some e.
Proof.
  induction l as [|y l IH]; intros Hin Hvx; [inversion Hin|].
  cbn. case Z.ltb_spec; intros Hy; [|eauto].
  apply elem_of_cons in Hin as [->|Hin]; [lia | auto].
Qed.

Lemma lower_bound_sorted_least_from B b e :
  lower_bound (merge_sort Z.le B) b = Some e -> least_from B b e.
Proof.
  intros H. pose proof (merge_sort_Permutation Z.le B) as HP.
  destruct (lower_bound_Some _ _ _ H) as [Hin Hle].
  split; [rewrite <- HP; exact Hin | split; [exact Hle|]].
  intros x Hx Hbx. eapply lower_bound_least; [| exact H | | exact Hbx].
  - apply StronglySorted_merge_sort; apply _.
  - rewrite HP. exact Hx.
Qed.

Lemma least_from_after B o b e n :
  o < b -> b <= n -> least_from B b e -> least_after B o n -> e = n.
Proof.
  intros Hob Hbn (He & Hbe & Hmin) (Hn & Hon & Hmin').
  apply Z.le_antisymm.
  - apply Hmin; assumption.
  - apply Hmin'; [assumption | lia].
Qed.

Lemma setend1_resolved {T} `{TKeyword T} file_ends s (t : T) :
  in_file file_ends (keyword t) = true ->
  exists t',
    setend1 (build_offsets file_ends (_points s) (_cells s) (_cellTypes s)
               (_pointData s) (_cellData s)) t = Some t'
    /\ resolved file_ends s (keyword t) (keyword t').
Proof.
  unfold in_file, setend1. intros Hin.
  destruct (file_ends !! fileindex (keyword t)) as [fe|] eqn:Hfe;
    [|discriminate].
  apply Z.leb_le in Hin.
  rewrite (build_offsets_lookup _ _ _ _ Hfe). cbn.
  destruct (lower_bound_exists
              (merge_sort Z.le (boundaries fe (fileindex (keyword t)) s))
              (begin (keyword t)) fe) as [e He]; [| exact Hin |].
  { rewrite merge_sort_Permutation. unfold boundaries.
    apply elem_of_app. right. left. }
  rewrite He. cbn. eexists. split; [reflexivity|].
  rewrite keyword_with_keyword. split; [reflexivity|].
  intros fe' Hfe'. rewrite Hfe in Hfe'. injection Hfe' as <-.
  cbn [set_end end_ fileindex begin offset].
  pose proof (lower_bound_sorted_least_from _ _ _ He) as Hleast.
  split; [exact Hleast|].
  intros n Hob Hbn Hafter. eapply least_from_after; eassumption.
Qed.

Lemma setend_resolved {T} `{TKeyword T} file_ends s (ts : list T) :
  forallb (in_file file_ends) (keyword <$> ts) = true ->
  exists ts',
    setend (build_offsets file_ends (_points s) (_cells s) (_cellTypes s)
              (_pointData s) (_cellData s)) ts = Some ts'
    /\ Forall2 (resolved file_ends s) (keyword <$> ts) (keyword <$> ts').
Proof.
  unfold setend. induction ts as [|t ts IH]; cbn [fmap list_fmap forallb].
  - intros _. exists []. split; [reflexivity | constructor].
  - intros [Ht Hts]%andb_true_iff.
    destruct (setend1_resolved file_ends s t Ht) as (t' & Et & Rt).
    destruct (IH Hts) as (ts' & Ets & Rts).
    exists (t' :: ts'). split.
    + apply mapM_Some. constructor; [exact Et|].
      apply mapM_Some. exact Ets.
    + constructor; assumption.
Qed.

Lemma set_end_keeps k k' :
  k' = set_end (end_ k') k ->
  fileindex k' = fileindex k /\ offset k' = offset k /\ begin k' = begin k.
Proof. intros E. rewrite E. repeat split. Qed.

Lemma well_placed_record file_ends s k :
  well_placed file_ends s = true -> k ∈ all_keywords s ->
  exists fe, file_ends !! fileindex k = Some fe
    /\ offset k < begin k
    /\ forall b, b ∈ boundaries fe (fileindex k) s ->
                 b <= offset k \/ begin k <= b.
Proof.
  unfold well_placed. intros [Hall _]%andb_true_iff Hk.
  rewrite forallb_forall in Hall.
  specialize (Hall k (proj1 (list_elem_of_In _ _) Hk)).
  destruct (file_ends !! fileindex k) as [fe|]; [|discriminate].
  apply andb_true_iff in Hall as [Hob%Z.ltb_lt Hb].
  exists fe. split; [reflexivity|]. split; [exact Hob|].
  intros b Hin. rewrite forallb_forall in Hb.
  specialize (Hb b (proj1 (list_elem_of_In _ _) Hin)).
  apply orb_true_iff in Hb as [H%Z.leb_le|H%Z.leb_le]; auto.
Qed.

Lemma well_placed_offsets file_ends s i j k1 k2 :
  well_placed file_ends s = true -> i <> j ->
  all_keywords s !! i = Some k1 -> all_keywords s !! j = Some k2 ->
  fileindex k1 = fileindex k2 -> offset k1 <> offset k2.
Proof.
  unfold well_placed. intros [_ Hnd%bool_decide_eq_true_1]%andb_true_iff.
  intros Hij H1 H2 Hf Ho. apply Hij.
  eapply NoDup_lookup; [exact Hnd | |].
  - rewrite list_lookup_fmap, H1. reflexivity.
  - rewrite list_lookup_fmap, H2. cbn. rewrite Hf, Ho. reflexivity.
Qed.

Lemma offset_is_boundary fe s k :
  k ∈ all_keywords s -> offset k ∈ boundaries fe (fileindex k) s.
Proof.
  intros Hk. unfold boundaries, file_records.
  apply elem_of_app. left. apply list_elem_of_fmap. exists k.
  split; [reflexivity|]. apply list_elem_of_filter. auto.
Qed.

Lemma boundary_cases fe f s b :
  b ∈ boundaries fe f s ->
  b = fe \/ exists k, k ∈ all_keywords s /\ fileindex k = f /\ offset k = b.
Proof.
  unfold boundaries, file_records.
  intros [Hin|Hin]%elem_of_app.
  - right. apply list_elem_of_fmap in Hin as (k & -> & Hk).
    apply list_elem_of_filter in Hk as [Hf Hk]. eauto.
  - left. apply list_elem_of_singleton in Hin. exact Hin.
Qed.

Lemma next_boundary B o b e :
  o < b -> (forall x, x ∈ B -> x <= o \/ b <= x) ->
  least_from B b e -> least_after B o e.
Proof.
  intros Hob Hfree (Hin & Hbe & Hmin).
  split; [exact Hin|]. split; [lia|].
  intros x Hx Hox. apply Hmin; [exact Hx|].
  destruct (Hfree x Hx); lia.
Qed.

(** Among the records of a file whose keyword is not after [x], one has
    the greatest keyword offset. *)
Lemma greatest_offset_below (ks : list Keyword) x :
  (exists k, k ∈ ks /\ offset k <= x) ->
  exists k, k ∈ ks /\ offset k <= x
    /\ forall k', k' ∈ ks -> offset k' <= x -> offset k' <= offset k.
Proof.
  induction ks as [|a ks IH]; intros (k0 & Hk0 & Hle).
  - inversion Hk0.
  - destruct (decide (Exists (fun k => offset k <= x) ks)) as [Hex|Hno].
    + apply Exists_exists in Hex. destruct (IH Hex) as (k & Hk & Hkx & Hmax).
      destruct (decide (offset a <= x /\ offset k < offset a))
        as [[Hax Hka]|Hna].
      * exists a. split; [left|]. split; [exact Hax|].
        intros k' [->|Hk']%elem_of_cons Hk'x; [lia|].
        specialize (Hmax k' Hk' Hk'x). lia.
      * exists k. split; [right; exact Hk|]. split; [exact Hkx|].
        intros k' [->|Hk']%elem_of_cons Hk'x; [lia|]. auto.
    + assert (Hk0a : k0 = a).
      { apply elem_of_cons in Hk0 as [E|Hin]; [exact E|].
        exfalso. apply Hno, Exists_exists. eauto. }
      subst k0. exists a. split; [left|]. split; [exact Hle|].
      intros k' [->|Hk']%elem_of_cons Hk'x; [lia|].
      exfalso. apply Hno, Exists_exists. eauto.
Qed.

(** C1 (as amended).  [setend] gives every section record, as its [end], the
    smallest boundary that is not less than the record's own [begin], the
    boundaries of a file being the keyword offsets of all its records and
    the file's final byte offset.  Hence, when every record's [begin] lies
    after its own keyword and not after the next boundary, and no two
    records of a file share a keyword offset, every record ends exactly at
    the next boundary after its keyword: the ranges from keyword to [end]
    of two records of a file do not overlap, they leave no byte between a
    keyword and the end of the file uncovered, and the payload ranges, from
    [begin] to [end], are disjoint. *)
Theorem resolve_ends_least_boundary file_ends s :
  records_in_files file_ends s = true ->
  exists s',
    resolve_ends file_ends s = Some s'
    /\ Forall2 (resolved file_ends s) (all_keywords s) (all_keywords s')
    /\ (well_placed file_ends s = true ->
        (forall k fe,
           k ∈ all_keywords s' -> file_ends !! fileindex k = Some fe ->
           offset k < begin k <= end_ k
           /\ least_after (boundaries fe (fileindex k) s) (offset k) (end_ k))
        /\ (forall i j k1 k2,
              i <> j ->
              all_keywords s' !! i = Some k1 ->
              all_keywords s' !! j = Some k2 ->
              fileindex k1 = fileindex k2 ->
              (end_ k1 <= offset k2 /\ end_ k1 <= begin k2)
              \/ (end_ k2 <= offset k1 /\ end_ k2 <= begin k1))
        /\ (forall k fe x,
              k ∈ all_keywords s' -> file_ends !! fileindex k = Some fe ->
              offset k <= x < fe ->
              exists k', k' ∈ all_keywords s'
                /\ fileindex k' = fileindex k
                /\ offset k' <= x < end_ k')).
Proof.
  intros Hin.
  assert (Hres : exists s',
             resolve_ends file_ends s = Some s'
             /\ Forall2 (resolved file_ends s) (all_keywords s)
                  (all_keywords s')).
  { revert Hin. unfold records_in_files, all_keywords, resolve_ends.
    rewrite !forallb_app, !andb_true_iff.
    intros (Hp & Hc & Ht & Hpd & Hcd).
    destruct (setend_resolved file_ends s (_points s) Hp) as (p & -> & Rp).
    destruct (setend_resolved file_ends s (_cells s) Hc) as (c & -> & Rc).
    destruct (setend_resolved file_ends s (_cellTypes s) Ht)
      as (t & -> & Rt).
    destruct (setend_resolved file_ends s (_pointData s) Hpd)
      as (pd & -> & Rpd).
    destruct (setend_resolved file_ends s (_cellData s) Hcd)
      as (cd & -> & Rcd).
    cbn. eexists. split; [reflexivity|]. cbn.
    repeat (apply Forall2_app; [assumption|]). assumption. }
  destruct Hres as (s' & Es & HR).
  exists s'. split; [exact Es|]. split; [exact HR|].
  intros Hwp.
  (* what a resolved record at index [i] has *)
  assert (Hrec : forall i k',
             all_keywords s' !! i = Some k' ->
             exists k fe,
               all_keywords s !! i = Some k
               /\ fileindex k' = fileindex k /\ offset k' = offset k
               /\ begin k' = begin k
               /\ file_ends !! fileindex k = Some fe
               /\ offset k < begin k <= end_ k'
               /\ least_after (boundaries fe (fileindex k) s) (offset k)
                    (end_ k')).
  { intros i k' Hk'.
    destruct (Forall2_lookup_r _ _ _ _ _ HR Hk') as (k & Hk & Ek & Hk2).
    destruct (set_end_keeps _ _ Ek) as (Ef & Eo & Eb).
    destruct (well_placed_record file_ends s k Hwp
                (list_elem_of_lookup_2 _ _ _ Hk))
      as (fe & Hfe & Hob & Hfree).
    destruct (Hk2 fe Hfe) as [Hleast _].
    exists k, fe. do 5 (split; [assumption|]). split.
    - destruct Hleast as (_ & Hle & _). lia.
    - eapply next_boundary; eassumption. }
  split; [|split].
  - intros k' fe Hk' Hfe.
    apply list_elem_of_lookup in Hk' as [i Hi].
    destruct (Hrec i k' Hi) as (k & fe' & Hk & Ef & Eo & Eb & Hfe' & Hr & Hn).
    rewrite Ef, Hfe' in Hfe. injection Hfe as <-.
    rewrite Ef, Eo, Eb. split; assumption.
  - intros i j k1' k2' Hij H1 H2 Hf.
    destruct (Hrec i k1' H1)
      as (k1 & fe1 & Hk1 & Ef1 & Eo1 & Eb1 & Hfe1 & Hr1 & Hn1).
    destruct (Hrec j k2' H2)
      as (k2 & fe2 & Hk2 & Ef2 & Eo2 & Eb2 & Hfe2 & Hr2 & Hn2).
    assert (Hff : fileindex k1 = fileindex k2) by congruence.
    assert (fe2 = fe1) by congruence. subst fe2.
    pose proof (well_placed_offsets file_ends s i j k1 k2 Hwp Hij Hk1 Hk2
                  Hff) as Hne.
    rewrite Eo1, Eo2, Eb1, Eb2.
    destruct (Z.lt_total (offset k1) (offset k2)) as [Hlt|[E|Hgt]];
      [left | contradiction | right].
    + destruct Hn1 as (_ & _ & Hmin).
      assert (end_ k1' <= offset k2).
      { apply Hmin; [|exact Hlt]. rewrite Hff.
        apply offset_is_boundary. eapply list_elem_of_lookup_2. exact Hk2. }
      lia.
    + destruct Hn2 as (_ & _ & Hmin).
      assert (end_ k2' <= offset k1).
      { apply Hmin; [|lia]. rewrite <- Hff.
        apply offset_is_boundary. eapply list_elem_of_lookup_2. exact Hk1. }
      lia.
  - intros k0' fe x Hk0' Hfe Hx.
    apply list_elem_of_lookup in Hk0' as [i0 Hi0].
    destruct (Hrec i0 k0' Hi0)
      as (k0 & fe0 & Hk0 & Ef0 & Eo0 & Eb0 & Hfe0 & Hr0 & Hn0).
    rewrite Ef0, Hfe0 in Hfe. injection Hfe as <-.
    set (f := fileindex k0) in *.
    destruct (greatest_offset_below (file_records f s) x)
      as (k & Hk & Hkx & Hmax).
    { exists k0. split; [|lia]. unfold file_records.
      apply list_elem_of_filter. split; [reflexivity|].
      eapply list_elem_of_lookup_2. exact Hk0. }
    unfold file_records in Hk. apply list_elem_of_filter in Hk as [Hkf Hk].
    apply list_elem_of_lookup in Hk as [i Hi].
    destruct (Forall2_lookup_l _ _ _ _ _ HR Hi) as (k' & Hi' & _).
    destruct (Hrec i k' Hi')
      as (k2 & fe2 & Hk2 & Ef & Eo & Eb & Hfe2 & Hr & Hn).
    rewrite Hi in Hk2. injection Hk2 as <-.
    rewrite Hkf, Hfe0 in Hfe2. injection Hfe2 as <-.
    exists k'. split; [eapply list_elem_of_lookup_2; exact Hi'|].
    split; [congruence|]. rewrite Eo. split; [exact Hkx|].
    destruct Hn as (Hin' & Hoe & _). rewrite Hkf in Hin'.
    apply boundary_cases in Hin' as [->|(k3 & Hk3 & Hf3 & Ho3)]; [lia|].
    destruct (Z.lt_ge_cases x (end_ k')) as [?|Hge]; [assumption|].
    exfalso.
    assert (offset k3 <= offset k).
    { apply Hmax; [|lia]. unfold file_records.
      apply list_elem_of_filter. auto. }
    lia.
Qed.

Lemma resolve_ends_least_boundary_witness :
  records_in_files [300] two_sections = true
  /\ well_placed [300] two_sections = true
  /\ exists s',
       resolve_ends [300] two_sections = Some s'
       /\ Forall2 (resolved [300] two_sections)
            (all_keywords two_sections) (all_keywords s')
       /\ forall k fe x,
            k ∈ all_keywords s' -> [300] !! fileindex k = Some fe ->
            offset k <= x < fe ->
            exists k', k' ∈ all_keywords s'
              /\ fileindex k' = fileindex k
              /\ offset k' <= x < end_ k'.
Proof.
  split; [reflexivity|]. split; [reflexivity|].
  destruct (resolve_ends_least_boundary [300] two_sections)
    as (s' & Es & HR & Hpart); [reflexivity|].
  exists s'. split; [exact Es|]. split; [exact HR|].
  apply Hpart. reflexivity.
Defined.

(** C1 as stated fails on [two_sections]: the [POINTS] payload, which begins
    at byte 115, is given the end 200, the offset of the [CELLS] keyword,
    where the smallest [begin] above 115 is 210; and the payload ranges
    [115,200) and [210,300) leave the bytes of the [CELLS] line, such as
    byte 205, uncovered. *)
Lemma two_sections_end_is_next_offset :
  exists s',
    resolve_ends [300] two_sections = Some s'
    /\ end_ <$> all_keywords s' = [200; 300]
    /\ spec_end 300 (all_keywords two_sections)
         <$> all_keywords two_sections = [Some 210; Some 300]
    /\ Forall (fun k' => negb ((begin k' <=? 205) && (205 <? end_ k')) = true)
         (all_keywords s').
Proof.
  eexists. split; [vm_compute; reflexivity|].
  split; [reflexivity|]. split; [vm_compute; reflexivity|].
  repeat constructor.
Qed.

(** ** Scalars *)

Example double_of_float_one :
  double_of_float (Float x00 x00 x80 x3f)
  = Double x00 x00 x00 x00 x00 x00 xf0 x3f.
Proof. vm_compute. reflexivity. Qed.

Example double_of_float_minus_two_and_a_half :
  double_of_float (Float x00 x00 x20 xc0)
  = Double x00 x00 x00 x00 x00 x00 x04 xc0.
Proof. vm_compute. reflexivity. Qed.

Example double_of_float_smallest_subnormal :
  double_of_float (Float x01 x00 x00 x00)
  = Double x00 x00 x00 x00 x00 x00 xa0 x36.
Proof. vm_compute. reflexivity. Qed.

Example double_of_float_infinity :
  double_of_float (Float x00 x00 x80 x7f)
  = Double x00 x00 x00 x00 x00 x00 xf0 x7f.
Proof. vm_compute. reflexivity. Qed.

Example double_of_float_signalling_nan :
  double_of_float (Float x01 x00 x80 x7f)
  = Double x00 x00 x00 x20 x00 x00 xf8 x7f.
Proof. vm_compute. reflexivity. Qed.

Example esint_of_int_minus_one : esint_of_int (Int xff xff xff xff) = -1.
Proof. reflexivity. Qed.

(** ** The binary decode *)

(** Without wrap-around [round] yields the least value not below [current]
    that is a whole number of chunks away from [start]. *)
Lemma round_aligned current start chunk :
  0 < chunk -> 0 <= start <= current -> current + chunk <= size_t_modulus ->
  let r := round current start chunk in
  current <= r < current + chunk /\ (r - start) mod chunk = 0.
Proof.
  intros Hc Hs Hb. unfold round, size_t_sub, size_t_add.
  assert (Hm : 0 < size_t_modulus) by reflexivity.
  rewrite (wrap_small (current - start)) by (unfold is_size_t; lia).
  pose proof (Z.mod_pos_bound (current - start) chunk Hc) as Hr.
  case Z.eqb_spec; intros E; cbn zeta.
  - split; [lia | exact E].
  - unwrap.
    split; [lia|].
    replace (current + (chunk - (current - start) mod chunk) - start)
      with ((current - start) - (current - start) mod chunk + 1 * chunk)
      by lia.
    rewrite Z.mod_add by lia.
    rewrite (Z.div_mod (current - start) chunk) at 1 by lia.
    replace (chunk * ((current - start) / chunk) + (current - start) mod chunk
             - (current - start) mod chunk)
      with (((current - start) / chunk) * chunk) by lia.
    apply Z.mod_mul. lia.
Qed.

(** When the worker's window does not end before the record's [begin], both
    ends of the decoded range are the ends of the intersection moved up to a
    whole number of [align] bytes from that [begin]. *)
Lemma read_range_aligned pack mpi_rank k align d0 d1 :
  distribution pack !! mpi_rank = Some d0 ->
  distribution pack !! S mpi_rank = Some d1 ->
  0 < align -> 0 <= begin k <= end_ k -> 0 <= d0 -> begin k <= d1 ->
  Z.max (end_ k) d1 + align <= size_t_modulus ->
  d0 + align <= size_t_modulus ->
  exists b e,
    read_range pack mpi_rank k align = Some (b, e)
    /\ Z.max (begin k) d0 <= b < Z.max (begin k) d0 + align
    /\ Z.min (end_ k) d1 <= e < Z.min (end_ k) d1 + align
    /\ (b - begin k) mod align = 0
    /\ (e - begin k) mod align = 0.
Proof.
  intros Hd0 Hd1 Ha Hk H0 H1 Hb1 Hb0. unfold read_range.
  rewrite Hd0, Hd1. cbn. eexists _, _. split; [reflexivity|].
  destruct (round_aligned (Z.max (begin k) d0) (begin k) align) as [? ?];
    [lia..|].
  destruct (round_aligned (Z.min (end_ k) d1) (begin k) align) as [? ?];
    [lia..|].
  auto.
Qed.

(** The range decoded then holds a whole number of units. *)
Lemma read_range_whole_units pack mpi_rank k align d0 d1 :
  distribution pack !! mpi_rank = Some d0 ->
  distribution pack !! S mpi_rank = Some d1 ->
  0 < align -> 0 <= begin k <= end_ k -> 0 <= d0 -> begin k <= d1 ->
  Z.max (end_ k) d1 + align <= size_t_modulus ->
  d0 + align <= size_t_modulus ->
  exists b e,
    read_range pack mpi_rank k align = Some (b, e)
    /\ (e - b) mod align = 0
    /\ e - Z.min (end_ k) d1 <= align - 1.
Proof.
  intros Hd0 Hd1 Ha Hk H0 H1 Hb1 Hb0.
  destruct (read_range_aligned pack mpi_rank k align d0 d1)
    as (b & e & E & Hb & He & Hbm & Hem); try assumption.
  exists b, e. split; [exact E|]. split; [|lia].
  apply Z.mod_divide in Hbm as [qb Eb]; [|lia].
  apply Z.mod_divide in Hem as [qe Ee]; [|lia].
  replace (e - b) with ((qe - qb) * align) by lia.
  apply Z.mod_mul. lia.
Qed.

(** C7.  Evaluation at a worker whose window [0,99) ends one byte before the
    payload [100,148) of a float [POINTS] record (alignment 12): the
    intersection with the window is empty, yet the range decoded is
    [100,108).  Its end is not a whole number of 12-byte units from the
    record's [begin]: the difference [99 - 100] wraps around in [size_t] and
    2^64 is not a multiple of 12. *)
Theorem read_range_window_before_points :
  read_range window_before_points 0 points_100_148 12 = Some (100, 108)
  /\ Z.min (end_ points_100_148) 99 < Z.max (begin points_100_148) 0
  /\ (108 - begin points_100_148) mod 12 = 8.
Proof. vm_compute. repeat split; reflexivity. Qed.

(** C10.  Evaluation at the same worker: [read<float, double>] decodes two
    values, which is not a whole number of points. *)
Theorem read_window_before_points_length :
  length <$> read double_of_float window_before_points 0 points_100_148 [] 12
  = Some 2%nat.
Proof. vm_compute. reflexivity. Qed.

(** ** Dimension consensus *)

Lemma _dimension_cases t :
  (t ∈ known_vtktypes /\ 0 <= _dimension t <= 3)
  \/ ((t ∉ known_vtktypes) /\ _dimension t = -1).
Proof.
  destruct (decide (t ∈ known_vtktypes)) as [H|H].
  - left. split; [exact H|]. unfold known_vtktypes in H.
    rewrite !elem_of_cons, elem_of_nil in H.
    repeat (destruct H as [->|H]; [cbn; lia|]). destruct H.
  - right. split; [exact H|].
    unfold known_vtktypes in H. rewrite !elem_of_cons, elem_of_nil in H.
    destruct t as [|p|p]; [reflexivity| |reflexivity].
    do 5 (try destruct p as [p|p|]); try reflexivity; exfalso; apply H; tauto.
Qed.

Lemma _dimension_range t : -1 <= _dimension t <= 3.
Proof. destruct (_dimension_cases t) as [[_ ?]|[_ ?]]; lia. Qed.

Lemma _dimension_unknown t : t ∉ known_vtktypes <-> _dimension t = -1.
Proof.
  destruct (_dimension_cases t) as [[? ?]|[? ?]]; split; intros; try lia;
    try assumption; contradiction.
Qed.

Section Folds.
Variable op : Z -> Z -> Z.
Hypothesis op_choice : forall a b, op a b = a \/ op a b = b.

Lemma fold_left_choice l a :
  fold_left op l a = a \/ fold_left op l a ∈ l.
Proof.
  revert a. induction l as [|x l IH]; intros a; cbn; [left; reflexivity|].
  destruct (IH (op a x)) as [E|E].
  - rewrite E. destruct (op_choice a x) as [->| ->];
      [left; reflexivity | right; left].
  - right. right. exact E.
Qed.
End Folds.

Lemma fold_min_le_init l a : fold_left Z.min l a <= a.
Proof.
  revert a. induction l as [|x l IH]; intros a; cbn; [lia|].
  specialize (IH (Z.min a x)). lia.
Qed.

Lemma fold_min_le_elem l a x : x ∈ l -> fold_left Z.min l a <= x.
Proof.
  revert a. induction l as [|y l IH]; intros a Hx; [inversion Hx|].
  cbn. apply elem_of_cons in Hx as [->|Hx].
  - pose proof (fold_min_le_init l (Z.min a y)). lia.
  - apply IH. exact Hx.
Qed.

Lemma fold_max_ge_init l a : a <= fold_left Z.max l a.
Proof.
  revert a. induction l as [|x l IH]; intros a; cbn; [lia|].
  specialize (IH (Z.max a x)). lia.
Qed.

Lemma fold_max_ge_elem l a x : x ∈ l -> x <= fold_left Z.max l a.
Proof.
  revert a. induction l as [|y l IH]; intros a Hx; [inversion Hx|].
  cbn. apply elem_of_cons in Hx as [->|Hx].
  - pose proof (fold_max_ge_init l (Z.max a y)). lia.
  - apply IH. exact Hx.
Qed.

Lemma fold_min_choice l a : fold_left Z.min l a = a \/ fold_left Z.min l a ∈ l.
Proof. apply fold_left_choice. intros; lia. Qed.

Lemma fold_max_choice l a : fold_left Z.max l a = a \/ fold_left Z.max l a ∈ l.
Proof. apply fold_left_choice. intros; lia. Qed.

Lemma scan_dimensions_folds ts :
  scan_dimensions ts
  = (fold_left Z.min (_dimension <$> ts) 4,
     fold_left Z.max (_dimension <$> ts) 0).
Proof.
  unfold scan_dimensions. generalize 4 0. 
  induction ts as [|t ts IH]; intros a b; cbn; [reflexivity|].
  apply IH.
Qed.

(** The local bounds of a slice: [4] and [0] when it is empty, otherwise the
    least and the greatest of [0] and the dimensions met. *)
Lemma scan_dimensions_min ts :
  let mn := (scan_dimensions ts).1 in
  -1 <= mn <= 4 /\ (forall t, t ∈ ts -> mn <= _dimension t)
  /\ (mn = 4 \/ exists t, t ∈ ts /\ mn = _dimension t).
Proof.
  rewrite scan_dimensions_folds. cbn [fst].
  pose proof (fold_min_le_init (_dimension <$> ts) 4) as Hle.
  assert (Hch : fold_left Z.min (_dimension <$> ts) 4 = 4
                \/ exists t, t ∈ ts
                   /\ fold_left Z.min (_dimension <$> ts) 4 = _dimension t).
  { destruct (fold_min_choice (_dimension <$> ts) 4) as [E|E]; [left; exact E|].
    right. apply list_elem_of_fmap in E as (t & E & Ht). eauto. }
  split; [|split; [|exact Hch]].
  - destruct Hch as [->|(t & _ & ->)]; [lia|].
    pose proof (_dimension_range t). lia.
  - intros t Ht. apply fold_min_le_elem, list_elem_of_fmap. eauto.
Qed.

Lemma scan_dimensions_max ts :
  let mx := (scan_dimensions ts).2 in
  0 <= mx <= 3 /\ (forall t, t ∈ ts -> _dimension t <= mx)
  /\ (mx = 0 \/ exists t, t ∈ ts /\ mx = _dimension t).
Proof.
  rewrite scan_dimensions_folds. cbn [snd].
  pose proof (fold_max_ge_init (_dimension <$> ts) 0) as Hge.
  assert (Hch : fold_left Z.max (_dimension <$> ts) 0 = 0
                \/ exists t, t ∈ ts
                   /\ fold_left Z.max (_dimension <$> ts) 0 = _dimension t).
  { destruct (fold_max_choice (_dimension <$> ts) 0) as [E|E]; [left; exact E|].
    right. apply list_elem_of_fmap in E as (t & E & Ht). eauto. }
  split; [|split; [|exact Hch]].
  - destruct Hch as [E|(t & _ & E)]; rewrite E in *; [lia|].
    pose proof (_dimension_range t). lia.
  - intros t Ht. apply fold_max_ge_elem, list_elem_of_fmap. eauto.
Qed.

(** The reduced bounds are met by some worker and bound every worker's. *)
Lemma allReduce_min vs :
  vs <> [] ->
  allReduce Z.min vs ∈ vs /\ forall v, v ∈ vs -> allReduce Z.min vs <= v.
Proof.
  destruct vs as [|v r]; [congruence|]. intros _. cbn. split.
  - destruct (fold_min_choice r v) as [->|E]; [left | right; exact E].
  - intros x [->|Hx]%elem_of_cons;
      [apply fold_min_le_init | apply fold_min_le_elem; exact Hx].
Qed.

Lemma allReduce_max vs :
  vs <> [] ->
  allReduce Z.max vs ∈ vs /\ forall v, v ∈ vs -> v <= allReduce Z.max vs.
Proof.
  destruct vs as [|v r]; [congruence|]. intros _. cbn. split.
  - destruct (fold_max_choice r v) as [->|E]; [left | right; exact E].
  - intros x [->|Hx]%elem_of_cons;
      [apply fold_max_ge_init | apply fold_max_ge_elem; exact Hx].
Qed.

(** ** The monad of runs *)

Lemma bind_defined_Some {A B} (a : A) (k : A -> Run B) :
  defined (Some a) ≫= k = k a.
Proof. cbn. destruct (k a); reflexivity. Qed.

Lemma bind_Finished_nil {A B} (a : A) (k : A -> Run B) :
  Finished [] a ≫= k = k a.
Proof. cbn. destruct (k a); reflexivity. Qed.

Lemma bind_Fatal {A B} e (k : A -> Run B) : Fatal e ≫= k = Fatal e.
Proof. reflexivity. Qed.

Lemma bind_Finished {A B} l (a : A) (k : A -> Run B) :
  Finished l a ≫= k
  = match k a with
    | Fatal e => Fatal e
    | Stuck => Stuck
    | Finished l' b => Finished (l ++ l') b
    end.
Proof. reflexivity. Qed.

Lemma check_dimension_cases mn mx f :
  check_dimension mn mx f
  = if mn =? mx then Finished [] tt else Fatal (VariousElementsDimension f).
Proof. reflexivity. Qed.

Lemma check_dimensions_find states :
  check_dimensions states
  = match find mismatch states with
    | Some st => Fatal (VariousElementsDimension (state_file st))
    | None => Finished [] tt
    end.
Proof.
  unfold check_dimensions.
  induction states as [|st states IH]; cbn [for_each find]; [reflexivity|].
  unfold mismatch at 1. rewrite check_dimension_cases.
  destruct (state_mindim st =? state_maxdim st); cbn [negb];
    [|reflexivity].
  change (for_each _ states) with
    (for_each (fun st0 => check_dimension (state_mindim st0)
                 (state_maxdim st0) (state_file st0)) states) in IH.
  cbn. cbn in IH. rewrite IH.
  destruct (find mismatch states); reflexivity.
Qed.

Lemma uniform_slice_bounds d ts :
  0 <= d -> forallb (fun t => _dimension t =? d) ts = true ->
  scan_dimensions ts = if Nat.eqb (length ts) 0 then (4, 0) else (d, d).
Proof.
  intros Hd Hall. destruct ts as [|t0 ts0]; [reflexivity|].
  set (ts := t0 :: ts0) in *. cbn [length Nat.eqb].
  assert (Hin : forall t, t ∈ ts -> _dimension t = d).
  { intros t Ht. rewrite forallb_forall in Hall.
    apply Z.eqb_eq, Hall, list_elem_of_In, Ht. }
  assert (Ht0 : t0 ∈ ts) by left.
  pose proof (_dimension_range t0) as Hr. rewrite (Hin _ Ht0) in Hr.
  destruct (scan_dimensions_min ts) as (_ & Hle & Hch).
  destruct (scan_dimensions_max ts) as (_ & Hge & Hch').
  specialize (Hle _ Ht0). specialize (Hge _ Ht0). rewrite (Hin _ Ht0) in *.
  destruct (scan_dimensions ts) as [mn mx]. cbn [fst snd] in *.
  f_equal.
  - destruct Hch as [->|(t & Ht & ->)]; [lia | auto].
  - destruct Hch' as [->|(t & Ht & ->)]; [lia | auto].
Qed.

Lemma uniform_global_bounds d slices :
  0 <= d -> uniform_dimension d slices = true -> some_code slices = true ->
  global_mindim slices = d /\ global_maxdim slices = d.
Proof.
  unfold uniform_dimension, some_code, global_mindim, global_maxdim.
  intros Hd Hall Hsome.
  apply existsb_exists in Hsome as (ts0 & Hts0 & Hne).
  apply list_elem_of_In in Hts0.
  assert (Hloc : forall ts, ts ∈ slices ->
            scan_dimensions ts
            = if Nat.eqb (length ts) 0 then (4, 0) else (d, d)).
  { intros ts Hts. apply uniform_slice_bounds; [exact Hd|].
    rewrite forallb_forall in Hall. apply Hall, list_elem_of_In, Hts. }
  assert (Hd3 : d <= 3).
  { destruct ts0 as [|t ts0']; [discriminate|].
    pose proof (Hloc _ Hts0) as E. cbn [length Nat.eqb] in E.
    destruct (scan_dimensions_max (t :: ts0')) as (Hr & _ & _).
    rewrite E in Hr. cbn in Hr. lia. }
  assert (H0 : scan_dimensions ts0 = (d, d)).
  { rewrite (Hloc _ Hts0). destruct (length ts0); [discriminate|reflexivity]. }
  split.
  - destruct (allReduce_min ((fun ts => (scan_dimensions ts).1) <$> slices))
      as [Hin Hle].
    { intros E. apply fmap_nil_inv in E. subst. inversion Hts0. }
    assert (allReduce Z.min ((fun ts => (scan_dimensions ts).1) <$> slices)
            <= d) as Hub.
    { apply Hle, list_elem_of_fmap. exists ts0. rewrite H0. auto. }
    apply list_elem_of_fmap in Hin as (ts & E & Hts).
    rewrite E in *. rewrite (Hloc _ Hts) in *.
    destruct (Nat.eqb (length ts) 0); cbn [fst] in *; lia.
  - destruct (allReduce_max ((fun ts => (scan_dimensions ts).2) <$> slices))
      as [Hin Hge].
    { intros E. apply fmap_nil_inv in E. subst. inversion Hts0. }
    assert (d <= allReduce Z.max ((fun ts => (scan_dimensions ts).2)
                                    <$> slices)) as Hlb.
    { apply Hge, list_elem_of_fmap. exists ts0. rewrite H0. auto. }
    apply list_elem_of_fmap in Hin as (ts & E & Hts).
    rewrite E in *. rewrite (Hloc _ Hts) in *.
    destruct (Nat.eqb (length ts) 0); cbn [snd] in *; lia.
Qed.

(** C5 (as amended).  A file whose reduced bounds differ is reported with
    the fatal "various elements dimension" error, the first such file
    ending the run; and a file with at least one cell type code, all of
    whose codes are of one dimension among 0..3, has both reduced bounds
    equal to that dimension and is not reported. *)
Theorem dimension_consensus d slices states :
  0 <= d -> uniform_dimension d slices = true -> some_code slices = true ->
  (global_mindim slices = d /\ global_maxdim slices = d)
  /\ (forall f, check_dimension (global_mindim slices)
                  (global_maxdim slices) f = Finished [] tt)
  /\ (forall mn mx f,
        check_dimension mn mx f
        = if mn =? mx then Finished [] tt
          else Fatal (VariousElementsDimension f))
  /\ check_dimensions states
     = match find mismatch states with
       | Some st => Fatal (VariousElementsDimension (state_file st))
       | None => Finished [] tt
       end.
Proof.
  intros Hd Hu Hs.
  destruct (uniform_global_bounds d slices Hd Hu Hs) as [Emin Emax].
  split; [split; assumption|]. split; [|split].
  - intros f. rewrite check_dimension_cases, Emin, Emax, Z.eqb_refl.
    reflexivity.
  - intros. apply check_dimension_cases.
  - apply check_dimensions_find.
Qed.

Lemma dimension_consensus_witness :
  global_mindim [[5; 9]; []; [9]] = 2
  /\ global_maxdim [[5; 9]; []; [9]] = 2
  /\ check_dimension (global_mindim [[5; 9]; []; [9]])
       (global_maxdim [[5; 9]; []; [9]]) 0 = Finished [] tt.
Proof.
  destruct (dimension_consensus 2 [[5; 9]; []; [9]] [])
    as ((Emin & Emax) & Hok & _); [lia | reflexivity | reflexivity |].
  split; [exact Emin|]. split; [exact Emax|]. apply Hok.
Defined.

(** C5 as stated fails where the codes of a file agree on a dimension that
    is none: two cells of type 7 (polygon), for which [_dimension] yields
    -1, leave the bounds at -1 and 0 and the file is reported; so is a
    file without any cell type code, whose bounds stay at 4 and 0. *)
Lemma uniform_dimension_reported :
  (uniform_dimension (-1) [[7; 7]] = true
   /\ check_dimension (global_mindim [[7; 7]]) (global_maxdim [[7; 7]]) 0
      = Fatal (VariousElementsDimension 0))
  /\ (uniform_dimension 2 [[]; []] = true
      /\ check_dimension (global_mindim [[]; []]) (global_maxdim [[]; []]) 0
         = Fatal (VariousElementsDimension 0)).
Proof. repeat split; reflexivity. Qed.

(** ** The classification warning *)

Lemma for_each_warnings {A} (f : A -> Run unit) (g : A -> list Event) l :
  (forall a, f a = Finished (g a) tt) ->
  for_each f l = Finished (concat (g <$> l)) tt.
Proof.
  intros Hf. induction l as [|a l IH]; cbn [for_each]; [reflexivity|].
  rewrite Hf. cbn. cbn in IH. rewrite IH. reflexivity.
Qed.

Lemma invalid_warnings_warned mpi_size invalid :
  invalid_warnings mpi_size invalid = Finished (warned mpi_size invalid) tt.
Proof.
  unfold invalid_warnings, warned.
  rewrite (for_each_warnings _
             (fun iv : nat * Z => if iv.2 =? mpi_size then []
                                  else [SynchronizationWarning iv.1])).
  2:{ intros [i v]. unfold invalid_warning. cbn [fst snd].
      destruct (v =? mpi_size); reflexivity. }
  f_equal. induction (imap pair invalid) as [|[i v] l IH]; [reflexivity|].
  cbn [fmap list_fmap concat fst snd]. rewrite filter_cons. cbn [snd].
  rewrite IH. case Z.eqb_spec; intros E.
  - rewrite decide_False by (intros H; apply H; exact E). reflexivity.
  - rewrite decide_True by exact E. reflexivity.
Qed.




(** ** Unrecognized cell type codes *)

Lemma unknown_code_bounds slices ts t :
  ts ∈ slices -> t ∈ ts -> t ∉ known_vtktypes ->
  global_mindim slices = -1 /\ 0 <= global_maxdim slices.
Proof.
  intros Hts Ht Hunk. apply _dimension_unknown in Hunk.
  unfold global_mindim, global_maxdim. split.
  - destruct (allReduce_min ((fun ts => (scan_dimensions ts).1) <$> slices))
      as [Hin Hle].
    { intros E. apply fmap_nil_inv in E. subst. inversion Hts. }
    assert (allReduce Z.min ((fun ts => (scan_dimensions ts).1) <$> slices)
            <= -1) as Hub.
    { destruct (scan_dimensions_min ts) as (_ & Hmin & _).
      specialize (Hmin _ Ht). rewrite Hunk in Hmin.
      etransitivity; [|exact Hmin].
      apply Hle, list_elem_of_fmap. eauto. }
    apply list_elem_of_fmap in Hin as (ts' & E & _).
    destruct (scan_dimensions_min ts') as (Hr & _ & _). lia.
  - destruct (allReduce_max ((fun ts => (scan_dimensions ts).2) <$> slices))
      as [Hin _].
    { intros E. apply fmap_nil_inv in E. subst. inversion Hts. }
    apply list_elem_of_fmap in Hin as (ts' & E & _).
    destruct (scan_dimensions_max ts') as (Hr & _ & _). lia.
Qed.

(** C9.  A cell type code outside the fifteen codes of the table has
    dimension -1.  When the slice of some worker holds such a code for some
    file, that file's reduced minimum is -1 and its reduced maximum is not
    negative, so [parse] ends with the fatal "various elements dimension"
    error, which is raised before the element loop could report an
    unrecognized element type. *)
Theorem unknown_code_is_mixed_dimension
    world mpi_rank _header s mixedparser names mesh decoded mine views
    f d w t :
  decode_world world _header s = Some decoded ->
  decoded !! mpi_rank = Some mine ->
  world !! mpi_rank = Some views ->
  mine !! f = Some d ->
  w ∈ column f decoded -> t ∈ celltypes w -> t ∉ known_vtktypes ->
  _dimension t = -1
  /\ global_mindim (celltypes <$> column f decoded) = -1
  /\ 0 <= global_maxdim (celltypes <$> column f decoded)
  /\ exists f',
       parse world mpi_rank _header s mixedparser names mesh
       = Fatal (VariousElementsDimension f').
Proof.
  intros Hdec Hmine Hviews Hd Hw Ht Hunk.
  destruct (unknown_code_bounds (celltypes <$> column f decoded)
              (celltypes w) t) as [Emin Hmax]; [|exact Ht|exact Hunk|].
  { apply list_elem_of_fmap. eauto. }
  split; [apply _dimension_unknown; exact Hunk|].
  split; [exact Emin|]. split; [exact Hmax|].
  set (states := imap (reduce_file decoded mpi_rank) mine).
  assert (Hfind : exists st, find mismatch states = Some st).
  { destruct (find mismatch states) as [st|] eqn:E; [eauto|].
    exfalso.
    assert (Hin : In (reduce_file decoded mpi_rank f d) states).
    { apply list_elem_of_In, list_elem_of_lookup. exists f. unfold states.
      rewrite list_lookup_imap, Hd. reflexivity. }
    pose proof (find_none _ _ E _ Hin) as Hn.
    unfold mismatch, reduce_file in Hn.
    cbn [state_mindim state_maxdim] in Hn.
    apply negb_false_iff, Z.eqb_eq in Hn. lia. }
  destruct Hfind as [st Hst]. exists (state_file st).
  unfold parse. rewrite Hdec, bind_defined_Some, Hmine, bind_defined_Some.
  rewrite Hviews, bind_defined_Some.
  fold states. rewrite check_dimensions_find, Hst. reflexivity.
Qed.

Lemma unknown_code_is_mixed_dimension_witness :
  _dimension 7 = -1
  /\ global_mindim (celltypes <$> column 0 [[polygon_decoded]]) = -1
  /\ 0 <= global_maxdim (celltypes <$> column 0 [[polygon_decoded]])
  /\ exists f',
       parse polygon_world 0 polygon_header polygon_sections
         (mkMixedElementsParser [1] [0] [0] [0]) ["region"%string] empty_mesh
       = Fatal (VariousElementsDimension f').
Proof.
  apply (unknown_code_is_mixed_dimension polygon_world 0%nat polygon_header
           polygon_sections _ _ _ [[polygon_decoded]] [polygon_decoded]
           [mkFileView (mkPack 0 [0; 170] [])
              (mkAsciiTokens
                 [(65, zero); (69, zero); (73, zero)]
                 [(130, 3); (132, 0); (134, 0); (136, 0);
                  (138, 3); (140, 0); (142, 0); (144, 0)]
                 [(163, 5); (165, 7)])]
           0%nat polygon_decoded polygon_decoded 7).
  - vm_compute. reflexivity.
  - reflexivity.
  - reflexivity.
  - reflexivity.
  - left.
  - right. left.
  - unfold known_vtktypes. rewrite !elem_of_cons, elem_of_nil.
    intros H. repeat (destruct H as [H|H]; [discriminate|]). exact H.
Defined.

(** ** Node ids *)

Lemma pbegin_spec P : 0 <= P -> 0 <= pbegin P < 3 /\ P + pbegin P = 3 * ceil3 P.
Proof.
  intros HP. unfold pbegin, ceil3.
  pose proof (Z.div_mod P 3 ltac:(lia)).
  pose proof (Z.mod_pos_bound P 3 ltac:(lia)).
  pose proof (Z.div_mod (3 - P mod 3) 3 ltac:(lia)).
  pose proof (Z.mod_pos_bound (3 - P mod 3) 3 ltac:(lia)).
  pose proof (Z.div_mod (P + 2) 3 ltac:(lia)).
  pose proof (Z.mod_pos_bound (P + 2) 3 ltac:(lia)).
  lia.
Qed.

Lemma ceil3_add_multiple a x : ceil3 (3 * a + x) = a + ceil3 x.
Proof.
  unfold ceil3. replace (3 * a + x + 2) with (x + 2 + a * 3) by lia.
  rewrite Z.div_add by lia. lia.
Qed.

Lemma ceil3_bounds x : 0 <= x -> 0 <= ceil3 x <= x.
Proof.
  intros Hx. unfold ceil3.
  pose proof (Z.div_mod (x + 2) 3 ltac:(lia)).
  pose proof (Z.mod_pos_bound (x + 2) 3 ltac:(lia)).
  lia.
Qed.

Lemma ceil3_mono x y : x <= y -> ceil3 x <= ceil3 y.
Proof. intros H. unfold ceil3. apply Z.div_le_mono; lia. Qed.

Lemma noffset_ceil3 P :
  0 <= P -> P + 3 <= size_t_modulus -> noffset P = ceil3 P.
Proof.
  intros HP Hb. destruct (pbegin_spec P HP) as [Hpb Hc].
  unfold noffset, size_t_add. unwrap.
  rewrite Hc, Z.mul_comm, Z.div_mul by lia. reflexivity.
Qed.

Lemma csize_no_wrap P size :
  pbegin P <= size -> size < size_t_modulus ->
  csize P size = (size - pbegin P) / 3.
Proof.
  intros Hs Hb. pose proof (Z.mod_pos_bound (3 - P mod 3) 3 ltac:(lia)).
  unfold csize, size_t_sub. fold (pbegin P) in *. unwrap. reflexivity.
Qed.

(** Without a wrap the ids a worker pushes are consecutive, from the
    number of points begun before it. *)
Lemma node_ids_seqZ nidoffset P size :
  0 <= nidoffset -> 0 <= P -> pbegin P <= size ->
  nidoffset + P + size + 3 <= size_t_modulus ->
  node_ids nidoffset P size
  = seqZ (nidoffset + ceil3 P) ((size - pbegin P) / 3).
Proof.
  intros Hn HP Hs Hb.
  destruct (pbegin_spec P HP) as [Hpb _].
  pose proof (ceil3_bounds P HP) as Hc.
  unfold node_ids, seqZ.
  rewrite csize_no_wrap, noffset_ceil3 by lia.
  assert (Hq : (size - pbegin P) / 3 <= size).
  { apply Z.div_le_upper_bound; lia. }
  apply list_fmap_ext. intros i x [-> Hi]%lookup_seq.
  unfold size_t_add.
  rewrite (wrap_small (nidoffset + _)) by (unfold is_size_t; lia).
  unwrap.
  cbn. lia.
Qed.

(** One worker whose array fits the split: after completion the array
    holds, past the first [pbegin] values, exactly the points that begin in
    its part. *)
Lemma completed_count fmt P size rest :
  0 <= P -> 0 <= rest -> split_fits fmt P size = true ->
  (P + size + rest) mod 3 = 0 -> P + size + 3 <= size_t_modulus ->
  pbegin P <= completed_size fmt P size rest <= size + 2
  /\ (completed_size fmt P size rest - pbegin P) / 3
     = ceil3 (P + size) - ceil3 P.
Proof.
  intros HP Hrest Hfit Htot Hb. destruct (pbegin_spec P HP) as [Hpb Hc].
  unfold split_fits in Hfit. apply andb_true_iff in Hfit as [Hs%Z.leb_le Hf].
  assert (Hbin : P mod 3 = 0 -> size mod 3 = 0 ->
                 pbegin P <= size <= size + 2
                 /\ (size - pbegin P) / 3 = ceil3 (P + size) - ceil3 P).
  { intros HP3 Hs3. unfold ceil3 in *.
    pose proof (Z.div_mod P 3 ltac:(lia)).
    pose proof (Z.div_mod size 3 ltac:(lia)).
    pose proof (Z.div_mod (P + 2) 3 ltac:(lia)).
    pose proof (Z.mod_pos_bound (P + 2) 3 ltac:(lia)).
    pose proof (Z.div_mod (P + size + 2) 3 ltac:(lia)).
    pose proof (Z.mod_pos_bound (P + size + 2) 3 ltac:(lia)).
    assert (Hpb0 : pbegin P = 0) by lia.
    rewrite Hpb0, Z.sub_0_r. lia. }
  destruct fmt; cbn [completed_size].
  - apply andb_true_iff in Hf as [H1%Z.eqb_eq H2%Z.eqb_eq]. auto.
  - apply Z.leb_le in Hf. unfold pmissing, size_t_sub.
    rewrite (wrap_small (size - pbegin P)) by (unfold is_size_t; lia).
    set (r := size - pbegin P) in *.
    assert (Hr : 0 <= r) by (unfold r; lia).
    pose proof (Z.mod_pos_bound (3 - r mod 3) 3 ltac:(lia)) as Hpm.
    pose proof (Z.div_mod r 3 ltac:(lia)) as Er.
    pose proof (Z.mod_pos_bound r 3 ltac:(lia)) as Br.
    pose proof (Z.div_mod (3 - r mod 3) 3 ltac:(lia)) as Em.
    pose proof (Z.div_mod (P + size + rest) 3 ltac:(lia)) as Et.
    assert (Hmin : Z.min ((3 - r mod 3) mod 3) rest = (3 - r mod 3) mod 3).
    { apply Z.min_l.
      assert (P + size = 3 * ceil3 P + r) by (unfold r; lia).
      lia. }
    rewrite Hmin. split; [lia|].
    replace (P + size) with (3 * ceil3 P + r) by (unfold r; lia).
    rewrite ceil3_add_multiple.
    replace (size + (3 - r mod 3) mod 3 - pbegin P)
      with (r + (3 - r mod 3) mod 3) by (unfold r; lia).
    unfold ceil3 at 2.
    pose proof (Z.div_mod (r + 2) 3 ltac:(lia)).
    pose proof (Z.mod_pos_bound (r + 2) 3 ltac:(lia)).
    pose proof (Z.div_mod (r + (3 - r mod 3) mod 3) 3 ltac:(lia)).
    pose proof (Z.mod_pos_bound (r + (3 - r mod 3) mod 3) 3 ltac:(lia)).
    lia.
  - apply andb_true_iff in Hf as [H1%Z.eqb_eq H2%Z.eqb_eq]. auto.
Qed.

Lemma worker_node_ids fmt nidoffset P size rest :
  0 <= nidoffset -> 0 <= P -> 0 <= rest -> split_fits fmt P size = true ->
  (P + size + rest) mod 3 = 0 ->
  nidoffset + P + size + 5 <= size_t_modulus ->
  node_ids nidoffset P (completed_size fmt P size rest)
  = seqZ (nidoffset + ceil3 P) (ceil3 (P + size) - ceil3 P).
Proof.
  intros Hn HP Hrest Hfit Htot Hb.
  destruct (completed_count fmt P size rest HP Hrest Hfit Htot ltac:(lia))
    as [Hc Eq].
  rewrite node_ids_seqZ by lia. rewrite Eq. reflexivity.
Qed.

Lemma sum_sizes_nonneg fmt P sizes :
  splits_ok fmt P sizes = true -> 0 <= sum_sizes sizes.
Proof.
  revert P. induction sizes as [|x l IH]; intros P; cbn [splits_ok];
    [cbn; lia|].
  unfold split_fits. rewrite !andb_true_iff, Z.leb_le. intros [[Hx _] Hl].
  specialize (IH _ Hl). change (sum_sizes (x :: l)) with (x + sum_sizes l).
  lia.
Qed.

Lemma workers_node_ids_from fmt nidoffset sizes P :
  splits_ok fmt P sizes = true -> 0 <= nidoffset -> 0 <= P ->
  (P + sum_sizes sizes) mod 3 = 0 ->
  nidoffset + P + sum_sizes sizes + 5 <= size_t_modulus ->
  concat (imap (fun k size =>
                  node_ids nidoffset (wrap (P + sum_sizes (take k sizes)))
                    (completed_size fmt
                       (wrap (P + sum_sizes (take k sizes))) size
                       (sum_sizes (drop (S k) sizes))))
               sizes)
  = seqZ (nidoffset + ceil3 P) (ceil3 (P + sum_sizes sizes) - ceil3 P).
Proof.
  revert P. induction sizes as [|x l IH]; intros P Hok Hn HP Htot Hb.
  - cbn. rewrite Z.add_0_r, Z.sub_diag. reflexivity.
  - cbn [splits_ok] in Hok. apply andb_true_iff in Hok as [Hfit Hl].
    assert (Hx : 0 <= x).
    { unfold split_fits in Hfit.
      apply andb_true_iff in Hfit as [H%Z.leb_le _]. exact H. }
    pose proof (sum_sizes_nonneg _ _ _ Hl) as Hsum.
    change (sum_sizes (x :: l)) with (x + sum_sizes l) in *.
    rewrite imap_cons.
    change (take 0 (x :: l)) with (@nil Z).
    change (drop 1 (x :: l)) with l.
    change (sum_sizes []) with 0. cbn [concat].
    rewrite Z.add_0_r, (wrap_small P) by (unfold is_size_t; lia).
    rewrite worker_node_ids
      by (try assumption; try lia; rewrite <- Z.add_assoc; assumption).
    rewrite (imap_ext _
      (fun k size =>
         node_ids nidoffset (wrap (P + x + sum_sizes (take k l)))
           (completed_size fmt (wrap (P + x + sum_sizes (take k l))) size
              (sum_sizes (drop (S k) l))))).
    2:{ intros k size _. unfold compose.
        change (take (S k) (x :: l)) with (x :: take k l).
        change (drop (S (S k)) (x :: l)) with (drop (S k) l).
        change (sum_sizes (x :: take k l)) with (x + sum_sizes (take k l)).
        rewrite !Z.add_assoc. reflexivity. }
    rewrite IH by (try assumption; try lia; rewrite <- Z.add_assoc;
                   assumption).
    pose proof (ceil3_mono P (P + x) ltac:(lia)).
    pose proof (ceil3_mono (P + x) (P + x + sum_sizes l) ltac:(lia)).
    replace (ceil3 (P + (x + sum_sizes l)) - ceil3 P)
      with ((ceil3 (P + x) - ceil3 P)
            + (ceil3 (P + x + sum_sizes l) - ceil3 (P + x)))
      by (rewrite Z.add_assoc; lia).
    rewrite seqZ_app by lia. f_equal. f_equal. lia.
Qed.

Lemma splits_ok_lookup fmt sizes P k size :
  splits_ok fmt P sizes = true -> sizes !! k = Some size ->
  0 <= sum_sizes (take k sizes)
  /\ split_fits fmt (P + sum_sizes (take k sizes)) size = true
  /\ 0 <= size
  /\ 0 <= sum_sizes (drop (S k) sizes)
  /\ sum_sizes (take (S k) sizes) = sum_sizes (take k sizes) + size
  /\ sum_sizes sizes
     = sum_sizes (take (S k) sizes) + sum_sizes (drop (S k) sizes).
Proof.
  revert P k size. induction sizes as [|x l IH]; intros P k size Hok Hk;
    [discriminate|].
  cbn [splits_ok] in Hok. apply andb_true_iff in Hok as [Hfit Hl].
  assert (Hx : 0 <= x).
  { unfold split_fits in Hfit.
    apply andb_true_iff in Hfit as [H%Z.leb_le _]. exact H. }
  pose proof (sum_sizes_nonneg _ _ _ Hl) as Hsum.
  change (sum_sizes (x :: l)) with (x + sum_sizes l).
  destruct k as [|k].
  - cbn in Hk. injection Hk as <-.
    change (take 1 (x :: l)) with (x :: take 0 l).
    change (take 0 (x :: l)) with (@nil Z).
    change (drop 1 (x :: l)) with l.
    change (sum_sizes (x :: take 0 l)) with (x + sum_sizes (take 0 l)).
    rewrite take_0. change (sum_sizes []) with 0.
    rewrite !Z.add_0_r. repeat split; try lia; exact Hfit.
  - cbn in Hk.
    destruct (IH _ _ _ Hl Hk) as (H1 & H2 & H3 & H4 & H5 & H6).
    change (take (S (S k)) (x :: l)) with (x :: take (S k) l).
    change (take (S k) (x :: l)) with (x :: take k l).
    change (drop (S (S k)) (x :: l)) with (drop (S k) l).
    change (sum_sizes (x :: take (S k) l))
      with (x + sum_sizes (take (S k) l)).
    change (sum_sizes (x :: take k l)) with (x + sum_sizes (take k l)).
    rewrite Z.add_assoc. repeat split; try lia; exact H2.
Qed.

(** An array shorter than the values owed to the point begun before it:
    the subtraction of line 390 wraps, the loop of line 392 is entered and
    its first round reads past the array. *)
Lemma node_coordinates_short pts npoints :
  Z.of_nat (length pts) < pbegin npoints ->
  node_coordinates pts npoints = None.
Proof.
  intros Hlt. pose proof (Z.mod_pos_bound (3 - npoints mod 3) 3 ltac:(lia)).
  fold (pbegin npoints) in *.
  unfold node_coordinates, csize, size_t_sub, wrap.
  assert (HM : 6 <= size_t_modulus) by (vm_compute; discriminate).
  replace ((Z.of_nat (length pts) - pbegin npoints) mod size_t_modulus)
    with (Z.of_nat (length pts) - pbegin npoints + size_t_modulus).
  2:{ apply Z.mod_unique with (q := -1); [left|]; lia. }
  assert (H1 : 1 <= (Z.of_nat (length pts) - pbegin npoints
                     + size_t_modulus) / 3).
  { apply Z.div_le_lower_bound; lia. }
  destruct (Z.to_nat _) as [|k] eqn:Ek; [lia|].
  cbn [seq mapM].
  rewrite (lookup_ge_None_2 pts (Z.to_nat (3 * Z.of_nat 0 + _))) by lia.
  reflexivity.
Qed.

Lemma node_coordinates_fits pts npoints :
  pbegin npoints <= Z.of_nat (length pts) < size_t_modulus ->
  exists coords,
    node_coordinates pts npoints = Some coords
    /\ Z.of_nat (length coords)
       = (Z.of_nat (length pts) - pbegin npoints) / 3.
Proof.
  intros [Hle Hb].
  pose proof (Z.mod_pos_bound (3 - npoints mod 3) 3 ltac:(lia)) as Hp.
  fold (pbegin npoints) in *.
  assert (Hdiv : 3 * ((Z.of_nat (length pts) - pbegin npoints) / 3)
                 <= Z.of_nat (length pts) - pbegin npoints)
    by (apply Z.mul_div_le; lia).
  assert (HS : is_Some (node_coordinates pts npoints)).
  { unfold node_coordinates. rewrite csize_no_wrap by lia.
    apply mapM_is_Some, Forall_forall. intros i Hi.
    apply elem_of_seq in Hi. cbn.
    set (j := Z.to_nat (3 * Z.of_nat i + pbegin npoints)).
    assert (Hj : (S (S j) < length pts)%nat) by lia.
    destruct (lookup_lt_is_Some_2 pts j) as [x ->]; [lia|].
    destruct (lookup_lt_is_Some_2 pts (S j)) as [y ->]; [lia|].
    destruct (lookup_lt_is_Some_2 pts (S (S j))) as [z ->]; [lia|].
    eexists. reflexivity. }
  destruct HS as [coords Hc]. exists coords. split; [exact Hc|].
  unfold node_coordinates in Hc. apply length_mapM in Hc.
  rewrite length_seq, csize_no_wrap in Hc by lia.
  rewrite <- Hc, Z2Nat.id; [reflexivity|]. apply Z.div_pos; lia.
Qed.

Lemma narrow_run_4 : narrow_run 4 = Stuck.
Proof.
  unfold narrow_run, parse.
  (* lines 294-360: every step up to the completion has a value *)
  do 6 (lazymatch goal with
        | |- ?m ≫= _ = _ =>
            let v := eval vm_compute in m in
            replace m with v by (vm_compute; reflexivity)
        end;
        rewrite bind_Finished_nil; cbv beta).
  (* lines 386-391 on the one file *)
  cbn [fill_files state_file].
  do 5 (lazymatch goal with
        | |- ?m ≫= _ = _ =>
            let v := eval vm_compute in m in
            replace m with v by (vm_compute; reflexivity)
        end;
        rewrite bind_Finished_nil; cbv beta).
  unfold fill_file. cbn [state_decoded state_npoints points].
  rewrite node_coordinates_short by (vm_compute; reflexivity).
  reflexivity.
Qed.

(** C4.  On [narrow_world] the eleven workers hold 0, 0, 0, 1, 1, 1, 1, 2,
    0, 0 and 0 of the six coordinate values.  The two points begin in the
    parts of workers 3 and 6, which push the ids 0 and 1; every other
    worker is to push none.  Worker 4 is handed [npoints = 1] and owes two
    values to the point begun before it but holds one: [points.size() -
    pbegin] wraps, [csize] comes to 6148914691236517205 (the count line
    379 asks [reserve] for), the loop of line 392 reads past the array in
    its first round, and the worker's run has no result. *)
Theorem narrow_windows_node_ids :
  (fun r => pushed_node_ids (narrow_run r)) <$> seq 0 11
  = [Some []; Some []; Some []; Some [0]; None; Some []; Some [1];
     Some []; Some []; Some []; Some []]
  /\ narrow_run 4 = Stuck
  /\ (fun decoded =>
        (fun w => Z.of_nat (length (points w))) <$> column 0 decoded)
       <$> decode_world narrow_world [ascii_header] narrow_sections
     = Some narrow_sizes
  /\ (fun r => exscan narrow_sizes r) <$> seq 0 11
     = [0; 0; 0; 0; 1; 2; 3; 4; 6; 6; 6]
  /\ pbegin 1 = 2
  /\ csize 1 1 = 6148914691236517205
  /\ node_coordinates [Double x00 x00 x00 x00 x00 x00 xf0 x3f] 1 = None.
Proof.
  split; [|split; [exact narrow_run_4|]].
  - cbn [fmap list_fmap seq]. rewrite narrow_run_4.
    vm_compute. reflexivity.
  - split; [vm_compute; reflexivity|].
    split; [vm_compute; reflexivity|]. split; [reflexivity|].
    split; [vm_compute; reflexivity|].
    apply node_coordinates_short. vm_compute. reflexivity.
Qed.

(** ** Byte order *)

Lemma swap_bytes_reverse (c : list byte) n :
  length c = n ->
  (fun i => nth (n - i - 1)%nat c x00) <$> seq 0 n = reverse c.
Proof.
  intros Hn. apply list_eq. intros i. rewrite list_lookup_fmap.
  destruct (decide (i < n)%nat) as [Hi|Hi].
  - rewrite lookup_seq_lt by exact Hi. cbn.
    rewrite reverse_lookup by lia. rewrite nth_lookup.
    replace (n - i - 1)%nat with (length c - S i)%nat by lia.
    destruct (lookup_lt_is_Some_2 c (length c - S i)) as [x ->]; [lia|].
    reflexivity.
  - rewrite lookup_seq_ge by lia. cbn.
    symmetry. apply lookup_ge_None. rewrite length_reverse. lia.
Qed.

Lemma swap_reverse {T} `{Scalar T} (t : T) :
  swap t = from_bytes (reverse (object_bytes t)).
Proof.
  unfold swap. rewrite swap_bytes_reverse by apply length_object_bytes.
  reflexivity.
Qed.

Lemma swap_involutive {T} `{Scalar T} (t : T) : swap (swap t) = t.
Proof.
  rewrite !swap_reverse.
  rewrite object_from_bytes
    by (rewrite length_reverse; apply length_object_bytes).
  rewrite reverse_involutive. apply from_object_bytes.
Qed.

Lemma swap_encode_be {T} `{Scalar T} (t : T) :
  swap (from_bytes (encode_be t)) = t.
Proof.
  unfold encode_be. rewrite <- swap_reverse. apply swap_involutive.
Qed.

Lemma length_encode_be {T} `{Scalar T} (t : T) :
  length (encode_be t) = sizeof.
Proof. unfold encode_be. rewrite length_reverse. apply length_object_bytes. Qed.

Lemma length_encode_payload {T} `{Scalar T} (vs : list T) :
  length (encode_payload vs) = (length vs * sizeof)%nat.
Proof.
  unfold encode_payload. induction vs as [|v vs IH]; [reflexivity|].
  cbn [fmap list_fmap concat length]. rewrite length_app, length_encode_be.
  cbn in IH. rewrite IH. lia.
Qed.

Lemma drop_encode_payload {T} `{Scalar T} (vs : list T) i :
  drop (i * sizeof) (encode_payload vs) = encode_payload (drop i vs).
Proof.
  revert vs. induction i as [|i IH]; intros vs; [reflexivity|].
  destruct vs as [|v vs]; [cbn; apply drop_nil|].
  unfold encode_payload. cbn [fmap list_fmap concat drop].
  replace (S i * sizeof)%nat with (length (encode_be v) + i * sizeof)%nat
    by (rewrite length_encode_be; lia).
  rewrite drop_app_add. apply IH.
Qed.

Lemma take_encode_payload {T} `{Scalar T} (vs : list T) i :
  take (i * sizeof) (encode_payload vs) = encode_payload (take i vs).
Proof.
  revert vs. induction i as [|i IH]; intros vs; [reflexivity|].
  destruct vs as [|v vs]; [cbn; apply take_nil|].
  unfold encode_payload. cbn [fmap list_fmap concat take].
  replace (S i * sizeof)%nat with (length (encode_be v) + i * sizeof)%nat
    by (rewrite length_encode_be; lia).
  rewrite take_app_add. f_equal. apply IH.
Qed.

Lemma element_encode_payload {T} `{Scalar T} (vs : list T) i v :
  vs !! i = Some v -> element (encode_payload vs) i = from_bytes (encode_be v).
Proof.
  intros Hv. unfold element. rewrite drop_encode_payload.
  rewrite (drop_S _ _ _ Hv).
  unfold encode_payload. cbn [fmap list_fmap concat].
  rewrite take_app_length' by (rewrite length_encode_be; reflexivity).
  reflexivity.
Qed.

(** The loop over the copied bytes gives back the values encoded. *)
Lemma swapped_encode_payload {Input Output} `{Scalar Input}
    (cast : Input -> Output) (vs : list Input) :
  swapped cast (encode_payload vs) (length vs) = cast <$> vs.
Proof.
  unfold swapped. apply list_eq. intros i. rewrite !list_lookup_fmap.
  destruct (vs !! i) as [v|] eqn:Hv.
  - rewrite lookup_seq_lt by (eapply lookup_lt_Some; eassumption). cbn.
    rewrite (element_encode_payload _ _ _ Hv), swap_encode_be. reflexivity.
  - rewrite lookup_seq_ge by (apply lookup_ge_None; exact Hv). reflexivity.
Qed.

(** ** Reading from a worker's buffer *)

Lemma take_drop_lookup {A} (l : list A) from len i :
  take len (drop from l) !! i
  = if decide (i < len)%nat then l !! (from + i)%nat else None.
Proof.
  case_decide.
  - rewrite lookup_take_lt by assumption. apply lookup_drop.
  - apply lookup_take_ge. lia.
Qed.

Lemma buffer_slice (file : list byte) (d0 n b len : nat) :
  (d0 <= b)%nat -> (b + len <= d0 + n)%nat ->
  take len (drop (b - d0) (take n (drop d0 file))) = take len (drop b file).
Proof.
  intros H0 H1. apply list_eq. intros i. rewrite !take_drop_lookup.
  case_decide; [|reflexivity].
  rewrite decide_True by lia. f_equal. lia.
Qed.

Lemma payload_slice {T} `{Scalar T} (file : list byte) (vs : list T)
    (B i j : nat) :
  take (length vs * sizeof) (drop B file) = encode_payload vs ->
  (i <= j <= length vs)%nat ->
  take ((j - i) * sizeof) (drop (B + i * sizeof) file)
  = encode_payload (take (j - i) (drop i vs)).
Proof.
  intros Hfile Hij.
  rewrite <- take_encode_payload, <- drop_encode_payload, <- Hfile.
  apply list_eq. intros x. rewrite !take_drop_lookup.
  case_decide; [|reflexivity].
  rewrite decide_True by nia. f_equal. lia.
Qed.

Lemma memcpy_buffer (file : list byte) (d0 b : Z) (n len : nat) :
  0 <= d0 <= b -> b + Z.of_nat len <= d0 + Z.of_nat n ->
  (Z.to_nat b + len <= length file)%nat ->
  memcpy (buffer_of file d0 n) (b - d0) (Z.of_nat len)
  = Some (take len (drop (Z.to_nat b) file)).
Proof.
  intros H0 H1 Hlen. unfold memcpy, buffer_of.
  case Z.eqb_spec; intros E.
  - replace len with 0%nat by lia. reflexivity.
  - rewrite length_take, length_drop.
    replace ((0 <=? b - d0) && (0 <? Z.of_nat len)
             && (b - d0 + Z.of_nat len
                 <=? Z.of_nat (n `min` (length file - Z.to_nat d0))))
      with true.
    2:{ symmetry. rewrite !andb_true_iff, !Z.leb_le, Z.ltb_lt. lia. }
    rewrite Nat2Z.id. f_equal.
    replace (Z.to_nat (b - d0)) with (Z.to_nat b - Z.to_nat d0)%nat by lia.
    apply buffer_slice; lia.
Qed.

(** [read] on a worker whose decoded range runs from value [i] to value [j]
    of a payload of big-endian values [vs]: it appends those values. *)
Lemma read_slice {Input Output} `{Scalar Input} (cast : Input -> Output)
    pack mpi_rank k out align (file : list byte) (vs : list Input)
    d0 n (i j : nat) :
  distribution pack !! mpi_rank = Some d0 ->
  read_range pack mpi_rank k align
  = Some (begin k + Z.of_nat (i * sizeof), begin k + Z.of_nat (j * sizeof)) ->
  pack_begin pack = buffer_of file d0 n ->
  take (length vs * sizeof) (drop (Z.to_nat (begin k)) file)
  = encode_payload vs ->
  (i <= j <= length vs)%nat ->
  0 <= d0 <= begin k + Z.of_nat (i * sizeof) ->
  begin k + Z.of_nat (j * sizeof) <= d0 + Z.of_nat n ->
  0 <= begin k -> begin k + Z.of_nat (j * sizeof) < size_t_modulus ->
  read cast pack mpi_rank k out align
  = Some (out ++ (cast <$> take (j - i) (drop i vs))).
Proof.
  intros Hd0 Hrange Hbuf Hfile Hij H0 H1 HB Hmod.
  pose proof (sizeof_pos (T := Input)) as Hsz.
  unfold read. rewrite Hd0, Hrange. cbn [mbind option_bind].
  case Z.ltb_spec; intros Hlt.
  2:{ replace (j - i)%nat with 0%nat by nia. cbn. rewrite app_nil_r.
      reflexivity. }
  assert (Hlen : (Z.to_nat (begin k) + length vs * sizeof <= length file)%nat).
  { pose proof (f_equal length Hfile) as E.
    rewrite length_take, length_drop, length_encode_payload in E.
    assert (1 <= length vs * sizeof)%nat by nia. lia. }
  assert (Ediff : size_t_sub (begin k + Z.of_nat (j * sizeof))
                    (begin k + Z.of_nat (i * sizeof))
                  = Z.of_nat ((j - i) * sizeof)).
  { unfold size_t_sub. rewrite wrap_small; [nia|]. unfold is_size_t. nia. }
  rewrite Ediff, Hbuf.
  rewrite memcpy_buffer by nia. cbn [mbind option_bind].
  replace (Z.to_nat (begin k + Z.of_nat (i * sizeof)))
    with (Z.to_nat (begin k) + i * sizeof)%nat by lia.
  rewrite (payload_slice file vs _ i j Hfile Hij).
  rewrite length_encode_payload.
  assert (Esize : Z.of_nat ((j - i) * sizeof) / Z.of_nat sizeof
                  = Z.of_nat (j - i)).
  { rewrite Nat2Z.inj_mul. apply Z.div_mul. lia. }
  rewrite Esize.
  assert (Elen : length (take (j - i) (drop i vs)) = (j - i)%nat).
  { rewrite length_take, length_drop. lia. }
  rewrite Elen.
  replace (Z.of_nat ((j - i) * sizeof)
           <=? Z.of_nat (j - i) * Z.of_nat sizeof) with true
    by (symmetry; apply Z.leb_le; lia).
  rewrite Nat2Z.id. f_equal. f_equal.
  set (ws := take (j - i) (drop i vs)) in *. rewrite <- Elen.
  apply swapped_encode_payload.
Qed.

(** [readMore] appends the [m] values that follow value [j], the value at
    which the rounded end of the worker's part stands. *)
Lemma readMore_slice {Input Output} `{Scalar Input} (cast : Input -> Output)
    pack mpi_rank k out align (file : list byte) (vs : list Input)
    d0 d1 n (j m : nat) :
  distribution pack !! mpi_rank = Some d0 ->
  distribution pack !! S mpi_rank = Some d1 ->
  round (Z.min (end_ k) d1) (begin k) align
  = begin k + Z.of_nat (j * sizeof) ->
  pack_begin pack = buffer_of file d0 n ->
  take (length vs * sizeof) (drop (Z.to_nat (begin k)) file)
  = encode_payload vs ->
  (j + m <= length vs)%nat ->
  0 <= d0 <= begin k + Z.of_nat (j * sizeof) ->
  begin k + Z.of_nat ((j + m) * sizeof) <= d0 + Z.of_nat n ->
  0 <= begin k -> begin k + Z.of_nat ((j + m) * sizeof) < size_t_modulus ->
  readMore cast pack mpi_rank k out align (Z.of_nat m)
  = Some (out ++ (cast <$> take m (drop j vs))).
Proof.
  intros Hd0 Hd1 Hround Hbuf Hfile Hjm H0 H1 HB Hmod.
  pose proof (sizeof_pos (T := Input)) as Hsz.
  unfold readMore. rewrite Hd0, Hd1. cbn [mbind option_bind].
  rewrite Hround, Hbuf.
  destruct m as [|m'].
  { unfold size_t_mul. rewrite Z.mul_0_l. change (wrap 0) with 0.
    unfold memcpy. cbn. rewrite take_0. reflexivity. }
  set (m := S m') in *.
  assert (Hlen : (Z.to_nat (begin k) + length vs * sizeof <= length file)%nat).
  { pose proof (f_equal length Hfile) as E.
    rewrite length_take, length_drop, length_encode_payload in E.
    assert (1 <= length vs * sizeof)%nat by (unfold m in *; nia). lia. }
  assert (Emul : size_t_mul (Z.of_nat m) (Z.of_nat sizeof)
                 = Z.of_nat (m * sizeof)).
  { unfold size_t_mul. rewrite wrap_small; [lia|]. unfold is_size_t. nia. }
  rewrite Emul. rewrite memcpy_buffer by nia. cbn [mbind option_bind].
  replace (Z.to_nat (begin k + Z.of_nat (j * sizeof)))
    with (Z.to_nat (begin k) + j * sizeof)%nat by lia.
  pose proof (payload_slice file vs (Z.to_nat (begin k)) j (j + m) Hfile
                ltac:(lia)) as E.
  replace (j + m - j)%nat with m in E by lia. rewrite E.
  assert (Elen : length (take m (drop j vs)) = m).
  { rewrite length_take, length_drop. lia. }
  rewrite Nat2Z.id. f_equal. f_equal.
  set (ws := take m (drop j vs)) in *. rewrite <- Elen.
  apply swapped_encode_payload.
Qed.

(** ** The conversion from float to double is exact *)

Lemma byte_of_Z_value z : Z.of_N (Byte.to_N (byte_of_Z z)) = z mod 256.
Proof.
  unfold byte_of_Z.
  pose proof (Z.mod_pos_bound z 256 ltac:(lia)) as Hb.
  destruct (Byte.of_N (Z.to_N (z mod 256))) as [b|] eqn:E.
  - apply Byte.to_of_N in E. cbn. rewrite E. lia.
  - apply Byte.of_N_None_iff in E. lia.
Qed.

Lemma le_bytes_S n v :
  le_bytes (S n) v = byte_of_Z v :: le_bytes n (v / 256).
Proof.
  unfold le_bytes. cbn [seq fmap list_fmap]. f_equal.
  - rewrite Z.pow_0_r, Z.div_1_r. reflexivity.
  - rewrite <- fmap_S_seq, <- list_fmap_compose.
    apply list_fmap_ext. intros i x _. cbn. f_equal.
    rewrite Nat2Z.inj_succ, Z.pow_succ_r by lia.
    rewrite Z.div_div by lia. reflexivity.
Qed.

Lemma le_value_le_bytes n v :
  0 <= v < 256 ^ Z.of_nat n -> le_value (le_bytes n v) = v.
Proof.
  revert v. induction n as [|n IH]; intros v Hv.
  - cbn in *. lia.
  - rewrite le_bytes_S. cbn [le_value foldr].
    change (foldr _ 0 (le_bytes n (v / 256)))
      with (le_value (le_bytes n (v / 256))).
    rewrite byte_of_Z_value, IH.
    + pose proof (Z.div_mod v 256 ltac:(lia)). lia.
    + rewrite Nat2Z.inj_succ, Z.pow_succ_r in Hv by lia.
      split; [apply Z.div_pos; lia|].
      apply Z.div_lt_upper_bound; lia.
Qed.

Lemma le_value_bound bs : 0 <= le_value bs < 256 ^ Z.of_nat (length bs).
Proof.
  induction bs as [|b bs IH]; [cbn; lia|].
  cbn [le_value foldr length].
  change (foldr _ 0 bs) with (le_value bs).
  rewrite Nat2Z.inj_succ, Z.pow_succ_r by lia.
  pose proof (Byte.to_N_bounded b). lia.
Qed.

(** The fields of the pattern assembled by [double_of_float]. *)
Lemma double_fields s e m :
  0 <= s <= 1 -> 0 <= e < 2048 -> 0 <= m < 2 ^ 52 ->
  let bits := s * 2 ^ 63 + e * 2 ^ 52 + m in
  0 <= bits < 256 ^ 8 /\ bits / 2 ^ 63 = s
  /\ (bits / 2 ^ 52) mod 2048 = e /\ bits mod 2 ^ 52 = m.
Proof.
  intros Hs He Hm bits.
  assert (E : bits = (s * 2048 + e) * 2 ^ 52 + m) by (unfold bits; lia).
  assert (Hdiv : bits / 2 ^ 52 = s * 2048 + e).
  { rewrite E, Z.div_add_l by lia. rewrite Z.div_small by lia. lia. }
  split; [unfold bits; lia|]. split; [|split].
  - replace (2 ^ 63) with (2 ^ 52 * 2048) by reflexivity.
    rewrite <- Z.div_div by lia. rewrite Hdiv.
    rewrite Z.div_add_l by lia. rewrite Z.div_small by lia. lia.
  - rewrite Hdiv, Z.add_comm, Z.mod_add by lia. apply Z.mod_small. lia.
  - rewrite E, Z.add_comm, Z.mod_add by lia. apply Z.mod_small. lia.
Qed.

Lemma double_value_assembled s e m :
  0 <= s <= 1 -> 0 <= e < 2048 -> 0 <= m < 2 ^ 52 ->
  double_value (from_bytes (le_bytes 8 (s * 2 ^ 63 + e * 2 ^ 52 + m)))
  = if e =? 2047 then None
    else Some ((if s =? 0 then 1 else -1)
               * (if e =? 0 then m else 2 ^ 52 + m),
               if e =? 0 then -1074 else e - 1075).
Proof.
  intros Hs He Hm.
  destruct (double_fields s e m Hs He Hm) as (Hb & E1 & E2 & E3).
  unfold double_value.
  rewrite object_from_bytes by reflexivity.
  rewrite le_value_le_bytes by exact Hb.
  cbn zeta. rewrite E1, E2, E3. reflexivity.
Qed.

Lemma float_fields (f : float) :
  let bits := le_value (object_bytes f) in
  0 <= bits / 2 ^ 31 <= 1 /\ 0 <= (bits / 2 ^ 23) mod 256 < 256
  /\ 0 <= bits mod 2 ^ 23 < 2 ^ 23.
Proof.
  intros bits.
  pose proof (le_value_bound (object_bytes f)) as Hb.
  rewrite length_object_bytes in Hb. fold bits in Hb.
  change (256 ^ Z.of_nat (sizeof (T := float))) with (2 ^ 32) in Hb.
  split; [|split].
  - split; [apply Z.div_pos; lia|].
    apply Z.lt_succ_r, Z.div_lt_upper_bound; lia.
  - apply Z.mod_pos_bound. lia.
  - apply Z.mod_pos_bound. lia.
Qed.

(** The double [double_of_float] yields stands for the real number the
    float stands for; an infinity or a NaN is converted to one. *)
Lemma quiet_mantissa_bound m :
  0 <= m < 2 ^ 23 ->
  0 <= (if m =? 0 then 0 else Z.lor (m * 2 ^ 29) (2 ^ 51)) < 2 ^ 52.
Proof.
  intros Hm. case Z.eqb_spec; intros E; [lia|].
  assert (H0 : 0 <= Z.lor (m * 2 ^ 29) (2 ^ 51))
    by (apply Z.lor_nonneg; lia).
  split; [exact H0|].
  assert (Hpos : 0 < Z.lor (m * 2 ^ 29) (2 ^ 51)).
  { destruct (Z.eq_dec (Z.lor (m * 2 ^ 29) (2 ^ 51)) 0) as [E0|E0]; [|lia].
    apply Z.lor_eq_0_iff in E0 as [_ E0]. discriminate E0. }
  apply Z.log2_lt_pow2; [exact Hpos|].
  rewrite Z.log2_lor by lia.
  apply Z.max_lub_lt; [|reflexivity].
  apply Z.log2_lt_pow2; lia.
Qed.

Lemma double_of_float_exact (f : float) :
  match float_value f with
  | Some x =>
      exists y, double_value (double_of_float f) = Some y /\ same_real x y
  | None => double_value (double_of_float f) = None
  end.
Proof.
  destruct (float_fields f) as (Hs & He & Hm).
  unfold float_value, double_of_float. cbn zeta in *.
  set (bits := le_value (object_bytes f)) in *.
  set (s := bits / 2 ^ 31) in *.
  set (e := (bits / 2 ^ 23) mod 256) in *.
  set (m := bits mod 2 ^ 23) in *.
  case (Z.eqb_spec e 255); intros E255.
  { pose proof (quiet_mantissa_bound m Hm) as Hq.
    rewrite double_value_assembled by lia. reflexivity. }
  case (Z.eqb_spec e 0); intros E0.
  - case (Z.eqb_spec m 0); intros Em.
    + rewrite double_value_assembled by lia. cbn [Z.eqb].
      eexists. split; [reflexivity|].
      unfold same_real. cbn [fst snd]. rewrite Em. lia.
    + assert (Hmpos : 0 < m) by lia.
      pose proof (Z.log2_spec m Hmpos) as Hlog.
      pose proof (Z.log2_nonneg m) as Hk0.
      set (k := Z.log2 m) in *.
      assert (Hk : k <= 22).
      { destruct (Z.le_gt_cases k 22) as [?|Hgt]; [assumption|].
        assert (2 ^ 23 <= 2 ^ k) by (apply Z.pow_le_mono_r; lia). lia. }
      assert (Hpow : 2 ^ k * 2 ^ (52 - k) = 2 ^ 52).
      { rewrite <- Z.pow_add_r by lia. f_equal. lia. }
      assert (Hp1 : 0 < 2 ^ (52 - k)) by (apply Z.pow_pos_nonneg; lia).
      assert (Hsucc : 2 ^ Z.succ k = 2 * 2 ^ k) by (apply Z.pow_succ_r; lia).
      rewrite double_value_assembled by nia.
      replace (874 + k =? 2047) with false by (symmetry; apply Z.eqb_neq; lia).
      replace (874 + k =? 0) with false by (symmetry; apply Z.eqb_neq; lia).
      eexists. split; [reflexivity|].
      unfold same_real. cbn [fst snd].
      rewrite Z.min_r by lia.
      replace (-149 - (874 + k - 1075)) with (52 - k) by lia.
      rewrite Z.sub_diag, Z.pow_0_r, <- Hpow. ring.
  - rewrite double_value_assembled by lia.
    replace (e + 896 =? 2047) with false by (symmetry; apply Z.eqb_neq; lia).
    replace (e + 896 =? 0) with false by (symmetry; apply Z.eqb_neq; lia).
    eexists. split; [reflexivity|].
    unfold same_real. cbn [fst snd].
    rewrite Z.min_r by lia.
    replace (e - 150 - (e + 896 - 1075)) with 29 by lia.
    rewrite Z.sub_diag, Z.pow_0_r.
    replace (2 ^ 52) with (2 ^ 23 * 2 ^ 29) by reflexivity. lia.
Qed.

(** ** Round trip of a binary payload *)

Lemma round_fixed current start chunk :
  0 <= start <= current -> current < size_t_modulus ->
  (current - start) mod chunk = 0 -> round current start chunk = current.
Proof.
  intros Hs Hb Hm. unfold round, size_t_sub.
  unwrap.
  rewrite Hm. reflexivity.
Qed.

(** C8.  A payload that is the big-endian encoding of [3 * N] floats, read
    by a worker whose window holds it whole, decodes to exactly these
    [3 * N] values, each converted to double, in order; the conversion
    keeps the value of every finite float; and [swap], the byte reversal
    applied to every value, undoes itself. *)
Theorem binary_points_round_trip (vs : list float) (N : nat)
    pack mpi_rank k (file : list byte) d0 d1 n :
  length vs = (3 * N)%nat ->
  distribution pack !! mpi_rank = Some d0 ->
  distribution pack !! S mpi_rank = Some d1 ->
  pack_begin pack = buffer_of file d0 n ->
  take (length vs * 4) (drop (Z.to_nat (begin k)) file) = encode_payload vs ->
  end_ k = begin k + 12 * Z.of_nat N ->
  0 <= d0 <= begin k -> end_ k <= d1 -> end_ k <= d0 + Z.of_nat n ->
  end_ k < size_t_modulus ->
  read double_of_float pack mpi_rank k [] 12 = Some (double_of_float <$> vs)
  /\ length (double_of_float <$> vs) = (3 * N)%nat
  /\ (forall f : float,
        match float_value f with
        | Some x =>
            exists y,
              double_value (double_of_float f) = Some y /\ same_real x y
        | None => double_value (double_of_float f) = None
        end)
  /\ (forall T (S : Scalar T) (t : T), swap (swap t) = t).
Proof.
  intros Hlen Hd0 Hd1 Hbuf Hfile Hend H0 H1 Hn Hmod.
  split; [|split; [rewrite length_fmap; exact Hlen |
                   split; [exact double_of_float_exact |
                           intros; apply swap_involutive]]].
  assert (E : take (length vs - 0) (drop 0 vs) = vs).
  { rewrite drop_0. apply take_ge. lia. }
  transitivity
    (Some ([] ++ (double_of_float <$> take (length vs - 0) (drop 0 vs))));
    [|rewrite E; reflexivity].
  apply (read_slice double_of_float pack mpi_rank k [] 12 file vs d0 n 0
           (length vs) Hd0); try assumption;
    change (sizeof (T := float)) with 4%nat; try lia.
  unfold read_range. rewrite Hd0, Hd1. cbn [mbind option_bind].
  rewrite Z.max_l, Z.min_l by lia.
  rewrite !round_fixed; try lia.
  - f_equal. f_equal; lia.
  - rewrite Hend. replace (begin k + 12 * Z.of_nat N - begin k)
      with (Z.of_nat N * 12) by lia. apply Z.mod_mul. lia.
  - rewrite Z.sub_diag. reflexivity.
Qed.

Lemma binary_points_round_trip_witness :
  read double_of_float one_point_pack 0 one_point_keyword [] 12
  = Some (double_of_float <$> one_point)
  /\ length (double_of_float <$> one_point) = (3 * 1)%nat
  /\ (forall f : float,
        match float_value f with
        | Some x =>
            exists y,
              double_value (double_of_float f) = Some y /\ same_real x y
        | None => double_value (double_of_float f) = None
        end)
  /\ (forall T (S : Scalar T) (t : T), swap (swap t) = t).
Proof.
  apply (binary_points_round_trip one_point 1 one_point_pack 0
           one_point_keyword one_point_file 0 120 120);
    try reflexivity; cbn; lia.
Defined.

Example one_point_decoded :
  read double_of_float one_point_pack 0 one_point_keyword [] 12
  = Some [Double x00 x00 x00 x00 x00 x00 xf0 x3f;
          Double x00 x00 x00 x00 x00 x00 x00 x40;
          Double x00 x00 x00 x00 x00 x00 x08 x40].
Proof. vm_compute. reflexivity. Qed.

(** ** The classifier's view of a cell array *)

Lemma walk_more_fuel cells fuel i :
  (length cells <= i + fuel)%nat ->
  walk (S fuel) cells i = walk fuel cells i.
Proof.
  revert i. induction fuel as [|fuel IH]; intros i Hi.
  - cbn. rewrite lookup_ge_None_2 by lia. reflexivity.
  - change (walk (S (S fuel)) cells i)
      with (match cells !! i with
            | None => i
            | Some n => walk (S fuel) cells (i + Z.to_nat n + 1)
            end).
    cbn [walk]. destruct (cells !! i) as [n|]; [|reflexivity].
    apply IH. lia.
Qed.

Lemma walk_fuel_le cells fuel fuel' i :
  (length cells <= i + fuel)%nat -> (fuel <= fuel')%nat ->
  walk fuel' cells i = walk fuel cells i.
Proof.
  intros Hi Hle. induction Hle as [|fuel' Hle IH]; [reflexivity|].
  rewrite walk_more_fuel by lia. exact IH.
Qed.

(** Walking the part of the payload a worker holds leaves it where the
    payload's next block starts. *)
Lemma walk_take_boundary whole k fuel i :
  (k <= length whole)%nat ->
  walk fuel (take k whole) i = boundary_from fuel whole i k.
Proof.
  intros Hk. revert i. induction fuel as [|fuel IH]; intros i.
  - cbn. case_decide; reflexivity.
  - cbn [walk boundary_from]. case_decide as Hi.
    + rewrite lookup_take_ge by lia. reflexivity.
    + rewrite lookup_take_lt by lia.
      destruct (whole !! i) as [n|] eqn:E; [apply IH|reflexivity].
Qed.

Lemma length_encode_cells_cons r rs :
  length (encode_cells (r :: rs))
  = (S (length r) + length (encode_cells rs))%nat.
Proof.
  unfold encode_cells. cbn [fmap list_fmap concat].
  rewrite length_app. reflexivity.
Qed.

Lemma encode_cells_cons r rs :
  encode_cells (r :: rs) = (Z.of_nat (length r) :: r) ++ encode_cells rs.
Proof. reflexivity. Qed.

Lemma lookup_block_start (pre : list Z) r rest :
  (pre ++ (Z.of_nat (length r) :: r) ++ rest) !! length pre
  = Some (Z.of_nat (length r)).
Proof. rewrite lookup_app_r by lia. rewrite Nat.sub_diag. reflexivity. Qed.

(** In a well-formed payload the walk from a block start runs to the end of
    the payload. *)
Lemma walk_encode_cells rs pre fuel :
  (length (encode_cells rs) <= fuel)%nat ->
  walk fuel (pre ++ encode_cells rs) (length pre)
  = length (pre ++ encode_cells rs).
Proof.
  revert pre fuel. induction rs as [|r rs IH]; intros pre fuel Hfuel.
  - cbn [encode_cells fmap list_fmap concat]. rewrite app_nil_r.
    destruct fuel; cbn [walk]; [reflexivity|].
    rewrite lookup_ge_None_2 by lia. reflexivity.
  - rewrite length_encode_cells_cons in Hfuel.
    destruct fuel as [|fuel]; [lia|].
    cbn [walk]. rewrite encode_cells_cons, lookup_block_start.
    rewrite Nat2Z.id.
    replace (length pre + length r + 1)%nat
      with (length (pre ++ Z.of_nat (length r) :: r))
      by (rewrite length_app; cbn; lia).
    rewrite app_assoc. apply IH. lia.
Qed.

(** In a well-formed payload the first block start not before [k] splits
    the payload into whole blocks. *)
Lemma boundary_from_encode_cells rs pre fuel k :
  (length (encode_cells rs) <= fuel)%nat ->
  exists pre' rs',
    pre ++ encode_cells rs = pre' ++ encode_cells rs'
    /\ boundary_from fuel (pre ++ encode_cells rs) (length pre) k
       = length pre'
    /\ ((k <= length (pre ++ encode_cells rs))%nat -> (k <= length pre')%nat).
Proof.
  revert pre fuel. induction rs as [|r rs IH]; intros pre fuel Hfuel.
  - exists pre, []. split; [reflexivity|].
    cbn [encode_cells fmap list_fmap concat]. rewrite app_nil_r.
    split; [|auto].
    destruct fuel; cbn [boundary_from]; case_decide; try reflexivity.
    rewrite lookup_ge_None_2 by lia. reflexivity.
  - rewrite length_encode_cells_cons in Hfuel.
    destruct fuel as [|fuel]; [lia|].
    cbn [boundary_from]. case_decide as Hi.
    + exists pre, (r :: rs). split; [reflexivity|]. split; [reflexivity|].
      intros _. exact Hi.
    + rewrite encode_cells_cons, lookup_block_start, Nat2Z.id.
      replace (length pre + length r + 1)%nat
        with (length (pre ++ Z.of_nat (length r) :: r))
        by (rewrite length_app; cbn; lia).
      rewrite app_assoc.
      apply IH. lia.
Qed.

(** The classifier's results on a payload of whole blocks split after [k]
    integers: what the first worker lacks is what the second one must skip,
    it lies inside the payload, and neither the second worker nor a single
    worker lacks anything. *)
Lemma classifier_split records k :
  let whole := encode_cells records in
  (k <= length whole)%nat ->
  trailing_missing (take k whole) 0 = first_complete whole k
  /\ (k + first_complete whole k <= length whole)%nat
  /\ trailing_missing (drop k whole) (first_complete whole k) = 0%nat
  /\ trailing_missing whole 0 = 0%nat.
Proof.
  intros whole Hk.
  destruct (boundary_from_encode_cells records [] (length whole) k)
    as (pre' & rs' & Ewhole & Eb & Hkb); [reflexivity|].
  cbn [app length] in Ewhole, Eb, Hkb. fold whole in Ewhole, Eb, Hkb.
  specialize (Hkb Hk).
  assert (Hb : (length pre' <= length whole)%nat).
  { rewrite Ewhole, length_app. lia. }
  assert (E0 : trailing_missing (take k whole) 0 = first_complete whole k).
  { unfold trailing_missing, first_complete.
    rewrite length_take_le by exact Hk.
    rewrite <- (walk_take_boundary whole k _ 0 Hk).
    rewrite (walk_fuel_le (take k whole) k (length whole))
      by (rewrite ?length_take; lia).
    reflexivity. }
  split; [exact E0|].
  unfold first_complete. rewrite Eb.
  split; [lia|]. split.
  - assert (Edrop : drop k whole = drop k pre' ++ encode_cells rs').
    { rewrite Ewhole. apply drop_app_le. exact Hkb. }
    assert (Elen : length whole = (length pre' + length (encode_cells rs'))%nat).
    { rewrite Ewhole. apply length_app. }
    unfold trailing_missing. rewrite length_drop, Edrop.
    replace (length pre' - k)%nat with (length (drop k pre'))
      by (rewrite length_drop; reflexivity).
    rewrite walk_encode_cells by lia.
    rewrite length_app, length_drop. lia.
  - unfold trailing_missing.
    pose proof (walk_encode_cells records [] (length whole)) as E.
    cbn [app length] in E. fold whole in E. rewrite E by reflexivity. lia.
Qed.

(** ** A payload split between two workers: ASCII *)

Lemma filter_ext_in {A} (P Q : A -> Prop) `{!forall x, Decision (P x)}
    `{!forall x, Decision (Q x)} (l : list A) :
  Forall (fun x => P x <-> Q x) l -> filter P l = filter Q l.
Proof.
  induction 1 as [|x l Hx _ IH]; [reflexivity|].
  rewrite !filter_cons, IH.
  destruct (decide (P x)), (decide (Q x)); tauto.
Qed.

Lemma filter_none {A} (P : A -> Prop) `{!forall x, Decision (P x)}
    (l : list A) :
  Forall (fun x => ~ P x) l -> filter P l = [].
Proof.
  induction 1 as [|x l Hx _ IH]; [reflexivity|].
  rewrite filter_cons, IH. rewrite decide_False by exact Hx. reflexivity.
Qed.

Lemma filter_all {A} (P : A -> Prop) `{!forall x, Decision (P x)}
    (l : list A) :
  Forall P l -> filter P l = l.
Proof.
  induction 1 as [|x l Hx _ IH]; [reflexivity|].
  rewrite filter_cons, IH. rewrite decide_True by exact Hx. reflexivity.
Qed.

(** Tokens in file order: those that start before [s] are the first [k]. *)
Lemma sorted_tokens_split {V} (tokens : list (Z * V)) s :
  StronglySorted (fun a b : Z * V => a.1 < b.1) tokens ->
  exists k, (k <= length tokens)%nat
    /\ filter (fun t : Z * V => t.1 < s) tokens = take k tokens
    /\ filter (fun t : Z * V => s <= t.1) tokens = drop k tokens.
Proof.
  induction 1 as [|t r Hs IH Hall].
  - exists 0%nat. repeat split; reflexivity || (cbn; lia).
  - destruct (decide (t.1 < s)) as [Ht|Ht].
    + destruct IH as (k & Hk & E1 & E2). exists (S k).
      rewrite !filter_cons, decide_True, decide_False by lia.
      cbn [take drop length]. rewrite E1, E2.
      split; [lia|]. split; reflexivity.
    + exists 0%nat. cbn [take drop length]. split; [lia|].
      assert (Hge : Forall (fun x : Z * V => s <= x.1) (t :: r)).
      { constructor; [lia|]. eapply Forall_impl; [exact Hall|].
        cbn. intros; lia. }
      split.
      * apply filter_none. eapply Forall_impl; [exact Hge|]. cbn. lia.
      * apply filter_all. exact Hge.
Qed.

(** What the workers of a split ASCII record parse and add. *)
Lemma ascii_split {V} (tokens : list (Z * V)) k d0 s d2 :
  tokens_in tokens k ->
  d0 <= begin k -> begin k <= s -> s <= end_ k -> end_ k <= d2 ->
  exists n, (n <= length tokens)%nat
    /\ ascii_parse tokens d0 s (begin k) (end_ k) = take n (snd <$> tokens)
    /\ ascii_parse tokens s d2 (begin k) (end_ k) = drop n (snd <$> tokens)
    /\ ascii_parse tokens d0 d2 (begin k) (end_ k) = snd <$> tokens
    /\ (forall data m,
          ascii_addmore data tokens s m (end_ k)
          = data ++ take (Z.to_nat m) (drop n (snd <$> tokens)))
    /\ (forall data m, ascii_addmore data tokens d2 m (end_ k) = data).
Proof.
  intros [Hsorted Hin] H0 H1 H2 H3.
  destruct (sorted_tokens_split tokens s Hsorted) as (n & Hn & E1 & E2).
  exists n. split; [exact Hn|]. unfold ascii_parse, ascii_addmore.
  rewrite <- fmap_take, <- fmap_drop, <- E1, <- E2.
  repeat split.
  - f_equal. apply filter_ext_in. eapply Forall_impl; [exact Hin|].
    cbn. intros; lia.
  - f_equal. apply filter_ext_in. eapply Forall_impl; [exact Hin|].
    cbn. intros; lia.
  - rewrite filter_all; [reflexivity|].
    eapply Forall_impl; [exact Hin|]. cbn. intros; lia.
  - intros data m. do 3 f_equal. apply filter_ext_in.
    eapply Forall_impl; [exact Hin|]. cbn. intros; lia.
  - intros data m. rewrite filter_none; [cbn; rewrite take_nil; apply app_nil_r|].
    eapply Forall_impl; [exact Hin|]. cbn. intros; lia.
Qed.

Lemma split_ok_spec k d0 s d2 n0 n1 nS :
  split_ok k d0 s d2 n0 n1 nS = true ->
  0 <= d0 /\ d0 <= begin k /\ begin k <= s /\ s <= end_ k /\ end_ k <= d2
  /\ end_ k <= d0 + Z.of_nat n0 /\ end_ k <= s + Z.of_nat n1
  /\ end_ k <= d0 + Z.of_nat nS /\ d2 + 24 <= size_t_modulus.
Proof.
  unfold split_ok. rewrite !andb_true_iff, !Z.leb_le. tauto.
Qed.

Lemma pmissing_first n :
  0 <= n < size_t_modulus -> pmissing 0 n = pbegin n.
Proof.
  intros Hn. unfold pmissing, size_t_sub.
  change (pbegin 0) with 0. rewrite Z.sub_0_r, wrap_small by exact Hn.
  reflexivity.
Qed.

(** Tokens that start at different bytes of a range are no more than the
    bytes of the range. *)
Lemma sorted_tokens_length {V} (tokens : list (Z * V)) lo hi :
  StronglySorted (fun a b : Z * V => a.1 < b.1) tokens ->
  Forall (fun t : Z * V => lo <= t.1 < hi) tokens ->
  Z.of_nat (length tokens) <= Z.max 0 (hi - lo).
Proof.
  intros Hs. revert lo. induction Hs as [|t r Hs IH Hall]; intros lo Hin.
  - cbn. lia.
  - apply Forall_cons in Hin as [Ht Hin].
    assert (Hr : Forall (fun x : Z * V => t.1 + 1 <= x.1 < hi) r).
    { rewrite Forall_forall in *. intros x Hx.
      specialize (Hall x Hx). specialize (Hin x Hx). cbn in *. lia. }
    specialize (IH _ Hr). cbn [length]. lia.
Qed.

Lemma exscan_two a b :
  exscan [a; b] 0 = 0 /\ exscan [a; b] 1 = wrap a.
Proof.
  unfold exscan. cbn [take foldr]. rewrite Z.add_0_r. split; reflexivity.
Qed.

Lemma ascii_points_reconstruct h p file tokens vals d0 s d2 n0 n1 nS :
  format h = ASCII ->
  tokens_in (points_tokens tokens) (keyword p) ->
  snd <$> points_tokens tokens = vals ->
  split_ok (keyword p) d0 s d2 n0 n1 nS = true ->
  two_workers_points h (view_of file tokens [d0; s; d2] d0 n0)
    (view_of file tokens [d0; s; d2] s n1) p = Some vals
  /\ one_worker_points h (view_of file tokens [d0; d2] d0 nS) p = Some vals.
Proof.
  intros Hfmt Htok Hvals Hsplit.
  apply split_ok_spec in Hsplit as (H0 & H1 & H2 & H3 & H4 & _ & _ & _ & Hm).
  destruct (ascii_split (points_tokens tokens) (keyword p) d0 s d2 Htok
              H1 H2 H3 H4) as (n & Hn & E0 & E1 & ES & Emore & Enone).
  pose proof (sorted_tokens_length _ _ _ (proj1 Htok) (proj2 Htok)) as Hlen.
  assert (Hmod : size_t_modulus = 2 ^ 64) by reflexivity.
  rewrite <- (length_fmap snd) in Hn, Hlen. rewrite Hvals in *.
  unfold two_workers_points, one_worker_points, decode_points,
    complete_points, view_of. rewrite Hfmt.
  cbn [pack text distribution lookup list_lookup mbind option_bind].
  rewrite E0, E1, ES, !Emore, !Enone.
  destruct (exscan_two (Z.of_nat (length (take n vals)))
              (Z.of_nat (length (drop n vals)))) as [-> ->].
  rewrite length_take_le by exact Hn.
  unwrap.
  rewrite pmissing_first by lia.
  split; [|reflexivity].
  rewrite <- app_assoc, (take_drop _ (drop n vals)), take_drop. reflexivity.
Qed.

Lemma ascii_cells_reconstruct h c file tokens records d0 s d2 n0 n1 nS :
  format h = ASCII ->
  tokens_in (cells_tokens tokens) (keyword c) ->
  snd <$> cells_tokens tokens = encode_cells records ->
  split_ok (keyword c) d0 s d2 n0 n1 nS = true ->
  two_workers_cells h (view_of file tokens [d0; s; d2] d0 n0)
    (view_of file tokens [d0; s; d2] s n1) c = Some (encode_cells records)
  /\ one_worker_cells h (view_of file tokens [d0; d2] d0 nS) c
     = Some (encode_cells records).
Proof.
  intros Hfmt Htok Hvals Hsplit.
  apply split_ok_spec in Hsplit as (H0 & H1 & H2 & H3 & H4 & _ & _ & _ & Hm).
  destruct (ascii_split (cells_tokens tokens) (keyword c) d0 s d2 Htok
              H1 H2 H3 H4) as (n & Hn & E0 & E1 & ES & Emore & Enone).
  rewrite <- (length_fmap snd) in Hn. rewrite Hvals in *.
  destruct (classifier_split records n Hn) as (Em & Hle & Em1 & EmS).
  unfold two_workers_cells, one_worker_cells, decode_cells,
    complete_cells, view_of. rewrite Hfmt.
  cbn [pack text distribution lookup list_lookup mbind option_bind].
  rewrite E0, E1, ES, !Emore, !Enone.
  rewrite take_drop, length_take_le by exact Hn.
  split; [|reflexivity].
  rewrite Nat2Z.id, Em.
  rewrite <- app_assoc, (take_drop _ (drop n (encode_cells records))).
  rewrite take_drop. reflexivity.
Qed.

(** ** A payload split between two workers: binary *)

Lemma readMore_zero {Input Output} `{Scalar Input} (cast : Input -> Output)
    pack mpi_rank k out align d0 d1 :
  distribution pack !! mpi_rank = Some d0 ->
  distribution pack !! S mpi_rank = Some d1 ->
  readMore cast pack mpi_rank k out align 0 = Some out.
Proof.
  intros Hd0 Hd1. unfold readMore. rewrite Hd0, Hd1.
  cbn [mbind option_bind]. unfold size_t_mul. rewrite Z.mul_0_l.
  change (wrap 0) with 0. unfold memcpy. cbn. apply f_equal, app_nil_r.
Qed.

(** What the workers of a split binary record read: [c] whole units of
    [unit] values go to the first worker, the rest to the second. *)
Lemma binary_split {Input Output} `{Scalar Input} (cast : Input -> Output)
    (unit N : nat) (align : Z) file (vs : list Input) k d0 s d2 n0 n1 nS :
  (0 < unit)%nat -> align = Z.of_nat unit * Z.of_nat sizeof -> align <= 24 ->
  binary_in file k vs -> length vs = (unit * N)%nat ->
  split_ok k d0 s d2 n0 n1 nS = true ->
  let pack0 := mkPack 0 [d0; s; d2] (buffer_of file d0 n0) in
  let pack1 := mkPack 0 [d0; s; d2] (buffer_of file s n1) in
  let packS := mkPack 0 [d0; d2] (buffer_of file d0 nS) in
  exists c, (c <= N)%nat
    /\ read cast pack0 0 k [] align = Some (cast <$> take (unit * c) vs)
    /\ read cast pack1 1 k [] align = Some (cast <$> drop (unit * c) vs)
    /\ read cast packS 0 k [] align = Some (cast <$> vs)
    /\ (forall out m, (unit * c + m <= length vs)%nat ->
          readMore cast pack0 0 k out align (Z.of_nat m)
          = Some (out ++ (cast <$> take m (drop (unit * c) vs))))
    /\ (forall out, readMore cast pack1 1 k out align 0 = Some out)
    /\ (forall out, readMore cast packS 0 k out align 0 = Some out).
Proof.
  intros Hunit Halign Hal24 [Hfile Hend] Hlen Hsplit pack0 pack1 packS.
  apply split_ok_spec in Hsplit
    as (H0 & H1 & H2 & H3 & H4 & Hn0 & Hn1 & HnS & Hm).
  pose proof (sizeof_pos (T := Input)) as Hsz.
  set (B := begin k) in *. set (E := end_ k) in *.
  assert (Hapos : 0 < align) by nia.
  assert (HE : E = B + align * Z.of_nat N).
  { rewrite Hend, Hlen, Halign. nia. }
  destruct (round_aligned s B align Hapos ltac:(lia) ltac:(lia))
    as [Hru Hrumod].
  set (ru := round s B align) in *.
  apply Z.mod_divide in Hrumod as [q Hq]; [|lia].
  assert (Hq0 : 0 <= q) by nia.
  assert (HqN : q <= Z.of_nat N) by nia.
  set (c := Z.to_nat q).
  assert (Eru : ru = B + Z.of_nat (unit * c * sizeof)).
  { unfold c. rewrite !Nat2Z.inj_mul, Z2Nat.id by lia. nia. }
  assert (EB : round B B align = B).
  { apply round_fixed; [lia|lia|]. rewrite Z.sub_diag. reflexivity. }
  assert (EE : round E B align = E).
  { apply round_fixed; [lia|lia|].
    rewrite HE. replace (B + align * Z.of_nat N - B)
      with (Z.of_nat N * align) by lia. apply Z.mod_mul. lia. }
  assert (HEl : E = B + Z.of_nat (length vs * sizeof)) by exact Hend.
  assert (Hc : (c <= N)%nat) by (unfold c; lia).
  assert (Hmodulus : size_t_modulus = 2 ^ 64) by reflexivity.
  assert (HruE : ru <= E).
  { assert (q * align <= Z.of_nat N * align)
      by (apply Z.mul_le_mono_nonneg_r; lia).
    lia. }
  exists c. split; [exact Hc|].
  split; [|split; [|split; [|split; [|split]]]].
  - transitivity (Some ([] ++ (cast <$> take (unit * c - 0) (drop 0 vs))));
      [|rewrite Nat.sub_0_r; reflexivity].
    apply (read_slice cast pack0 0 k [] align file vs d0 n0 0 (unit * c));
      fold B.
    + reflexivity.
    + unfold read_range. cbn [pack0 distribution lookup list_lookup mbind
                                option_bind].
      fold B E. rewrite Z.max_l, Z.min_r by lia. fold ru.
      rewrite EB, Eru. f_equal. f_equal. cbn. lia.
    + reflexivity.
    + exact Hfile.
    + rewrite Hlen. split; [lia | apply Nat.mul_le_mono_l; exact Hc].
    + change (Z.of_nat (0 * sizeof)) with 0. lia.
    + rewrite <- Eru. lia.
    + lia.
    + rewrite <- Eru. lia.
  - transitivity (Some ([] ++ (cast <$> take (length vs - unit * c)
                                          (drop (unit * c) vs))));
      [|rewrite take_ge by (rewrite length_drop; lia); reflexivity].
    apply (read_slice cast pack1 1 k [] align file vs s n1 (unit * c)
             (length vs)); fold B.
    + reflexivity.
    + unfold read_range. cbn [pack1 distribution lookup list_lookup mbind
                                option_bind].
      fold B E. rewrite Z.max_r, Z.min_l by lia. fold ru.
      rewrite EE, Eru, HEl. reflexivity.
    + reflexivity.
    + exact Hfile.
    + rewrite Hlen. split; [apply Nat.mul_le_mono_l; exact Hc | lia].
    + rewrite <- Eru. lia.
    + rewrite <- HEl. lia.
    + lia.
    + rewrite <- HEl. lia.
  - transitivity (Some ([] ++ (cast <$> take (length vs - 0) (drop 0 vs))));
      [|rewrite Nat.sub_0_r, drop_0, take_ge by lia; reflexivity].
    apply (read_slice cast packS 0 k [] align file vs d0 nS 0 (length vs));
      fold B.
    + reflexivity.
    + unfold read_range. cbn [packS distribution lookup list_lookup mbind
                                option_bind].
      fold B E. rewrite Z.max_l, Z.min_l by lia.
      rewrite EB, EE, HEl. f_equal. f_equal. cbn. lia.
    + reflexivity.
    + exact Hfile.
    + lia.
    + change (Z.of_nat (0 * sizeof)) with 0. lia.
    + rewrite <- HEl. lia.
    + lia.
    + rewrite <- HEl. lia.
  - intros out m Hmlen.
    assert (Hjm : ((unit * c + m) * sizeof <= length vs * sizeof)%nat)
      by (apply Nat.mul_le_mono_r; exact Hmlen).
    apply (readMore_slice cast pack0 0 k out align file vs d0 s n0
             (unit * c) m); fold B.
    + reflexivity.
    + reflexivity.
    + fold E. rewrite Z.min_r by lia. exact Eru.
    + reflexivity.
    + exact Hfile.
    + exact Hmlen.
    + rewrite <- Eru. lia.
    + lia.
    + lia.
    + lia.
  - intros out. apply (readMore_zero cast pack1 1 k out align s d2);
      reflexivity.
  - intros out. apply (readMore_zero cast packS 0 k out align d0 d2);
      reflexivity.
Qed.

Lemma pbegin_multiple c : pbegin (Z.of_nat (3 * c)) = 0.
Proof.
  unfold pbegin. rewrite Nat2Z.inj_mul, Z.mul_comm, Z.mod_mul by lia.
  reflexivity.
Qed.

Lemma binary_points_reconstruct h p file tokens vals d0 s d2 n0 n1 nS N :
  format h = BINARY ->
  points_payload h p file tokens vals -> length vals = (3 * N)%nat ->
  split_ok (keyword p) d0 s d2 n0 n1 nS = true ->
  two_workers_points h (view_of file tokens [d0; s; d2] d0 n0)
    (view_of file tokens [d0; s; d2] s n1) p = Some vals
  /\ one_worker_points h (view_of file tokens [d0; d2] d0 nS) p = Some vals.
Proof.
  intros Hfmt Hpay Hlen Hsplit.
  pose proof (split_ok_spec _ _ _ _ _ _ _ Hsplit)
    as (H0 & H1 & H2 & H3 & H4 & _ & _ & _ & Hm).
  assert (Hmod : size_t_modulus = 2 ^ 64) by reflexivity.
  unfold points_payload in Hpay. rewrite Hfmt in Hpay.
  unfold two_workers_points, one_worker_points, decode_points,
    complete_points, view_of. rewrite Hfmt. cbn [pack].
  destruct (datatype p); [destruct Hpay| |];
    destruct Hpay as (vs & Hbin & <-); rewrite length_fmap in Hlen.
  - destruct (binary_split double_of_float 3 N 12 file vs (keyword p)
                d0 s d2 n0 n1 nS) as (c & Hc & E0 & E1 & ES & _);
      try assumption; try reflexivity; try lia.
    change (3 * Z.of_nat (sizeof (T := float))) with 12.
    pose proof (proj2 Hbin) as Hend.
    change (sizeof (T := float)) with 4%nat in Hend.
    rewrite E0, E1, ES. cbn [mbind option_bind].
    destruct (exscan_two
                (Z.of_nat (length (double_of_float <$> take (3 * c) vs)))
                (Z.of_nat (length (double_of_float <$> drop (3 * c) vs))))
      as [_ ->].
    rewrite length_fmap, length_take_le by lia.
    unwrap.
    rewrite pbegin_multiple. change (Z.to_nat 0) with 0%nat.
    rewrite drop_0, <- fmap_app, take_drop. split; reflexivity.
  - destruct (binary_split double_of_double 3 N 24 file vs (keyword p)
                d0 s d2 n0 n1 nS) as (c & Hc & E0 & E1 & ES & _);
      try assumption; try reflexivity; try lia.
    change (3 * Z.of_nat (sizeof (T := double))) with 24.
    pose proof (proj2 Hbin) as Hend.
    change (sizeof (T := double)) with 8%nat in Hend.
    rewrite E0, E1, ES. cbn [mbind option_bind].
    destruct (exscan_two
                (Z.of_nat (length (double_of_double <$> take (3 * c) vs)))
                (Z.of_nat (length (double_of_double <$> drop (3 * c) vs))))
      as [_ ->].
    rewrite length_fmap, length_take_le by lia.
    unwrap.
    rewrite pbegin_multiple. change (Z.to_nat 0) with 0%nat.
    rewrite drop_0, <- fmap_app, take_drop. split; reflexivity.
Qed.

Lemma binary_cells_reconstruct h c file tokens records d0 s d2 n0 n1 nS :
  format h = BINARY ->
  cells_payload h c file tokens (encode_cells records) ->
  split_ok (keyword c) d0 s d2 n0 n1 nS = true ->
  two_workers_cells h (view_of file tokens [d0; s; d2] d0 n0)
    (view_of file tokens [d0; s; d2] s n1) c = Some (encode_cells records)
  /\ one_worker_cells h (view_of file tokens [d0; d2] d0 nS) c
     = Some (encode_cells records).
Proof.
  intros Hfmt Hpay Hsplit.
  unfold cells_payload in Hpay. rewrite Hfmt in Hpay.
  destruct Hpay as (vs & Hbin & Hvals).
  destruct (binary_split esint_of_int 1 (length vs) 4 file vs (keyword c)
              d0 s d2 n0 n1 nS)
    as (n & Hn & E0 & E1 & ES & Emore & Enone1 & EnoneS);
    try assumption; try reflexivity; try lia.
  rewrite Nat.mul_1_l in *.
  rewrite fmap_take, fmap_drop, Hvals in *.
  assert (Hlen : length (encode_cells records) = length vs)
    by (rewrite <- Hvals; apply length_fmap).
  destruct (classifier_split records n ltac:(lia)) as (Em & Hle & Em1 & EmS).
  unfold two_workers_cells, one_worker_cells, decode_cells,
    complete_cells, view_of. rewrite Hfmt. cbn [pack].
  change (Z.of_nat (sizeof (T := int))) with 4.
  rewrite E0, E1, ES. cbn [mbind option_bind].
  rewrite take_drop, length_take_le by lia.
  rewrite Em1, EmS, Enone1, EnoneS, Em.
  rewrite Emore by lia. rewrite fmap_take, fmap_drop, Hvals.
  cbn [mbind option_bind]. split; [|reflexivity].
  rewrite <- app_assoc, (take_drop _ (drop n (encode_cells records))).
  rewrite take_drop. reflexivity.
Qed.

(** C2.  A points payload of [N] points and a cells payload of whole
    records, each split anywhere between the windows of two workers: after
    decoding and the completion reads (for points the [pmissing] values
    computed from the exclusive prefix sum of the array lengths; for cells
    the number of integers the classifier finds missing), the two workers'
    arrays, the second read from [pbegin], respectively from its first
    complete record, on, are the array a single worker decodes. *)
Theorem two_workers_reconstruct
    hp p filep tokensp valsp N d0p sp d2p n0p n1p nSp
    hc c filec tokensc records d0c sc d2c n0c n1c nSc :
  points_payload hp p filep tokensp valsp ->
  length valsp = (3 * N)%nat ->
  split_ok (keyword p) d0p sp d2p n0p n1p nSp = true ->
  cells_payload hc c filec tokensc (encode_cells records) ->
  split_ok (keyword c) d0c sc d2c n0c n1c nSc = true ->
  (two_workers_points hp (view_of filep tokensp [d0p; sp; d2p] d0p n0p)
     (view_of filep tokensp [d0p; sp; d2p] sp n1p) p = Some valsp
   /\ one_worker_points hp (view_of filep tokensp [d0p; d2p] d0p nSp) p
      = Some valsp)
  /\ (two_workers_cells hc (view_of filec tokensc [d0c; sc; d2c] d0c n0c)
        (view_of filec tokensc [d0c; sc; d2c] sc n1c) c
      = Some (encode_cells records)
      /\ one_worker_cells hc (view_of filec tokensc [d0c; d2c] d0c nSc) c
         = Some (encode_cells records)).
Proof.
  intros Hp Hlen Hsp Hc Hsc. split.
  - destruct (format hp) eqn:Hfmt.
    + unfold points_payload in Hp. rewrite Hfmt in Hp. destruct Hp.
    + unfold points_payload in Hp. rewrite Hfmt in Hp.
      destruct Hp as [Htok Hvals].
      eapply ascii_points_reconstruct; eassumption.
    + eapply binary_points_reconstruct; eassumption.
  - destruct (format hc) eqn:Hfmt.
    + unfold cells_payload in Hc. rewrite Hfmt in Hc. destruct Hc.
    + unfold cells_payload in Hc. rewrite Hfmt in Hc.
      destruct Hc as [Htok Hvals].
      eapply ascii_cells_reconstruct; eassumption.
    + eapply binary_cells_reconstruct; eassumption.
Qed.

Lemma two_workers_reconstruct_witness :
  (two_workers_points ascii_header
     (view_of [] two_points_tokens [0; 83; 200] 0 200)
     (view_of [] two_points_tokens [0; 83; 200] 83 200) two_points
   = Some two_points_values
   /\ one_worker_points ascii_header
        (view_of [] two_points_tokens [0; 200] 0 200) two_points
      = Some two_points_values)
  /\ (two_workers_cells binary_header
        (view_of two_triangles_file (mkAsciiTokens [] [] []) [0; 141; 172]
           0 172)
        (view_of two_triangles_file (mkAsciiTokens [] [] []) [0; 141; 172]
           141 31) two_triangles_cells
      = Some (encode_cells two_triangles)
      /\ one_worker_cells binary_header
           (view_of two_triangles_file (mkAsciiTokens [] [] []) [0; 172]
              0 172) two_triangles_cells
         = Some (encode_cells two_triangles)).
Proof.
  apply (two_workers_reconstruct ascii_header two_points [] two_points_tokens
           two_points_values 2 0 83 200 200 200 200
           binary_header two_triangles_cells two_triangles_file
           (mkAsciiTokens [] [] []) two_triangles 0 141 172 172 31 172).
  - split; [split|reflexivity].
    + repeat constructor; cbn; lia.
    + repeat constructor; cbn; lia.
  - reflexivity.
  - reflexivity.
  - exists two_triangles_ints. split; [split|]; vm_compute; reflexivity.
  - reflexivity.
Defined.

Example two_triangles_split :
  decode_cells binary_header
    (view_of two_triangles_file (mkAsciiTokens [] [] []) [0; 141; 172] 0 172)
    0 two_triangles_cells = Some [3; 0; 1]
  /\ decode_cells binary_header
       (view_of two_triangles_file (mkAsciiTokens [] [] []) [0; 141; 172]
          141 31)
       1 two_triangles_cells = Some [2; 3; 1; 2; 3]
  /\ trailing_missing [3; 0; 1] 0 = 1%nat
  /\ first_complete ([3; 0; 1] ++ [2; 3; 1; 2; 3]) 3 = 1%nat.
Proof. vm_compute. repeat split; reflexivity. Qed.

(* ================================================================== *)
(** * Further properties of the code *)

(** ** Element codes *)

Lemma _etype_cases dimension esize file :
  (exists code, _etype dimension esize file = Finished [] code)
  \/ _etype dimension esize file
     = Fatal (UnrecognizedElementType dimension esize file).
Proof.
  unfold _etype.
  repeat match goal with
         | |- context [match ?x with _ => _ end] => destruct x
         end; (left; eexists; reflexivity) || (right; reflexivity).
Qed.

Lemma accepts_admissible mindim id :
  accepts mindim id = admissible mindim id.
Proof.
  unfold accepts. rewrite esize_check_admissible.
  destruct (admissible mindim id) eqn:E; [|reflexivity].
  apply admissible_nonzero, Z.eqb_neq in E. rewrite E. reflexivity.
Qed.

Lemma _etype_Finished_iff dimension esize file :
  (exists code, _etype dimension esize file = Finished [] code)
  <-> dimension <> 0 /\ accepts dimension esize = true.
Proof.
  split.
  - unfold _etype.
    repeat match goal with
           | |- context [match ?x with _ => _ end] => destruct x
           end; intros [code H]; try discriminate H;
      (split; [discriminate | reflexivity]).
  - intros [Hd Ha]. rewrite accepts_admissible in Ha.
    unfold admissible in Ha. apply bool_decide_eq_true_1 in Ha.
    destruct dimension as [|p|p];
      [ | destruct p as [[?|?|]|[?|?|]|] | ];
      cbn [admissible_sizes] in Ha;
      rewrite ?elem_of_cons, elem_of_nil in Ha; try tauto;
      repeat (destruct Ha as [->|Ha]; [eexists; reflexivity|]);
      destruct Ha.
Qed.

(** A node count [_etype] has a code for is one of 2..20, and the dimension
    one of 1..3. *)
Lemma _etype_Finished_size dimension esize file log code :
  _etype dimension esize file = Finished log code ->
  log = [] /\ 1 <= dimension <= 3 /\ 2 <= esize <= 20.
Proof.
  unfold _etype.
  repeat match goal with
         | |- context [match ?x with _ => _ end] => destruct x
         end; intros H; try discriminate H;
    injection H as <- _; (split; [reflexivity | lia]).
Qed.

(** X1.  [_etype] against the predicate handed to the classifier: for a
    dimension other than zero it has an element code exactly for the record
    sizes the predicate accepts; for dimension zero it has none, although
    the predicate accepts size one there; and what it reports otherwise
    names the dimension, the size and the file it was asked about. *)
Theorem _etype_defined_iff_accepted dimension esize file :
  ((exists code, _etype dimension esize file = Finished [] code)
   <-> dimension <> 0 /\ accepts dimension esize = true)
  /\ (_etype dimension esize file
      = Fatal (UnrecognizedElementType dimension esize file)
      <-> dimension = 0 \/ accepts dimension esize = false)
  /\ accepts 0 1 = true.
Proof.
  pose proof (_etype_Finished_iff dimension esize file) as Hyes.
  split; [exact Hyes|]. split; [|reflexivity].
  destruct (_etype_cases dimension esize file) as [Hc|Hf].
  - split.
    + intros E. destruct Hc as [code Hc]. rewrite Hc in E. discriminate E.
    + intros Hno. apply Hyes in Hc as [Hd Ha].
      destruct Hno as [?|Hno]; [contradiction | congruence].
  - split; [|intros _; exact Hf].
    intros _. destruct (decide (dimension = 0)) as [?|Hd]; [left; assumption|].
    right. apply not_true_is_false. intros Ha.
    destruct (proj2 Hyes (conj Hd Ha)) as [code Hc].
    rewrite Hc in Hf. discriminate Hf.
Qed.

(** ** [round] and the windows of [read] *)

(** The difference [round] takes in [size_t] has the remainder of the true
    difference when [current] is not below [start], and also below [start]
    when the chunk divides the modulus of [size_t]. *)
Lemma size_t_sub_mod current start chunk :
  0 < chunk -> 0 <= current < size_t_modulus -> 0 <= start < size_t_modulus ->
  start <= current \/ size_t_modulus mod chunk = 0 ->
  size_t_sub current start mod chunk = (current - start) mod chunk.
Proof.
  intros Hc Hcur Hs [Hle|Hdiv]; unfold size_t_sub.
  - unwrap. reflexivity.
  - unfold wrap. apply Z.mod_mod_divide.
    apply Z.mod_divide; [lia | exact Hdiv].
Qed.

Lemma round_spec current start chunk :
  0 < chunk -> 0 <= current -> 0 <= start < size_t_modulus ->
  current + chunk <= size_t_modulus ->
  start <= current \/ size_t_modulus mod chunk = 0 ->
  current <= round current start chunk < current + chunk
  /\ (round current start chunk - start) mod chunk = 0.
Proof.
  intros Hc Hcur Hs Hb Hor. unfold round.
  rewrite size_t_sub_mod by (assumption || lia).
  pose proof (Z.mod_pos_bound (current - start) chunk Hc) as Hr.
  case Z.eqb_spec; intros E.
  - split; [lia | exact E].
  - unfold size_t_add. unwrap. split; [lia|].
    replace (current + (chunk - (current - start) mod chunk) - start)
      with ((current - start) - (current - start) mod chunk + 1 * chunk)
      by ring.
    rewrite Z.mod_add by lia.
    rewrite Zminus_mod, Z.mod_mod, Z.sub_diag by lia. reflexivity.
Qed.

(** Two values a whole number of chunks away from [start], less than a
    chunk apart from the bounds they are compared at, are ordered as the
    bounds. *)
Lemma aligned_least chunk start c r x :
  0 < chunk -> c <= r < c + chunk -> (r - start) mod chunk = 0 ->
  c <= x -> (x - start) mod chunk = 0 -> r <= x.
Proof.
  intros Hc Hr Hrm Hx Hxm.
  apply Z.mod_divide in Hrm as [q Hq]; [|lia].
  apply Z.mod_divide in Hxm as [p Hp]; [|lia].
  destruct (Z.le_gt_cases q p) as [Hqp|Hqp]; [nia|].
  assert (p + 1 <= q) by lia. nia.
Qed.

(** X2.  [round] when the subtraction does not wrap: the result is not
    below [current], less than a chunk above it and a whole number of
    chunks away from [start]; it is the least such value; a [current] that
    is a whole number of chunks away from [start] already is left where it
    is, and so rounding a result again changes nothing. *)
Theorem round_least_fixed current start chunk :
  0 < chunk -> 0 <= start <= current -> current + chunk <= size_t_modulus ->
  current <= round current start chunk < current + chunk
  /\ (round current start chunk - start) mod chunk = 0
  /\ (forall x, current <= x -> (x - start) mod chunk = 0 ->
                round current start chunk <= x)
  /\ ((current - start) mod chunk = 0 -> round current start chunk = current)
  /\ round (round current start chunk) start chunk
     = round current start chunk.
Proof.
  intros Hc Hs Hb.
  destruct (round_spec current start chunk) as [Hr Hm]; try lia.
  split; [exact Hr|]. split; [exact Hm|]. split; [|split].
  - intros x Hx Hxm. eapply aligned_least; eassumption.
  - intros Hal. apply round_fixed; [lia | lia | exact Hal].
  - apply round_fixed; [lia | lia | exact Hm].
Qed.

Lemma round_least_fixed_witness :
  105 <= round 105 100 12 < 105 + 12
  /\ (round 105 100 12 - 100) mod 12 = 0
  /\ (forall x, 105 <= x -> (x - 100) mod 12 = 0 -> round 105 100 12 <= x)
  /\ ((105 - 100) mod 12 = 0 -> round 105 100 12 = 105)
  /\ round (round 105 100 12) 100 12 = round 105 100 12.
Proof.
  apply (round_least_fixed 105 100 12);
    [lia | lia | vm_compute; discriminate].
Defined.

(** X3.  [round] with a chunk that divides 2^64, as the four bytes
    [read<int, esint>] is called with: the wrap-around of the subtraction
    does no harm, and a [current] below [start] is still moved to the next
    value a whole number of chunks away from [start]. *)
Theorem round_chunk_divides_modulus current start chunk :
  0 < chunk -> size_t_modulus mod chunk = 0 ->
  0 <= current -> 0 <= start < size_t_modulus ->
  current + chunk <= size_t_modulus ->
  current <= round current start chunk < current + chunk
  /\ (round current start chunk - start) mod chunk = 0.
Proof.
  intros Hc Hdiv Hcur Hs Hb. apply round_spec; auto.
Qed.

Lemma round_chunk_divides_modulus_witness :
  99 <= round 99 130 4 < 99 + 4 /\ (round 99 130 4 - 130) mod 4 = 0.
Proof.
  apply (round_chunk_divides_modulus 99 130 4);
    [lia | reflexivity | lia | split; [lia | reflexivity]
    | vm_compute; discriminate].
Defined.

Lemma read_empty_range {Input Output} `{Scalar Input} (cast : Input -> Output)
    pack mpi_rank k out align d0 b e :
  distribution pack !! mpi_rank = Some d0 ->
  read_range pack mpi_rank k align = Some (b, e) -> e <= b ->
  read cast pack mpi_rank k out align = Some out.
Proof.
  intros Hd0 Hr Hle. unfold read. rewrite Hd0, Hr. cbn.
  destruct (Z.ltb_spec b e); [lia | reflexivity].
Qed.

(** X4.  A worker whose window begins at or after the end of a record
    decodes nothing of it, whatever the alignment: [read] leaves [output] as
    it is. *)
Theorem read_window_after_record {Input Output} `{Scalar Input}
    (cast : Input -> Output) pack mpi_rank k out align d0 d1 :
  distribution pack !! mpi_rank = Some d0 ->
  distribution pack !! S mpi_rank = Some d1 ->
  0 < align -> 0 <= begin k <= end_ k -> end_ k <= d0 -> d0 <= d1 ->
  d0 + align <= size_t_modulus ->
  read cast pack mpi_rank k out align = Some out.
Proof.
  intros Hd0 Hd1 Ha Hk He Hd Hb.
  eapply read_empty_range; [exact Hd0 | |].
  - unfold read_range. rewrite Hd0, Hd1. reflexivity.
  - rewrite Z.max_r, Z.min_l by lia.
    destruct (round_spec d0 (begin k) align) as [Hr0 Hm0]; try lia.
    destruct (round_spec (end_ k) (begin k) align) as [Hr1 Hm1]; try lia.
    eapply aligned_least; [exact Ha | exact Hr1 | exact Hm1 | lia | exact Hm0].
Qed.

Lemma read_window_after_record_witness :
  read double_of_float (mkPack 0 [0; 150; 200] []) 1 points_100_148 [] 12
  = Some [].
Proof.
  apply (read_window_after_record double_of_float (mkPack 0 [0; 150; 200] [])
           1 points_100_148 [] 12 150 200);
    [reflexivity | reflexivity | lia | cbn; lia | cbn; lia | lia
    | vm_compute; discriminate].
Defined.

(** X5.  A worker whose window ends at or before the payload of a record
    decodes nothing of it when the alignment divides 2^64, as the four bytes
    of the cells and the cell types do: [read] leaves [output] as it is. *)
Theorem read_window_before_record {Input Output} `{Scalar Input}
    (cast : Input -> Output) pack mpi_rank k out align d0 d1 :
  distribution pack !! mpi_rank = Some d0 ->
  distribution pack !! S mpi_rank = Some d1 ->
  0 < align -> size_t_modulus mod align = 0 ->
  0 <= d0 <= d1 -> d1 <= begin k <= end_ k -> begin k < size_t_modulus ->
  read cast pack mpi_rank k out align = Some out.
Proof.
  intros Hd0 Hd1 Ha Hdiv Hd Hk Hb.
  assert (Hal : align <= size_t_modulus).
  { apply Z.divide_pos_le; [reflexivity|].
    apply Z.mod_divide; [lia | exact Hdiv]. }
  eapply read_empty_range; [exact Hd0 | |].
  - unfold read_range. rewrite Hd0, Hd1. reflexivity.
  - rewrite Z.max_l, Z.min_r by lia.
    rewrite (round_fixed (begin k))
      by (rewrite ?Z.sub_diag; lia || reflexivity).
    destruct (Z.le_gt_cases (d1 + align) size_t_modulus) as [Hfit|Hfit].
    + destruct (round_spec d1 (begin k) align) as [Hr1 Hm1]; try lia.
      eapply aligned_least;
        [exact Ha | exact Hr1 | exact Hm1 | lia |].
      rewrite Z.sub_diag. reflexivity.
    + (* the rounded end cannot pass [begin] *)
      unfold round. rewrite size_t_sub_mod by (lia || auto).
      pose proof (Z.mod_pos_bound (d1 - begin k) align Ha) as Hr.
      case Z.eqb_spec; intros E; [lia|].
      assert (Hle : d1 + (align - (d1 - begin k) mod align) <= begin k).
      { assert (Hm : (d1 + (align - (d1 - begin k) mod align) - begin k)
                     mod align = 0).
        { replace (d1 + (align - (d1 - begin k) mod align) - begin k)
            with ((d1 - begin k) - (d1 - begin k) mod align + 1 * align)
            by ring.
          rewrite Z.mod_add by lia.
          rewrite Zminus_mod, Z.mod_mod, Z.sub_diag by lia. reflexivity. }
        eapply (aligned_least align (begin k) d1); [exact Ha | | exact Hm | |].
        - lia.
        - lia.
        - rewrite Z.sub_diag. reflexivity. }
      unfold size_t_add. unwrap. exact Hle.
Qed.

Lemma read_window_before_record_witness :
  read esint_of_int (mkPack 0 [0; 99; 200] []) 0
    (mkKeyword 0 0 120 130 162) [] 4
  = Some [].
Proof.
  apply (read_window_before_record esint_of_int (mkPack 0 [0; 99; 200] []) 0
           (mkKeyword 0 0 120 130 162) [] 4 0 99);
    [reflexivity | reflexivity | lia | reflexivity | lia | cbn; lia
    | cbn; reflexivity].
Defined.

(** ** [setend]: when it is defined, and running it twice *)

Lemma lower_bound_is_Some l v :
  is_Some (lower_bound l v) <-> exists x, x ∈ l /\ v <= x.
Proof.
  split.
  - intros [e He]. exists e. apply lower_bound_Some. exact He.
  - intros (x & Hx & Hv). destruct (lower_bound_exists l v x Hx Hv) as [e He].
    exists e. exact He.
Qed.

Lemma build_offsets_lookup_None file_ends s f :
  file_ends !! f = None ->
  build_offsets file_ends (_points s) (_cells s) (_cellTypes s)
    (_pointData s) (_cellData s) !! f = None.
Proof.
  intros Hfe. unfold build_offsets.
  rewrite lookup_zip_with, Hfe.
  match goal with |- context [?l !! f] => destruct (l !! f) end; reflexivity.
Qed.

Lemma setend1_is_Some {T} `{TKeyword T} file_ends s (t : T) :
  is_Some (setend1 (build_offsets file_ends (_points s) (_cells s)
                      (_cellTypes s) (_pointData s) (_cellData s)) t)
  <-> has_end file_ends s (keyword t).
Proof.
  unfold setend1, has_end.
  destruct (file_ends !! fileindex (keyword t)) as [fe|] eqn:Hfe.
  - rewrite (build_offsets_lookup _ _ _ _ Hfe). cbn.
    destruct (lower_bound _ _) as [e|] eqn:He; cbn.
    + split; [intros _ | intros _; eexists; reflexivity].
      exists fe. split; [reflexivity|].
      apply lower_bound_Some in He as [Hin Hle].
      exists e. split; [|exact Hle].
      rewrite <- (merge_sort_Permutation Z.le). exact Hin.
    + split; [intros [? E]; discriminate E|].
      intros (fe' & [= <-] & x & Hx & Hle). exfalso.
      destruct (lower_bound_exists
                  (merge_sort Z.le (boundaries fe (fileindex (keyword t)) s))
                  (begin (keyword t)) x) as [e He']; [| exact Hle |].
      * rewrite merge_sort_Permutation. exact Hx.
      * rewrite He' in He. discriminate He.
  - rewrite (build_offsets_lookup_None _ _ _ Hfe). cbn.
    split; [intros [? E]; discriminate E|].
    intros (fe & E & _). discriminate E.
Qed.

Lemma setend_is_Some {T} `{TKeyword T} file_ends s (ts : list T) :
  is_Some (setend (build_offsets file_ends (_points s) (_cells s)
                     (_cellTypes s) (_pointData s) (_cellData s)) ts)
  <-> Forall (has_end file_ends s) (keyword <$> ts).
Proof.
  unfold setend. rewrite mapM_is_Some, Forall_fmap.
  apply Forall_proper; [|reflexivity].
  intros t. apply setend1_is_Some.
Qed.

(** X6.  [setend] has a result, that is, never dereferences the past-the-end
    iterator of [lower_bound], exactly when every record names a file of the
    pack and is not beyond all the boundaries of that file. *)
Theorem resolve_ends_defined_iff file_ends s :
  is_Some (resolve_ends file_ends s)
  <-> Forall (has_end file_ends s) (all_keywords s).
Proof.
  unfold all_keywords. rewrite !Forall_app.
  rewrite <- !setend_is_Some. unfold resolve_ends.
  destruct (setend _ (_points s)); cbn;
    [| split; [intros [? E]; discriminate E
              | intros ([? E] & _); discriminate E]].
  destruct (setend _ (_cells s)); cbn;
    [| split; [intros [? E]; discriminate E
              | intros (_ & [? E] & _); discriminate E]].
  destruct (setend _ (_cellTypes s)); cbn;
    [| split; [intros [? E]; discriminate E
              | intros (_ & _ & [? E] & _); discriminate E]].
  destruct (setend _ (_pointData s)); cbn;
    [| split; [intros [? E]; discriminate E
              | intros (_ & _ & _ & [? E] & _); discriminate E]].
  destruct (setend _ (_cellData s)); cbn;
    [| split; [intros [? E]; discriminate E
              | intros (_ & _ & _ & _ & [? E]); discriminate E]].
  split; [intros _ | intros _; eexists; reflexivity].
  repeat split; eexists; reflexivity.
Qed.

Lemma addoffset_same {T} `{TKeyword T} (ks ks' : list T) offs :
  Forall2 (fun a b => fileindex (keyword a) = fileindex (keyword b)
                      /\ offset (keyword a) = offset (keyword b)) ks ks' ->
  addoffset offs ks = addoffset offs ks'.
Proof.
  unfold addoffset. intros HF. revert offs.
  induction HF as [|a b ks ks' [Ef Eo] _ IH]; intros offs; [reflexivity|].
  cbn [fold_left]. rewrite Ef, Eo. apply IH.
Qed.

Lemma setend_keeps {T} `{TKeyword T} offsets (ts ts' : list T) :
  setend offsets ts = Some ts' ->
  Forall2 (fun a b => fileindex (keyword a) = fileindex (keyword b)
                      /\ offset (keyword a) = offset (keyword b)) ts' ts.
Proof.
  unfold setend. intros HM%mapM_Some. induction HM as [|t t' ts ts' Ht _ IH];
    constructor; [|exact IH].
  unfold setend1 in Ht.
  destruct (offsets !! _); cbn in Ht; [|discriminate Ht].
  destruct (lower_bound _ _); cbn in Ht; [|discriminate Ht].
  injection Ht as <-. rewrite keyword_with_keyword. split; reflexivity.
Qed.

Lemma setend_again {T} `{TKeyword T} offsets (ts ts' : list T) :
  (forall k (t : T), with_keyword k (with_keyword k t) = with_keyword k t) ->
  setend offsets ts = Some ts' -> setend offsets ts' = Some ts'.
Proof.
  unfold setend. intros Hww HM%mapM_Some. apply mapM_Some.
  induction HM as [|t t' ts ts' Ht _ IH]; constructor; [|exact IH].
  unfold setend1 in *.
  destruct (offsets !! fileindex (keyword t)) as [row|] eqn:Hrow;
    cbn in Ht; [|discriminate Ht].
  destruct (lower_bound row (begin (keyword t))) as [e|] eqn:He;
    cbn in Ht; [|discriminate Ht].
  injection Ht as <-. rewrite keyword_with_keyword.
  cbn [set_end fileindex begin]. rewrite Hrow. cbn. rewrite He. cbn.
  rewrite Hww. reflexivity.
Qed.

(** X7.  Running lines 229-235 of [scan] on their own result changes
    nothing: the boundaries are keyword offsets and the file ends, which
    [setend] leaves alone, and every record has its end already. *)
Theorem resolve_ends_idempotent file_ends s s' :
  resolve_ends file_ends s = Some s' -> resolve_ends file_ends s' = Some s'.
Proof.
  unfold resolve_ends.
  set (offsets := build_offsets file_ends (_points s) (_cells s)
                    (_cellTypes s) (_pointData s) (_cellData s)).
  destruct (setend offsets (_points s)) as [p|] eqn:Ep; [|discriminate].
  destruct (setend offsets (_cells s)) as [c|] eqn:Ec; [|discriminate].
  destruct (setend offsets (_cellTypes s)) as [t|] eqn:Et; [|discriminate].
  destruct (setend offsets (_pointData s)) as [pd|] eqn:Epd; [|discriminate].
  destruct (setend offsets (_cellData s)) as [cd|] eqn:Ecd; [|discriminate].
  cbn. intros [= <-]. cbn [_points _cells _cellTypes _pointData _cellData].
  assert (Hoff : build_offsets file_ends p c t pd cd = offsets).
  { unfold offsets, build_offsets. cbn zeta. f_equal.
    rewrite (addoffset_same p (_points s))
      by (eapply setend_keeps; eassumption).
    rewrite (addoffset_same c (_cells s)) by (eapply setend_keeps; eassumption).
    rewrite (addoffset_same t (_cellTypes s))
      by (eapply setend_keeps; eassumption).
    rewrite (addoffset_same pd (_pointData s))
      by (eapply setend_keeps; eassumption).
    rewrite (addoffset_same cd (_cellData s))
      by (eapply setend_keeps; eassumption).
    reflexivity. }
  rewrite Hoff.
  rewrite (@setend_again Points Points_TKeyword offsets _ _
             (fun _ _ => eq_refl) Ep).
  rewrite (@setend_again Cells Cells_TKeyword offsets _ _
             (fun _ _ => eq_refl) Ec).
  rewrite (@setend_again CellTypes CellTypes_TKeyword offsets _ _
             (fun _ _ => eq_refl) Et).
  rewrite (@setend_again Data Data_TKeyword offsets _ _
             (fun _ _ => eq_refl) Epd).
  rewrite (@setend_again Data Data_TKeyword offsets _ _
             (fun _ _ => eq_refl) Ecd).
  reflexivity.
Qed.

Lemma resolve_ends_idempotent_witness :
  exists s', resolve_ends [300] two_sections = Some s'
             /\ resolve_ends [300] s' = Some s'.
Proof.
  eexists. split; [vm_compute; reflexivity|].
  apply (resolve_ends_idempotent [300] two_sections). vm_compute. reflexivity.
Defined.

(** ** The reduced dimension bounds *)

Lemma fold_min_init l a b :
  a <= b -> fold_left Z.min l a = Z.min a (fold_left Z.min l b).
Proof.
  revert a b. induction l as [|x l IH]; intros a b Hab; cbn; [lia|].
  rewrite (IH (Z.min a x) (Z.min b x)) by lia.
  pose proof (fold_min_le_init l (Z.min b x)). lia.
Qed.

Lemma fold_max_init l a b :
  b <= a -> fold_left Z.max l a = Z.max a (fold_left Z.max l b).
Proof.
  revert a b. induction l as [|x l IH]; intros a b Hab; cbn; [lia|].
  rewrite (IH (Z.max a x) (Z.max b x)) by lia.
  pose proof (fold_max_ge_init l (Z.max b x)). lia.
Qed.

Lemma scan_dimensions_app ts1 ts2 :
  scan_dimensions (ts1 ++ ts2)
  = (Z.min (scan_dimensions ts1).1 (scan_dimensions ts2).1,
     Z.max (scan_dimensions ts1).2 (scan_dimensions ts2).2).
Proof.
  rewrite !scan_dimensions_folds, fmap_app, !fold_left_app. cbn [fst snd].
  f_equal.
  - apply fold_min_init, fold_min_le_init.
  - apply fold_max_init, fold_max_ge_init.
Qed.

Lemma reduce_min_concat slices a :
  a <= 4 ->
  fold_left Z.min ((fun ts => (scan_dimensions ts).1) <$> slices) a
  = Z.min a (scan_dimensions (concat slices)).1.
Proof.
  revert a. induction slices as [|ts slices IH]; intros a Ha;
    cbn [fmap list_fmap fold_left concat]; [cbn; lia|].
  destruct (scan_dimensions_min ts) as (Hmn & _ & _).
  rewrite IH, scan_dimensions_app by lia. cbn [fst]. lia.
Qed.

Lemma reduce_max_concat slices a :
  0 <= a ->
  fold_left Z.max ((fun ts => (scan_dimensions ts).2) <$> slices) a
  = Z.max a (scan_dimensions (concat slices)).2.
Proof.
  revert a. induction slices as [|ts slices IH]; intros a Ha;
    cbn [fmap list_fmap fold_left concat]; [cbn; lia|].
  destruct (scan_dimensions_max ts) as (Hmx & _ & _).
  rewrite IH, scan_dimensions_app by lia. cbn [snd]. lia.
Qed.

Lemma global_bounds_concat slices :
  slices <> [] ->
  (global_mindim slices, global_maxdim slices)
  = scan_dimensions (concat slices).
Proof.
  destruct slices as [|ts slices]; [congruence|]. intros _.
  unfold global_mindim, global_maxdim. cbn [fmap list_fmap allReduce concat].
  destruct (scan_dimensions_min ts) as (Hmn & _ & _).
  destruct (scan_dimensions_max ts) as (Hmx & _ & _).
  rewrite reduce_min_concat, reduce_max_concat, scan_dimensions_app by lia.
  reflexivity.
Qed.

(** X8.  The bounds every worker holds after the two reductions are the
    bounds of the cell type codes of the whole file, however the codes are
    distributed among the workers: the loop of lines 314-318 run over the
    slices one after the other would have found the same pair. *)
Theorem global_bounds_of_whole_file slices :
  slices <> [] ->
  (global_mindim slices, global_maxdim slices)
  = scan_dimensions (concat slices)
  /\ -1 <= global_mindim slices <= 4 /\ 0 <= global_maxdim slices <= 3.
Proof.
  intros Hne. pose proof (global_bounds_concat slices Hne) as E.
  split; [exact E|].
  destruct (scan_dimensions_min (concat slices)) as (Hmn & _ & _).
  destruct (scan_dimensions_max (concat slices)) as (Hmx & _ & _).
  rewrite <- E in Hmn, Hmx. cbn [fst snd] in Hmn, Hmx. split; assumption.
Qed.

Lemma global_bounds_of_whole_file_witness :
  (global_mindim [[5; 9]; []; [10]], global_maxdim [[5; 9]; []; [10]])
  = scan_dimensions (concat [[5; 9]; []; [10]])
  /\ -1 <= global_mindim [[5; 9]; []; [10]] <= 4
  /\ 0 <= global_maxdim [[5; 9]; []; [10]] <= 3.
Proof.
  apply (global_bounds_of_whole_file [[5; 9]; []; [10]]). discriminate.
Defined.

(** X9.  The dimension check of lines 326-330 lets a file pass exactly when
    the file has a cell type code and all its codes are of one dimension,
    which is then one of 0..3 and the dimension [_etype] is called with. *)
Theorem check_dimension_passes_iff slices f :
  slices <> [] ->
  check_dimension (global_mindim slices) (global_maxdim slices) f
  = Finished [] tt
  <-> exists d, 0 <= d <= 3 /\ uniform_dimension d slices = true
                /\ some_code slices = true /\ global_maxdim slices = d.
Proof.
  intros Hne. rewrite check_dimension_cases. split.
  - case Z.eqb_spec; [intros E _ | discriminate].
    pose proof (global_bounds_concat slices Hne) as Eb.
    destruct (scan_dimensions_min (concat slices)) as (_ & Hle & Hmn).
    destruct (scan_dimensions_max (concat slices)) as (Hr & Hge & _).
    rewrite <- Eb in Hle, Hmn, Hr, Hge. cbn [fst snd] in *.
    exists (global_maxdim slices). split; [exact Hr|].
    split; [|split; [|reflexivity]].
    + unfold uniform_dimension. apply forallb_forall. intros ts Hts.
      apply forallb_forall. intros t Ht. apply Z.eqb_eq.
      assert (Hin : t ∈ concat slices).
      { apply list_elem_of_In, in_concat. exists ts. split; assumption. }
      specialize (Hle t Hin). specialize (Hge t Hin). lia.
    + destruct Hmn as [E4|(t & Ht & _)]; [lia|].
      apply list_elem_of_In, in_concat in Ht as (ts & Hts & Ht).
      unfold some_code. apply existsb_exists. exists ts.
      split; [exact Hts|].
      destruct ts; [destruct Ht | reflexivity].
  - intros (d & Hd & Hu & Hs & _).
    destruct (uniform_global_bounds d slices) as [-> ->]; try assumption;
      [lia|].
    rewrite Z.eqb_refl. reflexivity.
Qed.

Lemma check_dimension_passes_iff_witness :
  check_dimension (global_mindim [[5; 9]; []; [9]])
    (global_maxdim [[5; 9]; []; [9]]) 0 = Finished [] tt
  <-> exists d, 0 <= d <= 3 /\ uniform_dimension d [[5; 9]; []; [9]] = true
                /\ some_code [[5; 9]; []; [9]] = true
                /\ global_maxdim [[5; 9]; []; [9]] = d.
Proof.
  apply (check_dimension_passes_iff [[5; 9]; []; [9]] 0). discriminate.
Defined.

(** ** The element loop *)

Lemma bind_Stuck {A B} (k : A -> Run B) : Stuck ≫= k = Stuck.
Proof. reflexivity. Qed.

(** One round of the loop of lines 403-414. *)
Lemma fill_elements_S fuel cells i maxdim file nidoffset eidoffset eoffset
    acc :
  fill_elements (S fuel) cells i maxdim file nidoffset eidoffset eoffset acc
  = if Z.of_nat (length cells) <=? i then Finished [] acc
    else
      match cells !! Z.to_nat i with
      | None => Stuck
      | Some n =>
          if n =? 1 then
            match cells !! Z.to_nat (i + 1) with
            | None => Stuck
            | Some node =>
                fill_elements fuel cells (size_t_add i (n + 1)) maxdim file
                  nidoffset eidoffset eoffset
                  (mkElements (ids acc ++ [node + nidoffset]) (new_esize acc)
                     (new_etype acc) (new_enodes acc) (nelements acc))
            end
          else
            match _etype maxdim n file with
            | Fatal e => Fatal e
            | Stuck => Stuck
            | Finished _ code =>
                match mapM (fun j => cells !! Z.to_nat (i + 1 + Z.of_nat j))
                           (seq 0 (Z.to_nat n)) with
                | None => Stuck
                | Some nodes =>
                    fill_elements fuel cells (size_t_add i (n + 1)) maxdim
                      file nidoffset eidoffset eoffset
                      (mkElements
                         (ids acc ++ [eidoffset + eoffset + nelements acc])
                         (new_esize acc ++ [n]) (new_etype acc ++ [code])
                         (new_enodes acc
                            ++ ((fun x => x + nidoffset) <$> nodes))
                         (nelements acc + 1))
                end
            end
      end.
Proof.
  cbn [fill_elements]. destruct (Z.of_nat (length cells) <=? i); [reflexivity|].
  destruct (cells !! Z.to_nat i) as [n|]; [|reflexivity].
  rewrite bind_defined_Some.
  destruct (n =? 1).
  - destruct (cells !! Z.to_nat (i + 1)) as [node|]; [|reflexivity].
    rewrite bind_defined_Some.
    unfold mret, Run_ret. rewrite bind_Finished_nil. reflexivity.
  - destruct (_etype_cases maxdim n file) as [[code ->]| ->]; [|reflexivity].
    rewrite bind_Finished_nil.
    destruct (mapM _ _) as [nodes|]; [|reflexivity].
    rewrite bind_defined_Some.
    unfold mret, Run_ret. rewrite bind_Finished_nil. reflexivity.
Qed.

Lemma fill_elements_end fuel cells i maxdim file nidoffset eidoffset eoffset
    acc :
  Z.of_nat (length cells) <= i ->
  fill_elements fuel cells i maxdim file nidoffset eidoffset eoffset acc
  = Finished [] acc.
Proof.
  intros Hi. destruct fuel; cbn [fill_elements];
    (case Z.leb_spec; [reflexivity | lia]).
Qed.

Lemma fill_elements_fuel cells maxdim file nidoffset eidoffset eoffset :
  Z.of_nat (length cells) + 21 <= size_t_modulus ->
  forall fuel fuel' i acc,
    0 <= i ->
    Z.of_nat (length cells) - i < Z.of_nat fuel ->
    Z.of_nat (length cells) - i < Z.of_nat fuel' ->
    fill_elements fuel cells i maxdim file nidoffset eidoffset eoffset acc
    = fill_elements fuel' cells i maxdim file nidoffset eidoffset eoffset acc.
Proof.
  intros Hb. induction fuel as [|fuel IH]; intros fuel' i acc Hi Hf Hf'.
  - rewrite !fill_elements_end by lia. reflexivity.
  - destruct fuel' as [|fuel'];
      [rewrite !fill_elements_end by lia; reflexivity|].
    rewrite !fill_elements_S.
    case Z.leb_spec; intros Hlt; [reflexivity|].
    destruct (cells !! Z.to_nat i) as [n|]; [|reflexivity].
    case Z.eqb_spec; intros En.
    + destruct (cells !! Z.to_nat (i + 1)) as [node|]; [|reflexivity].
      subst n. apply IH; unfold size_t_add; unwrap; lia.
    + destruct (_etype maxdim n file) as [e| |log code] eqn:Et;
        [reflexivity | reflexivity |].
      apply _etype_Finished_size in Et as (_ & _ & Hn).
      destruct (mapM _ _) as [nodes|]; [|reflexivity].
      apply IH; unfold size_t_add; unwrap; lia.
Qed.

Lemma fill_elements_Stuck cells maxdim file nidoffset eidoffset eoffset :
  Z.of_nat (length cells) + 21 <= size_t_modulus ->
  forall fuel i acc,
    0 <= i -> Z.of_nat (length cells) - i < Z.of_nat fuel ->
    fill_elements fuel cells i maxdim file nidoffset eidoffset eoffset acc
    = Stuck ->
    exists i' n,
      i <= i' < Z.of_nat (length cells)
      /\ cells !! Z.to_nat i' = Some n
      /\ Z.of_nat (length cells) < i' + n + 1.
Proof.
  intros Hb. induction fuel as [|fuel IH]; intros i acc Hi Hf.
  - rewrite fill_elements_end by lia. discriminate.
  - rewrite fill_elements_S.
    case Z.leb_spec; intros Hlt; [discriminate|].
    destruct (lookup_lt_is_Some_2 cells (Z.to_nat i)) as [n Hn]; [lia|].
    rewrite Hn. case Z.eqb_spec; intros En.
    + subst n. destruct (cells !! Z.to_nat (i + 1)) as [node|] eqn:Hnode.
      * intros HS. apply IH in HS as (i' & n & Hi' & Hl & Ht);
          [| unfold size_t_add; unwrap; lia
           | unfold size_t_add; unwrap; lia].
        unfold size_t_add in Hi'. rewrite wrap_small in Hi'
          by (unfold is_size_t; lia).
        exists i', n. split; [lia | split; assumption].
      * intros _. apply lookup_ge_None in Hnode.
        exists i, 1. split; [lia | split; [exact Hn | lia]].
    + destruct (_etype maxdim n file) as [e| |log code] eqn:Et.
      * discriminate.
      * destruct (_etype_cases maxdim n file) as [[code E]|E];
          rewrite E in Et; discriminate Et.
      * apply _etype_Finished_size in Et as (_ & _ & Hn20).
        destruct (mapM _ _) as [nodes|] eqn:Hnodes.
        -- intros HS. apply IH in HS as (i' & n' & Hi' & Hl & Ht);
             [| unfold size_t_add; unwrap; lia
              | unfold size_t_add; unwrap; lia].
           unfold size_t_add in Hi'. rewrite wrap_small in Hi'
             by (unfold is_size_t; lia).
           exists i', n'. split; [lia | split; assumption].
        -- intros _. exists i, n. split; [lia | split; [exact Hn|]].
           destruct (Z.ltb_spec (i + n) (Z.of_nat (length cells)))
             as [Hin|Hout]; [|lia].
           exfalso. apply eq_None_not_Some in Hnodes. apply Hnodes.
           apply mapM_is_Some, Forall_forall. intros j Hj.
           apply elem_of_seq in Hj. cbn. apply lookup_lt_is_Some_2. lia.
Qed.

(** X10.  The element loop ends: every round either ends the run or moves
    the index forward by two or more, so that a run over an array [cells] is
    over within [length cells] rounds whatever it meets; and it is without
    result only when the array ends inside a block, the count at some index
    [i'] announcing more integers than the array has left. *)
Theorem fill_elements_terminates cells i maxdim file nidoffset eidoffset
    eoffset acc fuel :
  Z.of_nat (length cells) + 21 <= size_t_modulus -> 0 <= i ->
  (length cells < fuel)%nat ->
  fill_elements fuel cells i maxdim file nidoffset eidoffset eoffset acc
  = fill_elements (S (length cells)) cells i maxdim file nidoffset eidoffset
      eoffset acc
  /\ (fill_elements fuel cells i maxdim file nidoffset eidoffset eoffset acc
      = Stuck ->
      exists i' n,
        i <= i' < Z.of_nat (length cells)
        /\ cells !! Z.to_nat i' = Some n
        /\ Z.of_nat (length cells) < i' + n + 1).
Proof.
  intros Hb Hi Hf. split.
  - apply fill_elements_fuel; lia.
  - apply fill_elements_Stuck; lia.
Qed.

Lemma fill_elements_terminates_witness :
  fill_elements 100 [3; 0; 1; 2; 3; 1; 2] 0 2 0 0 0 0
    (mkElements [] [] [] [] 0)
  = fill_elements 8 [3; 0; 1; 2; 3; 1; 2] 0 2 0 0 0 0
      (mkElements [] [] [] [] 0)
  /\ exists i' n,
       0 <= i' < 7 /\ [3; 0; 1; 2; 3; 1; 2] !! Z.to_nat i' = Some n
       /\ 7 < i' + n + 1.
Proof.
  destruct (fill_elements_terminates [3; 0; 1; 2; 3; 1; 2] 0 2 0 0 0 0
              (mkElements [] [] [] [] 0) 100) as [E HS];
    [vm_compute; discriminate | lia | cbn; lia |].
  split; [exact E|]. apply HS. vm_compute. reflexivity.
Defined.

(** ** The element loop on whole records *)

Lemma block_count (pre r rest : list Z) n :
  (pre ++ n :: r ++ rest) !! Z.to_nat (Z.of_nat (length pre)) = Some n.
Proof.
  rewrite Nat2Z.id, lookup_app_r, Nat.sub_diag by lia. reflexivity.
Qed.

Lemma block_nodes (pre r rest : list Z) n :
  mapM (fun j => (pre ++ n :: r ++ rest)
                   !! Z.to_nat (Z.of_nat (length pre) + 1 + Z.of_nat j))
       (seq 0 (length r))
  = Some r.
Proof.
  apply mapM_Some, Forall2_same_length_lookup.
  split; [apply length_seq|].
  intros j x y Hx Hy. apply lookup_seq in Hx as [-> Hj]. cbn [Nat.add].
  replace (Z.to_nat (Z.of_nat (length pre) + 1 + Z.of_nat j))
    with (length pre + S j)%nat by lia.
  rewrite lookup_app_r by lia.
  replace (length pre + S j - length pre)%nat with (S j) by lia.
  change ((n :: r ++ rest) !! S j) with ((r ++ rest) !! j).
  rewrite lookup_app_l by lia. exact Hy.
Qed.

Lemma fmap_seq_S {A} (f : nat -> A) n :
  f <$> seq 0 (S n) = f 0%nat :: ((fun j => f (S j)) <$> seq 0 n).
Proof.
  cbn [seq fmap list_fmap]. f_equal.
  rewrite <- fmap_S_seq, <- list_fmap_compose. reflexivity.
Qed.

Lemma fill_elements_skip maxdim file nidoffset eidoffset eoffset cells good :
  Z.of_nat (length cells) + 21 <= size_t_modulus ->
  Forall (passes maxdim) good ->
  forall pre tail fuel acc,
    cells = pre ++ encode_cells good ++ tail ->
    exists acc',
      fill_elements (length good + fuel) cells (Z.of_nat (length pre))
        maxdim file nidoffset eidoffset eoffset acc
      = fill_elements fuel cells
          (Z.of_nat (length pre + length (encode_cells good)))
          maxdim file nidoffset eidoffset eoffset acc'.
Proof.
  intros Hb HF. induction HF as [|r good Hr _ IH];
    intros pre tail fuel acc Hcells.
  - exists acc. cbn [length encode_cells fmap list_fmap concat Nat.add].
    rewrite Nat.add_0_r. reflexivity.
  - rewrite encode_cells_cons in Hcells. cbn [app] in Hcells.
    rewrite <- app_assoc in Hcells.
    assert (Hlen : (length pre + S (length r) <= length cells)%nat).
    { rewrite Hcells. rewrite length_app. cbn [length].
      rewrite length_app. lia. }
    assert (Hnext : size_t_add (Z.of_nat (length pre))
                      (Z.of_nat (length r) + 1)
                    = Z.of_nat (length (pre ++ Z.of_nat (length r) :: r))).
    { unfold size_t_add. unwrap. rewrite length_app. cbn [length]. lia. }
    assert (Hcells' : cells = (pre ++ Z.of_nat (length r) :: r)
                                ++ encode_cells good ++ tail).
    { rewrite Hcells, <- app_assoc. reflexivity. }
    assert (Hidx : Z.of_nat (length (pre ++ Z.of_nat (length r) :: r)
                             + length (encode_cells good))
                   = Z.of_nat (length pre
                               + length (encode_cells (r :: good)))).
    { rewrite encode_cells_cons, !length_app. cbn [length]. lia. }
    cbn [length Nat.add]. rewrite fill_elements_S.
    case Z.leb_spec; intros Hlt; [lia|].
    assert (Hcount : cells !! Z.to_nat (Z.of_nat (length pre))
                     = Some (Z.of_nat (length r)))
      by (rewrite Hcells; apply block_count).
    assert (Hnodes : mapM (fun j => cells !! Z.to_nat
                                      (Z.of_nat (length pre) + 1 + Z.of_nat j))
                          (seq 0 (length r)) = Some r)
      by (rewrite Hcells; apply block_nodes).
    rewrite Hcount.
    destruct Hr as [H1|[Hd Ha]].
    + destruct r as [|node [|??]]; try discriminate H1.
      cbn [length] in *. change (Z.of_nat 1) with 1 in *.
      change (1 =? 1) with true. cbv iota.
      cbn [length seq mapM] in Hnodes.
      rewrite Z.add_0_r in Hnodes.
      destruct (cells !! Z.to_nat (Z.of_nat (length pre) + 1)) as [node'|];
        [|discriminate Hnodes].
      injection Hnodes as ->.
      rewrite Hnext.
      destruct (IH _ tail fuel
                  (mkElements (ids acc ++ [node + nidoffset]) (new_esize acc)
                     (new_etype acc) (new_enodes acc) (nelements acc)) Hcells')
        as [acc' E].
      exists acc'. rewrite E, Hidx. reflexivity.
    + destruct (proj2 (_etype_Finished_iff maxdim (Z.of_nat (length r)) file)
                  (conj Hd Ha)) as [code Hcode].
      pose proof (_etype_Finished_size _ _ _ _ _ Hcode) as (_ & _ & Hn).
      case Z.eqb_spec; intros En; [lia|].
      rewrite Hcode, Nat2Z.id, Hnodes, Hnext.
      destruct (IH _ tail fuel
                  (mkElements
                     (ids acc ++ [eidoffset + eoffset + nelements acc])
                     (new_esize acc ++ [Z.of_nat (length r)])
                     (new_etype acc ++ [code])
                     (new_enodes acc ++ ((fun x => x + nidoffset) <$> r))
                     (nelements acc + 1)) Hcells')
        as [acc' E].
      exists acc'. rewrite E, Hidx. reflexivity.
Qed.

(** X11.  The loop stops at the first record it has no code for, a record of
    a size other than one that [_etype] does not know for the file's
    dimension (in a file of dimension zero, any size other than one): the
    run ends with the fatal "unrecognized element type" that names this
    size, whatever follows the count in the array. *)
Theorem fill_elements_first_unrecognized maxdim file nidoffset eidoffset
    eoffset pre good n tail acc :
  Z.of_nat (length (pre ++ encode_cells good ++ n :: tail)) + 21
  <= size_t_modulus ->
  Forall (passes maxdim) good ->
  n <> 1 -> maxdim = 0 \/ accepts maxdim n = false ->
  fill_elements (S (length (pre ++ encode_cells good ++ n :: tail)))
    (pre ++ encode_cells good ++ n :: tail) (Z.of_nat (length pre))
    maxdim file nidoffset eidoffset eoffset acc
  = Fatal (UnrecognizedElementType maxdim n file).
Proof.
  set (cells := pre ++ encode_cells good ++ n :: tail).
  intros Hb Hgood Hn Hbad.
  assert (Hlen : length cells
                 = (length pre + length (encode_cells good)
                    + S (length tail))%nat).
  { unfold cells. rewrite !length_app. cbn [length]. lia. }
  rewrite (fill_elements_fuel cells maxdim file nidoffset eidoffset eoffset
             Hb (S (length cells)) (length good + S (length cells)))
    by lia.
  destruct (fill_elements_skip maxdim file nidoffset eidoffset eoffset cells
              good Hb Hgood pre (n :: tail) (S (length cells)) acc eq_refl)
    as [acc' ->].
  rewrite fill_elements_S.
  case Z.leb_spec; intros Hlt; [lia|].
  rewrite Nat2Z.id. unfold cells at 1.
  rewrite app_assoc, lookup_app_r by (rewrite length_app; lia).
  rewrite length_app, Nat.sub_diag. cbn [lookup list_lookup].
  case Z.eqb_spec; intros En; [contradiction|].
  destruct (_etype_cases maxdim n file) as [Hc|Hf]; [|rewrite Hf; reflexivity].
  apply _etype_Finished_iff in Hc as [Hd Ha].
  destruct Hbad as [?|Hbad]; [contradiction | congruence].
Qed.

Lemma fill_elements_first_unrecognized_witness :
  fill_elements (S (length ([7] ++ encode_cells [[0; 1; 2]; [9]] ++ 5 :: [])))
    ([7] ++ encode_cells [[0; 1; 2]; [9]] ++ 5 :: []) (Z.of_nat (length [7]))
    2 0 0 0 0 (mkElements [] [] [] [] 0)
  = Fatal (UnrecognizedElementType 2 5 0).
Proof.
  apply (fill_elements_first_unrecognized 2 0 0 0 0 [7] [[0; 1; 2]; [9]] 5 []
           (mkElements [] [] [] [] 0)).
  - vm_compute. discriminate.
  - constructor; [right; split; [lia | reflexivity]|].
    constructor; [left; reflexivity | constructor].
  - lia.
  - right. reflexivity.
Defined.

Lemma fill_elements_whole maxdim file nidoffset eidoffset eoffset cells
    records :
  Z.of_nat (length cells) + 21 <= size_t_modulus ->
  maxdim <> 0 ->
  Forall (fun r => accepts maxdim (Z.of_nat (length r)) = true) records ->
  exists codes,
    Forall2 (fun r code => _etype maxdim (Z.of_nat (length r)) file
                           = Finished [] code) records codes
    /\ forall pre tail fuel acc,
         cells = pre ++ encode_cells records ++ tail ->
         fill_elements (length records + fuel) cells (Z.of_nat (length pre))
           maxdim file nidoffset eidoffset eoffset acc
         = fill_elements fuel cells
             (Z.of_nat (length pre + length (encode_cells records)))
             maxdim file nidoffset eidoffset eoffset
             (mkElements
                (ids acc
                   ++ ((fun j => eidoffset + eoffset + nelements acc
                                 + Z.of_nat j)
                         <$> seq 0 (length records)))
                (new_esize acc
                   ++ ((fun r => Z.of_nat (length r)) <$> records))
                (new_etype acc ++ codes)
                (new_enodes acc
                   ++ ((fun x => x + nidoffset) <$> concat records))
                (nelements acc + Z.of_nat (length records))).
Proof.
  intros Hb Hd HF. induction HF as [|r records Ha _ IH].
  - exists []. split; [constructor|].
    intros pre tail fuel [] _.
    cbn [length encode_cells fmap list_fmap concat Nat.add seq ids new_esize
           new_etype new_enodes nelements Z.of_nat].
    rewrite !app_nil_r, Nat.add_0_r, Z.add_0_r. reflexivity.
  - destruct IH as (codes & Hcodes & IH).
    destruct (proj2 (_etype_Finished_iff maxdim (Z.of_nat (length r)) file)
                (conj Hd Ha)) as [code Hcode].
    pose proof (_etype_Finished_size _ _ _ _ _ Hcode) as (_ & _ & Hn).
    exists (code :: codes). split; [constructor; assumption|].
    intros pre tail fuel acc Hcells.
    rewrite encode_cells_cons in Hcells. cbn [app] in Hcells.
    rewrite <- app_assoc in Hcells.
    assert (Hlen : (length pre + S (length r) <= length cells)%nat).
    { rewrite Hcells. rewrite length_app. cbn [length].
      rewrite length_app. lia. }
    assert (Hnext : size_t_add (Z.of_nat (length pre))
                      (Z.of_nat (length r) + 1)
                    = Z.of_nat (length (pre ++ Z.of_nat (length r) :: r))).
    { unfold size_t_add. unwrap. rewrite length_app. cbn [length]. lia. }
    assert (Hcells' : cells = (pre ++ Z.of_nat (length r) :: r)
                                ++ encode_cells records ++ tail).
    { rewrite Hcells, <- app_assoc. reflexivity. }
    assert (Hidx : Z.of_nat (length (pre ++ Z.of_nat (length r) :: r)
                             + length (encode_cells records))
                   = Z.of_nat (length pre
                               + length (encode_cells (r :: records)))).
    { rewrite encode_cells_cons, !length_app. cbn [length]. lia. }
    assert (Hcount : cells !! Z.to_nat (Z.of_nat (length pre))
                     = Some (Z.of_nat (length r)))
      by (rewrite Hcells; apply block_count).
    assert (Hnodes : mapM (fun j => cells !! Z.to_nat
                                      (Z.of_nat (length pre) + 1 + Z.of_nat j))
                          (seq 0 (length r)) = Some r)
      by (rewrite Hcells; apply block_nodes).
    cbn [length Nat.add]. rewrite fill_elements_S.
    case Z.leb_spec; intros Hlt; [lia|].
    rewrite Hcount.
    case Z.eqb_spec; intros En; [lia|].
    rewrite Hcode, Nat2Z.id, Hnodes, Hnext.
    rewrite (IH _ tail fuel _ Hcells'), Hidx.
    cbn [ids new_esize new_etype new_enodes nelements].
    f_equal. f_equal.
    + rewrite <- app_assoc. f_equal. rewrite fmap_seq_S. cbn [app].
      f_equal; [lia|].
      apply list_fmap_ext. intros _ j _. lia.
    + rewrite <- app_assoc. reflexivity.
    + rewrite <- app_assoc. reflexivity.
    + rewrite <- app_assoc. cbn [concat]. rewrite fmap_app. reflexivity.
    + lia.
Qed.

(** X12.  The loop on an array of whole element records, from the first
    complete record on: one size, one element code, one id per record, the
    ids counted on from [eidoffset] plus the classifier's offset, and the
    nodes of the records one after the other, each shifted by [nidoffset];
    every code is the one [_etype] has for the record's size. *)
Theorem fill_elements_records maxdim file nidoffset eidoffset eoffset pre
    records :
  Z.of_nat (length (pre ++ encode_cells records)) + 21 <= size_t_modulus ->
  maxdim <> 0 ->
  Forall (fun r => accepts maxdim (Z.of_nat (length r)) = true) records ->
  exists codes,
    Forall2 (fun r code => _etype maxdim (Z.of_nat (length r)) file
                           = Finished [] code) records codes
    /\ fill_elements (S (length (pre ++ encode_cells records)))
         (pre ++ encode_cells records) (Z.of_nat (length pre))
         maxdim file nidoffset eidoffset eoffset (mkElements [] [] [] [] 0)
       = Finished []
           (mkElements
              ((fun j => eidoffset + eoffset + Z.of_nat j)
                 <$> seq 0 (length records))
              ((fun r => Z.of_nat (length r)) <$> records)
              codes
              ((fun x => x + nidoffset) <$> concat records)
              (Z.of_nat (length records))).
Proof.
  set (cells := pre ++ encode_cells records).
  intros Hb Hd HF.
  destruct (fill_elements_whole maxdim file nidoffset eidoffset eoffset cells
              records Hb Hd HF) as (codes & Hcodes & Hrun).
  exists codes. split; [exact Hcodes|].
  rewrite (fill_elements_fuel cells maxdim file nidoffset eidoffset eoffset
             Hb (S (length cells)) (length records + S (length cells)))
    by lia.
  rewrite (Hrun pre [] (S (length cells)) (mkElements [] [] [] [] 0))
    by (unfold cells; rewrite app_nil_r; reflexivity).
  rewrite fill_elements_end by (unfold cells; rewrite length_app; lia).
  cbn [ids new_esize new_etype new_enodes nelements app].
  do 2 f_equal. apply list_fmap_ext. intros _ j _. lia.
Qed.

Lemma fill_elements_records_witness :
  exists codes,
    Forall2 (fun r code => _etype 2 (Z.of_nat (length r)) 0
                           = Finished [] code)
      [[0; 1; 2]; [1; 2; 3; 4]] codes
    /\ fill_elements
         (S (length ([7; 7] ++ encode_cells [[0; 1; 2]; [1; 2; 3; 4]])))
         ([7; 7] ++ encode_cells [[0; 1; 2]; [1; 2; 3; 4]])
         (Z.of_nat (length [7; 7])) 2 0 100 50 3 (mkElements [] [] [] [] 0)
       = Finished []
           (mkElements
              ((fun j => 50 + 3 + Z.of_nat j)
                 <$> seq 0 (length [[0; 1; 2]; [1; 2; 3; 4]]))
              ((fun r => Z.of_nat (length r)) <$> [[0; 1; 2]; [1; 2; 3; 4]])
              codes
              ((fun x => x + 100) <$> concat [[0; 1; 2]; [1; 2; 3; 4]])
              (Z.of_nat (length [[0; 1; 2]; [1; 2; 3; 4]]))).
Proof.
  apply (fill_elements_records 2 0 100 50 3 [7; 7]
           [[0; 1; 2]; [1; 2; 3; 4]]).
  - vm_compute. discriminate.
  - lia.
  - repeat constructor.
Defined.

(** ** Records of one node *)

Lemma fill_elements_nodes maxdim file nidoffset eidoffset eoffset cells
    records :
  Z.of_nat (length cells) + 21 <= size_t_modulus ->
  Forall (fun r => length r = 1%nat) records ->
  forall pre tail fuel acc,
    cells = pre ++ encode_cells records ++ tail ->
    fill_elements (length records + fuel) cells (Z.of_nat (length pre))
      maxdim file nidoffset eidoffset eoffset acc
    = fill_elements fuel cells
        (Z.of_nat (length pre + length (encode_cells records)))
        maxdim file nidoffset eidoffset eoffset
        (mkElements
           (ids acc ++ ((fun x => x + nidoffset) <$> concat records))
           (new_esize acc) (new_etype acc) (new_enodes acc) (nelements acc)).
Proof.
  intros Hb HF. induction HF as [|r records H1 _ IH];
    intros pre tail fuel acc Hcells.
  - destruct acc.
    cbn [length encode_cells fmap list_fmap concat Nat.add ids new_esize
           new_etype new_enodes nelements].
    rewrite !app_nil_r, Nat.add_0_r. reflexivity.
  - destruct r as [|node [|??]]; try discriminate H1.
    rewrite encode_cells_cons in Hcells. cbn [app length] in Hcells.
    change (Z.of_nat 1) with 1 in Hcells.
    assert (Hlen : (length pre + 2 <= length cells)%nat).
    { rewrite Hcells. rewrite length_app. cbn [length]. lia. }
    assert (Hnext : size_t_add (Z.of_nat (length pre)) (1 + 1)
                    = Z.of_nat (length (pre ++ [1; node]))).
    { unfold size_t_add. unwrap. rewrite length_app. cbn [length]. lia. }
    assert (Hcells' : cells = (pre ++ [1; node])
                                ++ encode_cells records ++ tail).
    { rewrite Hcells, <- app_assoc. reflexivity. }
    assert (Hidx : Z.of_nat (length (pre ++ [1; node])
                             + length (encode_cells records))
                   = Z.of_nat (length pre
                               + length (encode_cells ([node] :: records)))).
    { rewrite encode_cells_cons, !length_app. cbn [length]. lia. }
    assert (Hcount : cells !! Z.to_nat (Z.of_nat (length pre)) = Some 1).
    { rewrite Hcells, Nat2Z.id, lookup_app_r, Nat.sub_diag by lia.
      reflexivity. }
    assert (Hnode : cells !! Z.to_nat (Z.of_nat (length pre) + 1)
                    = Some node).
    { replace (Z.to_nat (Z.of_nat (length pre) + 1))
        with (length pre + 1)%nat by lia.
      rewrite Hcells, lookup_app_r by lia.
      replace (length pre + 1 - length pre)%nat with 1%nat by lia.
      reflexivity. }
    cbn [length Nat.add]. rewrite fill_elements_S.
    case Z.leb_spec; intros Hlt; [lia|].
    rewrite Hcount. change (1 =? 1) with true. cbv iota.
    rewrite Hnode, Hnext, (IH _ tail fuel _ Hcells'), Hidx.
    cbn [ids new_esize new_etype new_enodes nelements concat fmap list_fmap
           app].
    rewrite <- app_assoc. reflexivity.
Qed.

(** X13.  A record of one node is never an element. On an array of whole
    one-node records the loop pushes no size, code or element node and
    counts no element, whatever the dimension of the file is; every record
    gives one id, its node shifted by [nidoffset]. *)
Theorem fill_elements_node_records maxdim file nidoffset eidoffset eoffset
    pre records :
  Z.of_nat (length (pre ++ encode_cells records)) + 21 <= size_t_modulus ->
  Forall (fun r => length r = 1%nat) records ->
  fill_elements (S (length (pre ++ encode_cells records)))
    (pre ++ encode_cells records) (Z.of_nat (length pre))
    maxdim file nidoffset eidoffset eoffset (mkElements [] [] [] [] 0)
  = Finished []
      (mkElements ((fun x => x + nidoffset) <$> concat records) [] [] [] 0).
Proof.
  set (cells := pre ++ encode_cells records).
  intros Hb HF.
  rewrite (fill_elements_fuel cells maxdim file nidoffset eidoffset eoffset
             Hb (S (length cells)) (length records + S (length cells)))
    by lia.
  rewrite (fill_elements_nodes maxdim file nidoffset eidoffset eoffset cells
             records Hb HF pre [] (S (length cells))
             (mkElements [] [] [] [] 0))
    by (unfold cells; rewrite app_nil_r; reflexivity).
  rewrite fill_elements_end by (unfold cells; rewrite length_app; lia).
  reflexivity.
Qed.

Lemma fill_elements_node_records_witness :
  fill_elements (S (length ([] ++ encode_cells [[4]; [6]])))
    ([] ++ encode_cells [[4]; [6]]) (Z.of_nat (length ([] : list Z)))
    2 0 10 0 0 (mkElements [] [] [] [] 0)
  = Finished []
      (mkElements ((fun x => x + 10) <$> concat [[4]; [6]]) [] [] [] 0).
Proof.
  apply (fill_elements_node_records 2 0 10 0 0 [] [[4]; [6]]).
  - vm_compute. discriminate.
  - repeat constructor.
Defined.

Lemma fill_elements_zero cells file nidoffset eidoffset eoffset :
  forall fuel i acc log acc',
    fill_elements fuel cells i 0 file nidoffset eidoffset eoffset acc
    = Finished log acc' ->
    log = []
    /\ new_esize acc' = new_esize acc /\ new_etype acc' = new_etype acc
    /\ new_enodes acc' = new_enodes acc /\ nelements acc' = nelements acc
    /\ exists nodes,
         ids acc' = ids acc ++ ((fun x => x + nidoffset) <$> nodes)
         /\ Forall (fun x => x ∈ cells) nodes.
Proof.
  induction fuel as [|fuel IH]; intros i acc log acc'.
  - cbn [fill_elements]. destruct (_ <=? _); [|discriminate].
    intros [= <- <-]. repeat split; try reflexivity.
    exists []. split; [rewrite app_nil_r; reflexivity | constructor].
  - rewrite fill_elements_S. destruct (_ <=? _).
    { intros [= <- <-]. repeat split; try reflexivity.
      exists []. split; [rewrite app_nil_r; reflexivity | constructor]. }
    destruct (cells !! Z.to_nat i) as [n|]; [|discriminate].
    case Z.eqb_spec; intros En.
    + destruct (cells !! Z.to_nat (i + 1)) as [node|] eqn:Hnode;
        [|discriminate].
      intros H. apply IH in H as (-> & E1 & E2 & E3 & E4 & nodes & E5 & HF).
      cbn [ids new_esize new_etype new_enodes nelements] in *.
      repeat split; try assumption.
      exists (node :: nodes). split.
      * rewrite E5, <- app_assoc. reflexivity.
      * constructor; [|exact HF].
        eapply list_elem_of_lookup_2. exact Hnode.
    + destruct (_etype_cases 0 n file) as [Hc|Hf].
      * apply _etype_Finished_iff in Hc as [Hd _]. contradiction.
      * rewrite Hf. discriminate.
Qed.

(** X14.  Lines 400-422 for a file of dimension zero: "points are not
    included into elements". Whenever the run goes on, the file has added no
    element size, code, node or id and no element region, and its ids, which
    are entries of the cell array shifted by [nidoffset], are the node
    region of the file's name. *)
Theorem fill_file_dimension_zero mesh d npoints file name nidoffset
    eidoffset efirst eoffset log mesh' :
  fill_file mesh d npoints 0 file name nidoffset eidoffset efirst eoffset
  = Finished log mesh' ->
  log = []
  /\ esize mesh' = esize mesh /\ etype mesh' = etype mesh
  /\ enodes mesh' = enodes mesh /\ eIDs mesh' = eIDs mesh
  /\ eregions mesh' = eregions mesh
  /\ exists nodes,
       nregions mesh' = <[name := (fun x => x + nidoffset) <$> nodes]>
                          (nregions mesh)
       /\ Forall (fun x => x ∈ cells d) nodes.
Proof.
  unfold fill_file.
  destruct (node_coordinates (points d) npoints) as [coords|];
    [|discriminate].
  rewrite bind_defined_Some.
  destruct (fill_elements _ _ _ _ _ _ _ _ _) as [e| |l els] eqn:Hfill;
    [discriminate | discriminate |].
  apply fill_elements_zero in Hfill
    as (-> & E1 & E2 & E3 & E4 & nodes & E5 & HF).
  rewrite bind_Finished_nil. change (0 =? 0) with true. cbv iota.
  intros [= <- <-].
  cbn [esize etype enodes eIDs eregions nregions nIDs coordinates
         ids new_esize new_etype new_enodes nelements] in *.
  rewrite E1, E2, E3, E5, !app_nil_r. repeat split; try reflexivity.
  exists nodes. split; [reflexivity | exact HF].
Qed.

Lemma fill_file_dimension_zero_witness :
  exists nodes,
    nregions
      (mkMeshBuilder [10] [mkPoint zero zero zero] [] [] [] [] ∅
         (<["a"%string := [10]]> ∅))
    = <["a"%string
        := (fun x => x + 10) <$> nodes]> (nregions empty_mesh)
    /\ Forall (fun x => x ∈ cells (mkDecoded [zero; zero; zero] [1; 0] [1]))
         nodes.
Proof.
  apply (fill_file_dimension_zero empty_mesh
           (mkDecoded [zero; zero; zero] [1; 0] [1]) 0 0
           ("a"%string) 10 0 0 0 []).
  vm_compute. reflexivity.
Defined.

(** ** The coordinates and the arrays of the mesh *)

Lemma pbegin_range npoints : 0 <= pbegin npoints < 3.
Proof. unfold pbegin. apply Z.mod_pos_bound. lia. Qed.

Lemma node_coordinates_length pts npoints nidoffset coords :
  node_coordinates pts npoints = Some coords ->
  length (node_ids nidoffset npoints (Z.of_nat (length pts)))
  = length coords.
Proof.
  unfold node_coordinates, node_ids. intros Hc%length_mapM.
  rewrite length_seq in Hc. rewrite length_fmap, length_seq. exact Hc.
Qed.

(** X15.  The coordinate loop of lines 392-398 reads inside [points] exactly
    when the array is not shorter than the values it owes to the point begun
    before it; a shorter array makes the subtraction of line 390 wrap and
    the loop read past the end. When the loop is defined it pushes as many
    points as node ids. *)
Theorem node_coordinates_defined_iff pts npoints nidoffset :
  Z.of_nat (length pts) < size_t_modulus ->
  (is_Some (node_coordinates pts npoints)
   <-> pbegin npoints <= Z.of_nat (length pts))
  /\ forall coords,
       node_coordinates pts npoints = Some coords ->
       length (node_ids nidoffset npoints (Z.of_nat (length pts)))
       = length coords
       /\ Z.of_nat (length coords)
          = (Z.of_nat (length pts) - pbegin npoints) / 3.
Proof.
  intros Hb. pose proof (pbegin_range npoints) as Hp.
  assert (Hiff : is_Some (node_coordinates pts npoints)
                 <-> pbegin npoints <= Z.of_nat (length pts)).
  { unfold node_coordinates, csize, size_t_sub. split.
    - intros HS.
      destruct (Z.le_gt_cases (pbegin npoints) (Z.of_nat (length pts)))
        as [Hle|Hgt]; [exact Hle | exfalso].
      assert (HM : 6 <= size_t_modulus) by (vm_compute; discriminate).
      unfold wrap in HS.
      replace ((Z.of_nat (length pts) - pbegin npoints) mod size_t_modulus)
        with (Z.of_nat (length pts) - pbegin npoints + size_t_modulus) in HS.
      2:{ apply Z.mod_unique with (q := -1); [left|]; lia. }
      assert (H1 : 1 <= (Z.of_nat (length pts) - pbegin npoints
                         + size_t_modulus) / 3).
      { apply Z.div_le_lower_bound; lia. }
      destruct (Z.to_nat _) as [|k] eqn:Ek in HS; [lia|].
      cbn [seq mapM] in HS.
      rewrite (lookup_ge_None_2 pts (Z.to_nat (3 * Z.of_nat 0 + _))) in HS
        by lia.
      destruct HS as [? HS]. discriminate HS.
    - intros Hle. unwrap.
      apply mapM_is_Some, Forall_forall. intros i Hi.
      apply elem_of_seq in Hi. cbn.
      assert (Hdiv : 3 * ((Z.of_nat (length pts) - pbegin npoints) / 3)
                     <= Z.of_nat (length pts) - pbegin npoints)
        by (apply Z.mul_div_le; lia).
      set (j := Z.to_nat (3 * Z.of_nat i + pbegin npoints)).
      assert (Hj : (S (S j) < length pts)%nat) by lia.
      destruct (lookup_lt_is_Some_2 pts j) as [x ->]; [lia|].
      destruct (lookup_lt_is_Some_2 pts (S j)) as [y ->]; [lia|].
      destruct (lookup_lt_is_Some_2 pts (S (S j))) as [z ->]; [lia|].
      eexists. reflexivity. }
  split; [exact Hiff|].
  intros coords Hc.
  assert (Hle : pbegin npoints <= Z.of_nat (length pts))
    by (apply Hiff; eexists; exact Hc).
  pose proof (node_coordinates_length pts npoints nidoffset coords Hc) as Hl.
  split; [exact Hl|].
  rewrite <- Hl. unfold node_ids. rewrite length_fmap, length_seq.
  unfold csize, size_t_sub. unwrap.
  rewrite Z2Nat.id; [reflexivity|]. apply Z.div_pos; lia.
Qed.

Lemma node_coordinates_defined_iff_witness :
  (is_Some (node_coordinates [zero; zero; zero; zero] 2)
   <-> pbegin 2 <= Z.of_nat (length [zero; zero; zero; zero]))
  /\ (is_Some (node_coordinates [] 2)
      <-> pbegin 2 <= Z.of_nat (length ([] : list double))).
Proof.
  split.
  - apply (node_coordinates_defined_iff [zero; zero; zero; zero] 2 0).
    vm_compute. reflexivity.
  - apply (node_coordinates_defined_iff [] 2 0). vm_compute. reflexivity.
Defined.

Lemma sum_sizes_app a b : sum_sizes (a ++ b) = sum_sizes a + sum_sizes b.
Proof.
  unfold sum_sizes. induction a as [|x a IH]; cbn [app foldr]; [lia|].
  rewrite IH. lia.
Qed.

(** What a run of the element loop has added is in step. *)
Lemma fill_elements_added cells maxdim file nidoffset eidoffset eoffset :
  forall fuel i acc log acc',
    fill_elements fuel cells i maxdim file nidoffset eidoffset eoffset acc
    = Finished log acc' ->
    log = []
    /\ exists sizes codes nodes,
      new_esize acc' = new_esize acc ++ sizes
      /\ new_etype acc' = new_etype acc ++ codes
      /\ new_enodes acc' = new_enodes acc ++ nodes
      /\ length sizes = length codes
      /\ Forall (fun n => 2 <= n <= 20) sizes
      /\ Z.of_nat (length nodes) = sum_sizes sizes.
Proof.
  induction fuel as [|fuel IH]; intros i acc log acc'.
  - cbn [fill_elements]. destruct (_ <=? _); [|discriminate].
    intros [= <- <-]. split; [reflexivity|].
    exists [], [], []. rewrite !app_nil_r.
    repeat split; constructor.
  - rewrite fill_elements_S. destruct (_ <=? _).
    { intros [= <- <-]. split; [reflexivity|].
      exists [], [], []. rewrite !app_nil_r.
      repeat split; constructor. }
    destruct (cells !! Z.to_nat i) as [n|]; [|discriminate].
    case Z.eqb_spec; intros En.
    + destruct (cells !! Z.to_nat (i + 1)) as [node|]; [|discriminate].
      intros H. apply IH in H. exact H.
    + destruct (_etype maxdim n file) as [e| |l code] eqn:Et;
        [discriminate | discriminate |].
      apply _etype_Finished_size in Et as (_ & _ & Hn).
      destruct (mapM _ _) as [nodes|] eqn:Hnodes; [|discriminate].
      apply length_mapM in Hnodes. rewrite length_seq in Hnodes.
      intros H. apply IH in H
        as (-> & sizes & codes & nodes' & E1 & E2 & E3 & Hl & HF & Hs).
      cbn [new_esize new_etype new_enodes] in E1, E2, E3.
      split; [reflexivity|].
      exists (n :: sizes), (code :: codes),
        (((fun x => x + nidoffset) <$> nodes) ++ nodes').
      rewrite E1, E2, E3, <- !app_assoc.
      repeat split; try reflexivity.
      * cbn [length]. rewrite Hl. reflexivity.
      * constructor; assumption.
      * rewrite length_app, length_fmap, <- Hnodes.
        change (sum_sizes (n :: sizes)) with (n + sum_sizes sizes). lia.
Qed.

Lemma fill_file_in_step mesh d npoints maxdim file name nidoffset eidoffset
    efirst eoffset log mesh' :
  fill_file mesh d npoints maxdim file name nidoffset eidoffset efirst
    eoffset = Finished log mesh' ->
  log = [] /\ (in_step mesh -> in_step mesh').
Proof.
  unfold fill_file.
  destruct (node_coordinates (points d) npoints) as [coords|] eqn:Hc;
    [|discriminate].
  rewrite bind_defined_Some.
  destruct (fill_elements _ _ _ _ _ _ _ _ _) as [e| |l els] eqn:Hfill;
    [discriminate | discriminate |].
  apply fill_elements_added in Hfill
    as (-> & sizes & codes & nodes & E1 & E2 & E3 & Hl & HF & Hs).
  cbn [new_esize new_etype new_enodes app] in E1, E2, E3.
  pose proof (node_coordinates_length _ _ nidoffset _ Hc) as Hids.
  intros H.
  assert (Hlog : log = [])
    by (revert H; cbn; destruct (maxdim =? 0); intros [= <- _]; reflexivity).
  split; [exact Hlog|]. intros (I1 & I2 & I3 & I4).
  assert (Hstep : forall a b c,
            in_step (mkMeshBuilder
                       (nIDs mesh ++ node_ids nidoffset npoints
                                       (Z.of_nat (length (points d))))
                       (coordinates mesh ++ coords)
                       (esize mesh ++ new_esize els)
                       (etype mesh ++ new_etype els) a
                       (enodes mesh ++ new_enodes els) b c)).
  { intros a b c. unfold in_step.
    cbn [nIDs coordinates esize etype enodes]. rewrite E1, E2, E3.
    rewrite !length_app, sum_sizes_app, Forall_app.
    repeat split; try assumption; lia. }
  revert H. cbn. destruct (maxdim =? 0); intros [= _ <-]; apply Hstep.
Qed.

Lemma fill_files_keeps files s mixedparser names nidoffset eidoffset
    mesh log mesh' :
  fill_files files s mixedparser names nidoffset eidoffset mesh
  = Finished log mesh' ->
  log = [] /\ (in_step mesh -> in_step mesh').
Proof.
  revert nidoffset eidoffset mesh log.
  induction files as [|st rest IH]; intros nid eid mesh log.
  - cbn. intros [= <- <-]. split; [reflexivity | auto].
  - cbn [fill_files].
    destruct (names !! state_file st); [|discriminate].
    rewrite bind_defined_Some.
    destruct (first mixedparser !! state_file st); [|discriminate].
    rewrite bind_defined_Some.
    destruct (mixed_offset mixedparser !! state_file st); [|discriminate].
    rewrite bind_defined_Some.
    destruct (_points s !! state_file st) as [p|]; [|discriminate].
    rewrite bind_defined_Some.
    destruct (_cells s !! state_file st) as [c|]; [|discriminate].
    rewrite bind_defined_Some.
    destruct (fill_file _ _ _ _ _ _ _ _ _ _) as [| |l1 m1] eqn:E1;
      try discriminate.
    rewrite bind_Finished.
    destruct (fill_files rest _ _ _ _ _ _) as [| |l2 m2] eqn:E2;
      try discriminate.
    intros [= <- <-].
    apply fill_file_in_step in E1 as [-> H1].
    apply IH in E2 as [-> H2].
    split; [reflexivity | auto].
Qed.

(** X16.  The last loop of [parse] keeps the arrays of the mesh in step:
    after any number of files there is one point for every node id, one
    element code for every element size, every size is one of 2..20, and the
    element nodes are as many as the sizes add up to. The loop logs nothing. *)
Theorem fill_files_in_step files s mixedparser names nidoffset eidoffset
    mesh log mesh' :
  in_step mesh ->
  fill_files files s mixedparser names nidoffset eidoffset mesh
  = Finished log mesh' ->
  in_step mesh' /\ log = [].
Proof.
  intros Hin H. apply fill_files_keeps in H as [-> H]. auto.
Qed.

Lemma fill_files_in_step_witness :
  exists mesh',
    fill_files
      [mkFileState 0 (mkDecoded [zero; zero; zero] [3; 0; 0; 0] [5]) 0 2 2]
      polygon_sections (mkMixedElementsParser [1] [0] [0] [0])
      ["region"%string] 0 0 empty_mesh
    = Finished [] mesh'
    /\ in_step mesh'.
Proof.
  eexists. split; [vm_compute; reflexivity|].
  apply (fill_files_in_step
           [mkFileState 0 (mkDecoded [zero; zero; zero] [3; 0; 0; 0] [5])
              0 2 2]
           polygon_sections (mkMixedElementsParser [1] [0] [0] [0])
           ["region"%string] 0 0 empty_mesh []).
  - repeat split; constructor.
  - vm_compute. reflexivity.
Defined.

(** ** A run of [parse] that finishes *)

(** X17.  When [parse] finishes on a worker, every file of the worker has
    passed the dimension check, the log holds the synchronization warnings
    of lines 354-360 and nothing else, and the arrays of the mesh are in
    step if they were before. *)
Theorem parse_finished world mpi_rank _header s mixedparser names mesh log
    mesh' :
  parse world mpi_rank _header s mixedparser names mesh
  = Finished log mesh' ->
  log = warned (Z.of_nat (length world)) (invalid mixedparser)
  /\ (exists decoded mine,
        decode_world world _header s = Some decoded
        /\ decoded !! mpi_rank = Some mine
        /\ find mismatch (imap (reduce_file decoded mpi_rank) mine) = None)
  /\ (in_step mesh -> in_step mesh').
Proof.
  unfold parse.
  destruct (decode_world world _header s) as [decoded|]; [|discriminate].
  rewrite bind_defined_Some.
  destruct (decoded !! mpi_rank) as [mine|] eqn:Hmine; [|discriminate].
  rewrite bind_defined_Some.
  destruct (world !! mpi_rank) as [views|]; [|discriminate].
  rewrite bind_defined_Some.
  rewrite check_dimensions_find.
  destruct (find mismatch _) as [st|] eqn:Hfind; [discriminate|].
  rewrite bind_Finished_nil, invalid_warnings_warned, bind_Finished.
  destruct (complete_worker _ _ _ _ _ _) as [completed|]; [|discriminate].
  rewrite bind_defined_Some.
  destruct (fill_files _ _ _ _ _ _ _) as [| |l m] eqn:Hfill;
    try discriminate.
  intros [= <- <-].
  apply fill_files_keeps in Hfill as [-> Hstep].
  rewrite app_nil_r. split; [reflexivity|].
  split; [|exact Hstep]. exists decoded, mine.
  split; [reflexivity|]. split; [exact Hmine | exact Hfind].
Qed.

Lemma parse_finished_witness :
  exists mesh',
    parse triangle_world 0 polygon_header polygon_sections
      (mkMixedElementsParser [0] [0] [0] [0]) ["region"%string] empty_mesh
    = Finished [SynchronizationWarning 0] mesh'
    /\ in_step mesh'.
Proof.
  eexists. split; [vm_compute; reflexivity|].
  apply (parse_finished triangle_world 0 polygon_header polygon_sections
           (mkMixedElementsParser [0] [0] [0] [0]) ["region"%string]
           empty_mesh [SynchronizationWarning 0]).
  - vm_compute. reflexivity.
  - repeat split; constructor.
Defined.

(** ** The file header *)

Lemma skip_line_app v r :
  Forall (fun b => b <> x0a) v -> skip_line (v ++ x0a :: r) = Some r.
Proof.
  induction 1 as [|b v Hb _ IH]; cbn [app skip_line]; [reflexivity|].
  destruct (Byte.eqb b x0a) eqn:E; [|exact IH].
  apply Byte.byte_dec_bl in E. contradiction.
Qed.

Lemma caseInsensitiveEq_spec s1 s2 :
  caseInsensitiveEq s1 s2 = true <-> tolower <$> s1 = tolower <$> s2.
Proof.
  unfold caseInsensitiveEq. revert s2.
  induction s1 as [|a s1 IH]; intros [|b s2]; cbn; try (split; congruence).
  specialize (IH s2). cbn in IH.
  destruct (Byte.eqb (tolower a) (tolower b)) eqn:E.
  - apply Byte.byte_dec_bl in E. rewrite E. cbn [andb] in *.
    rewrite IH. split; congruence.
  - apply Byte.eqb_false in E. rewrite andb_false_r.
    split; [discriminate | intros [= ? _]; contradiction].
Qed.

Lemma caseInsensitiveEq_length s1 s2 :
  caseInsensitiveEq s1 s2 = true -> length s1 = length s2.
Proof.
  intros H%caseInsensitiveEq_spec.
  apply (f_equal length) in H. rewrite !length_fmap in H. exact H.
Qed.

Lemma substring_prefix (s r : list byte) :
  substring (s ++ r) 0 (length s) = Some s.
Proof.
  unfold substring. rewrite length_app.
  destruct (Nat.leb_spec (0 + length s) (length s + length r)); [|lia].
  rewrite drop_0, take_app_length. reflexivity.
Qed.

(** X18.  [Header::Header] on a buffer that starts a well-formed file: two
    lines of any text, a third line that begins with the format word, and a
    fourth of the word DATASET, one byte, and the word UNSTRUCTURED_GRID,
    the words in any mix of upper and lower case. The header has the format
    named, the data set, and the offset of the worker's window. Only the
    beginnings of the two lines are looked at: anything may follow the
    format word on its line, and the byte between the two words of the
    fourth line is not compared with anything. *)
Theorem Header_Header_recognises pack mpi_rank d0 version title fmt rest ds
    sep ug tail :
  distribution pack !! mpi_rank = Some d0 ->
  pack_begin pack
  = version ++ x0a :: title ++ x0a :: (fmt ++ rest) ++ x0a
      :: ds ++ sep :: ug ++ tail ->
  Forall (fun b => b <> x0a) version ->
  Forall (fun b => b <> x0a) title ->
  Forall (fun b => b <> x0a) (fmt ++ rest) ->
  caseInsensitiveEq fmt (String.list_byte_of_string "ASCII") = true
  \/ caseInsensitiveEq fmt (String.list_byte_of_string "BINARY") = true ->
  caseInsensitiveEq ds (String.list_byte_of_string "DATASET") = true ->
  caseInsensitiveEq ug (String.list_byte_of_string "UNSTRUCTURED_GRID")
  = true ->
  Header_Header pack mpi_rank 0
  = Some (mkHeader
            (mkKeyword (pack_fileindex pack) mpi_rank (size_t_add d0 0) 0 0)
            (if caseInsensitiveEq fmt (String.list_byte_of_string "BINARY")
             then BINARY else ASCII)
            UNSTRUCTURED_GRID).
Proof.
  intros Hd0 Hbuf Hv Ht Hf Hfmt Hds Hug.
  unfold Header_Header, Keyword_Keyword. rewrite Hd0, Hbuf, drop_0.
  cbn [mbind option_bind Z.of_nat].
  rewrite (skip_line_app version _ Hv). cbn [mbind option_bind].
  rewrite (skip_line_app title _ Ht). cbn [mbind option_bind].
  rewrite (skip_line_app (fmt ++ rest) _ Hf).
  pose proof (caseInsensitiveEq_length _ _ Hds) as Lds.
  pose proof (caseInsensitiveEq_length _ _ Hug) as Lug.
  change (length (String.list_byte_of_string "DATASET")) with 7%nat in Lds.
  change (length (String.list_byte_of_string "UNSTRUCTURED_GRID"))
    with 17%nat in Lug.
  assert (E7 : substring (ds ++ sep :: ug ++ tail) 0 7 = Some ds)
    by (rewrite <- Lds; apply substring_prefix).
  assert (E17 : substring (ds ++ sep :: ug ++ tail) 8 17 = Some ug).
  { unfold substring. rewrite length_app. cbn [length].
    rewrite length_app, Lds, Lug.
    destruct (Nat.leb_spec (8 + 17) (7 + S (17 + length tail))); [|lia].
    replace (ds ++ sep :: ug ++ tail) with ((ds ++ [sep]) ++ ug ++ tail)
      by (rewrite <- app_assoc; reflexivity).
    rewrite (drop_app_length' (ds ++ [sep]))
      by (rewrite length_app, Lds; reflexivity).
    rewrite <- Lug, take_app_length. reflexivity. }
  set (c2 := (fmt ++ rest) ++ x0a :: ds ++ sep :: ug ++ tail).
  assert (Hc2 : c2 = fmt ++ rest ++ x0a :: ds ++ sep :: ug ++ tail)
    by (unfold c2; rewrite <- app_assoc; reflexivity).
  assert (Hlen : (length fmt + 26 <= length c2)%nat).
  { rewrite Hc2. rewrite !length_app. cbn [length].
    rewrite !length_app. cbn [length]. rewrite length_app. lia. }
  destruct Hfmt as [Ha|Hb].
  - pose proof (caseInsensitiveEq_length _ _ Ha) as La.
    change (length (String.list_byte_of_string "ASCII")) with 5%nat in La.
    assert (E5 : substring c2 0 5 = Some fmt)
      by (rewrite Hc2, <- La; apply substring_prefix).
    assert (E6 : exists s6, substring c2 0 6 = Some s6
                            /\ take 5 s6 = fmt).
    { unfold substring.
      destruct (Nat.leb_spec (0 + 6) (length c2)); [|lia].
      eexists. split; [reflexivity|].
      rewrite drop_0, take_take. change (5 `min` 6)%nat with 5%nat.
      rewrite Hc2, <- La. apply take_app_length. }
    destruct E6 as (s6 & E6 & Hs6).
    rewrite E5, E6. cbn [mbind option_bind]. rewrite Ha.
    assert (Hnb : caseInsensitiveEq s6 (String.list_byte_of_string "BINARY")
                  = false).
    { apply not_true_is_false. intros Hb%caseInsensitiveEq_spec.
      apply caseInsensitiveEq_spec in Ha.
      apply (f_equal (take 5)) in Hb. rewrite <- fmap_take, Hs6, Ha in Hb.
      vm_compute in Hb. discriminate Hb. }
    assert (Hnf : caseInsensitiveEq fmt (String.list_byte_of_string "BINARY")
                  = false).
    { apply not_true_is_false. intros Hb%caseInsensitiveEq_length.
      change (length (String.list_byte_of_string "BINARY")) with 6%nat in Hb.
      lia. }
    rewrite Hnb, Hnf, E7. cbn [mbind option_bind]. rewrite Hds, E17.
    cbn [mbind option_bind]. rewrite Hug. reflexivity.
  - pose proof (caseInsensitiveEq_length _ _ Hb) as Lb.
    change (length (String.list_byte_of_string "BINARY")) with 6%nat in Lb.
    assert (E6 : substring c2 0 6 = Some fmt)
      by (rewrite Hc2, <- Lb; apply substring_prefix).
    assert (E5 : is_Some (substring c2 0 5)).
    { unfold substring.
      destruct (Nat.leb_spec (0 + 5) (length c2)); [eexists; reflexivity|lia]. }
    destruct E5 as [s5 E5].
    rewrite E5, E6. cbn [mbind option_bind]. rewrite Hb, E7.
    cbn [mbind option_bind]. rewrite Hds, E17.
    cbn [mbind option_bind]. rewrite Hug. reflexivity.
Qed.

Lemma Header_Header_recognises_witness :
  Header_Header (mkPack 0 [0; 80] small_header) 0 0
  = Some (mkHeader (mkKeyword 0 0 0 0 0) ASCII UNSTRUCTURED_GRID).
Proof.
  refine (Header_Header_recognises (mkPack 0 [0; 80] small_header) 0 0
            (String.list_byte_of_string "# vtk DataFile Version 3.0")
            (String.list_byte_of_string "mesh")
            (String.list_byte_of_string "ascii") []
            (String.list_byte_of_string "DATASET") x20
            (String.list_byte_of_string "UNSTRUCTURED_GRID")
            (x0a :: String.list_byte_of_string "POINTS 0 float" ++ [x0a])
            _ _ _ _ _ _ _ _).
  - reflexivity.
  - vm_compute. reflexivity.
  - vm_compute. repeat (constructor; [discriminate|]). constructor.
  - vm_compute. repeat (constructor; [discriminate|]). constructor.
  - vm_compute. repeat (constructor; [discriminate|]). constructor.
  - left. vm_compute. reflexivity.
  - vm_compute. reflexivity.
  - vm_compute. reflexivity.
Defined.

Lemma sorted_lookup_le (l : list Z) i j x y :
  StronglySorted Z.le l -> (i <= j)%nat ->
  l !! i = Some x -> l !! j = Some y -> x <= y.
Proof.
  intros Hs. revert i j. induction Hs as [|a l Hs IH Hall]; intros i j Hij.
  - rewrite lookup_nil. discriminate.
  - destruct i as [|i], j as [|j]; cbn [lookup list_lookup]; try lia.
    + intros [= <-] [= <-]. lia.
    + intros [= <-] Hy. rewrite Forall_forall in Hall.
      apply Hall. eapply list_elem_of_lookup_2. exact Hy.
    + apply IH. lia.
Qed.

Lemma header_owner_exists dist d :
  StronglySorted Z.le dist -> dist !! 0%nat = Some 0 ->
  last dist = Some d -> 0 < d ->
  exists r, header_owner dist r = Some true.
Proof.
  intros Hs. induction Hs as [|a l Hs IH Hall]; [discriminate|].
  cbn [lookup list_lookup]. intros [= ->] Hlast Hd.
  destruct l as [|b l]; [cbn in Hlast; injection Hlast as <-; lia|].
  destruct (Z.eqb_spec b 0) as [->|Hb].
  - destruct IH as [r Hr]; [reflexivity | exact Hlast | exact Hd |].
    exists (S r). exact Hr.
  - exists 0%nat. unfold header_owner. cbn.
    apply Z.eqb_neq in Hb. rewrite Hb. reflexivity.
Qed.

Lemma header_owner_true dist r :
  header_owner dist r = Some true ->
  dist !! r = Some 0 /\ exists d1, dist !! S r = Some d1 /\ d1 <> 0.
Proof.
  unfold header_owner.
  destruct (dist !! r) as [d0|]; [|discriminate]. cbn [mbind option_bind].
  case Z.eqb_spec; [intros ->|discriminate].
  destruct (dist !! S r) as [d1|]; [|discriminate]. cbn [mbind option_bind].
  intros [= H%negb_true_iff%Z.eqb_neq]. eauto.
Qed.

(** X19.  Line 194 picks one worker per file. The windows of a file follow
    one another from byte 0; in a file that is not empty exactly one worker
    has a window that begins at byte 0 and is not empty, and this worker
    alone builds the header. *)
Theorem header_owner_unique dist d :
  StronglySorted Z.le dist -> dist !! 0%nat = Some 0 ->
  last dist = Some d -> 0 < d ->
  exists r, header_owner dist r = Some true
            /\ forall r', header_owner dist r' = Some true -> r' = r.
Proof.
  intros Hs H0 Hlast Hd.
  destruct (header_owner_exists dist d Hs H0 Hlast Hd) as [r Hr].
  exists r. split; [exact Hr|]. intros r' Hr'.
  apply header_owner_true in Hr as (Ea0 & a1 & Ea1 & Ha1).
  apply header_owner_true in Hr' as (Eb0 & b1 & Eb1 & Hb1).
  pose proof (sorted_lookup_le dist 0 (S r) 0 a1 Hs ltac:(lia) H0 Ea1).
  pose proof (sorted_lookup_le dist 0 (S r') 0 b1 Hs ltac:(lia) H0 Eb1).
  destruct (Nat.lt_trichotomy r r') as [Hlt|[E|Hgt]]; [|symmetry; exact E|].
  - pose proof (sorted_lookup_le dist (S r) r' a1 0 Hs ltac:(lia) Ea1 Eb0).
    lia.
  - pose proof (sorted_lookup_le dist (S r') r b1 0 Hs ltac:(lia) Eb1 Ea0).
    lia.
Qed.

Lemma header_owner_unique_witness :
  exists r, header_owner [0; 0; 40; 80] r = Some true
            /\ forall r', header_owner [0; 0; 40; 80] r' = Some true
                          -> r' = r.
Proof.
  apply (header_owner_unique [0; 0; 40; 80] 80).
  - repeat constructor; lia.
  - reflexivity.
  - reflexivity.
  - lia.
Defined.

Lemma Header_Header_keyword pack mpi_rank c h :
  Header_Header pack mpi_rank c = Some h ->
  exists d0, distribution pack !! mpi_rank = Some d0
    /\ header_keyword h
       = mkKeyword (pack_fileindex pack) mpi_rank
           (size_t_add d0 (Z.of_nat c)) 0 0.
Proof.
  unfold Header_Header, Keyword_Keyword.
  destruct (distribution pack !! mpi_rank) as [d0|]; [|discriminate].
  cbn [mbind option_bind].
  destruct (skip_line _) as [c1|]; [|discriminate]. cbn [mbind option_bind].
  destruct (skip_line c1) as [c2|]; [|discriminate]. cbn [mbind option_bind].
  destruct (substring c2 0 5) as [s5|]; [|discriminate].
  cbn [mbind option_bind].
  destruct (substring c2 0 6) as [s6|]; [|discriminate].
  cbn [mbind option_bind].
  destruct (skip_line c2) as [c3|]; [|discriminate]. cbn [mbind option_bind].
  destruct (substring c3 0 7) as [s7|]; [|discriminate].
  cbn [mbind option_bind].
  destruct (caseInsensitiveEq s7 _).
  - destruct (substring c3 8 17) as [s17|]; [|discriminate].
    cbn [mbind option_bind]. intros [= <-]. exists d0. split; reflexivity.
  - intros [= <-]. exists d0. split; reflexivity.
Qed.

(** X20.  Lines 194-202 for one file. A worker that does not own the header
    leaves [_header] as it is. The owner either ends the run, with the
    diagnostic of an unknown format before that of an unsupported data set,
    both naming the file at hand, or appends one header, whose format is
    ASCII or BINARY, whose data set is UNSTRUCTURED_GRID and whose offset is
    zero. *)
Theorem scan_header_cases pack mpi_rank _header result :
  scan_header pack mpi_rank _header = Some result ->
  match result with
  | inl e =>
      header_owner (distribution pack) mpi_rank = Some true
      /\ exists h, Header_Header pack mpi_rank 0 = Some h
           /\ ((format h = FormatUNKNOWN
                /\ e = UnknownFormat (pack_fileindex pack))
               \/ (format h <> FormatUNKNOWN
                   /\ dataset h = DataSetUNKNOWN
                   /\ e = UnsupportedDataset (pack_fileindex pack)))
  | inr headers =>
      (header_owner (distribution pack) mpi_rank = Some false
       /\ headers = _header)
      \/ (header_owner (distribution pack) mpi_rank = Some true
          /\ exists h, Header_Header pack mpi_rank 0 = Some h
               /\ headers = _header ++ [h]
               /\ (format h = ASCII \/ format h = BINARY)
               /\ dataset h = UNSTRUCTURED_GRID
               /\ offset (header_keyword h) = 0)
  end.
Proof.
  unfold scan_header.
  destruct (header_owner (distribution pack) mpi_rank) as [[|]|] eqn:Ho;
    cbn [mbind option_bind]; [| intros [= <-]; left; split; reflexivity
                              | discriminate].
  destruct (Header_Header pack mpi_rank 0) as [h|] eqn:Hh;
    cbn [mbind option_bind]; [|discriminate].
  assert (Hoff : offset (header_keyword h) = 0).
  { apply header_owner_true in Ho as (Ed0' & _).
    destruct (Header_Header_keyword _ _ _ _ Hh) as (d0 & Ed0 & ->).
    rewrite Ed0 in Ed0'. injection Ed0' as ->. reflexivity. }
  destruct (format h) eqn:Ef, (dataset h) eqn:Ed; intros [= <-].
  - split; [reflexivity|]. exists h. split; [reflexivity|]. left. auto.
  - split; [reflexivity|]. exists h. split; [reflexivity|]. left. auto.
  - split; [reflexivity|]. exists h. split; [reflexivity|]. right.
    rewrite Ef. repeat split; auto; discriminate.
  - right. split; [reflexivity|]. exists h. rewrite Ef. auto 10.
  - split; [reflexivity|]. exists h. split; [reflexivity|]. right.
    rewrite Ef. repeat split; auto; discriminate.
  - right. split; [reflexivity|]. exists h. rewrite Ef. auto 10.
Qed.

Lemma scan_header_cases_witness :
  header_owner [0; 80] 0 = Some true
  /\ exists h, Header_Header (mkPack 0 [0; 80] small_header) 0 0 = Some h
       /\ [h] = [] ++ [h]
       /\ (format h = ASCII \/ format h = BINARY)
       /\ dataset h = UNSTRUCTURED_GRID
       /\ offset (header_keyword h) = 0.
Proof.
  destruct (scan_header_cases (mkPack 0 [0; 80] small_header) 0 []
              (inr [mkHeader (mkKeyword 0 0 0 0 0) ASCII UNSTRUCTURED_GRID]))
    as [[E _]|(Ho & h & Eh & El & Hf & Hd & Hoff)].
  - vm_compute. reflexivity.
  - vm_compute in E. discriminate E.
  - split; [exact Ho|]. exists h. repeat split; assumption.
Defined.

(** ** Integers of a binary payload *)

Lemma byte_of_Z_add_multiple z q : byte_of_Z (z + q * 256) = byte_of_Z z.
Proof. unfold byte_of_Z. rewrite Z.mod_add by lia. reflexivity. Qed.

Lemma le_bytes_wrap n z q :
  le_bytes n (z + q * 256 ^ Z.of_nat n) = le_bytes n z.
Proof.
  revert z. induction n as [|n IH]; intros z; [reflexivity|].
  rewrite !le_bytes_S, Nat2Z.inj_succ, Z.pow_succ_r by lia.
  replace (z + q * (256 * 256 ^ Z.of_nat n))
    with (z + q * 256 ^ Z.of_nat n * 256) by lia.
  rewrite byte_of_Z_add_multiple, Z.div_add, IH by lia. reflexivity.
Qed.

(** X21.  [read<int, esint>] on one integer: the four bytes of a 32-bit
    two's complement integer, most significant first as a binary file stores
    them, reversed by [swap] and converted, give back the integer, negative
    ones included. *)
Theorem int_round_trip z :
  - 2 ^ 31 <= z < 2 ^ 31 ->
  esint_of_int (swap (from_bytes (reverse (le_bytes 4 z)))) = z.
Proof.
  intros Hz.
  assert (Hlen : length (le_bytes 4 z) = 4%nat) by reflexivity.
  rewrite swap_reverse.
  rewrite (object_from_bytes (reverse (le_bytes 4 z)))
    by (rewrite length_reverse; exact Hlen).
  rewrite reverse_involutive. unfold esint_of_int.
  rewrite (object_from_bytes (le_bytes 4 z)) by exact Hlen.
  destruct (Z.le_gt_cases 0 z) as [Hpos|Hneg].
  - rewrite le_value_le_bytes by (change (256 ^ Z.of_nat 4) with (2 ^ 32); lia).
    destruct (Z.ltb_spec z (2 ^ 31)); [reflexivity | lia].
  - rewrite <- (le_bytes_wrap 4 z 1).
    change (256 ^ Z.of_nat 4) with (2 ^ 32).
    rewrite le_value_le_bytes by (change (256 ^ Z.of_nat 4) with (2 ^ 32); lia).
    destruct (Z.ltb_spec (z + 1 * 2 ^ 32) (2 ^ 31)); lia.
Qed.

Lemma int_round_trip_witness :
  esint_of_int (swap (from_bytes (reverse (le_bytes 4 (-2))))) = -2.
Proof. apply (int_round_trip (-2)). lia. Defined.

(** ** The ranges of consecutive workers *)

(** X22.  Two workers whose common window boundary lies inside the payload
    of a record: the range the first decodes ends where the range of the
    second begins, so that no value at the boundary is decoded twice or left
    out; both ranges are whole numbers of units, counted from the record's
    [begin], and the common end point is the boundary moved up to the next
    unit. *)
Theorem read_ranges_tile pack mpi_rank k align d0 d1 d2 :
  distribution pack !! mpi_rank = Some d0 ->
  distribution pack !! S mpi_rank = Some d1 ->
  distribution pack !! S (S mpi_rank) = Some d2 ->
  0 < align -> 0 <= d0 <= d1 -> d1 <= d2 ->
  0 <= begin k -> begin k <= d1 <= end_ k ->
  Z.max (end_ k) d2 + align <= size_t_modulus ->
  exists b m e,
    read_range pack mpi_rank k align = Some (b, m)
    /\ read_range pack (S mpi_rank) k align = Some (m, e)
    /\ b <= m <= e
    /\ (m - b) mod align = 0 /\ (e - m) mod align = 0
    /\ d1 <= m < d1 + align.
Proof.
  intros Hd0 Hd1 Hd2 Ha H01 H12 Hb Hin Hfit.
  unfold read_range. rewrite Hd0, Hd1, Hd2. cbn [mbind option_bind].
  rewrite (Z.min_r (end_ k) d1), (Z.max_r (begin k) d1) by lia.
  assert (HM : 0 < size_t_modulus) by reflexivity.
  destruct (round_spec (Z.max (begin k) d0) (begin k) align)
    as [Hrb Hmb]; try lia.
  destruct (round_spec d1 (begin k) align) as [Hrm Hmm]; try lia.
  destruct (round_spec (Z.min (end_ k) d2) (begin k) align)
    as [Hre Hme]; try lia.
  set (b := round (Z.max (begin k) d0) (begin k) align) in *.
  set (m := round d1 (begin k) align) in *.
  set (e := round (Z.min (end_ k) d2) (begin k) align) in *.
  exists b, m, e. split; [reflexivity|]. split; [reflexivity|].
  assert (Hbm : b <= m).
  { eapply aligned_least;
      [exact Ha | exact Hrb | exact Hmb | lia | exact Hmm]. }
  assert (Hme' : m <= e).
  { eapply aligned_least;
      [exact Ha | exact Hrm | exact Hmm | lia | exact Hme]. }
  split; [lia|]. split; [|split; [|exact Hrm]].
  - replace (m - b) with ((m - begin k) - (b - begin k)) by ring.
    rewrite Zminus_mod, Hmm, Hmb. reflexivity.
  - replace (e - m) with ((e - begin k) - (m - begin k)) by ring.
    rewrite Zminus_mod, Hme, Hmm. reflexivity.
Qed.

Lemma read_ranges_tile_witness :
  exists b m e,
    read_range (mkPack 0 [0; 120; 200] []) 0 points_100_148 12
    = Some (b, m)
    /\ read_range (mkPack 0 [0; 120; 200] []) 1 points_100_148 12
       = Some (m, e)
    /\ b <= m <= e
    /\ (m - b) mod 12 = 0 /\ (e - m) mod 12 = 0
    /\ 120 <= m < 120 + 12.
Proof.
  apply (read_ranges_tile (mkPack 0 [0; 120; 200] []) 0 points_100_148 12
           0 120 200);
    [reflexivity | reflexivity | reflexivity | lia | lia | lia
    | cbn; lia | cbn; lia | vm_compute; discriminate].
Defined.

(** ** The records of a file after the sort *)

Lemma by_fileindex_sorted {T} `{TKeyword T} (l : list T) :
  StronglySorted by_fileindex (sort_by_fileindex l).
Proof.
  apply StronglySorted_merge_sort.
  - intros a b c. unfold by_fileindex. lia.
  - intros a b. unfold by_fileindex. lia.
Qed.

Lemma seq_sorted a n : StronglySorted le (seq a n).
Proof.
  revert a. induction n as [|n IH]; intros a; cbn [seq]; constructor.
  - apply IH.
  - apply Forall_forall. intros x Hx%elem_of_seq. lia.
Qed.

(** X23.  Lines 225-227 make the indexing of [parse] right.  When every
    file of the pack has exactly one record in a list, the sort by
    [fileindex] puts the record of file [f] at index [f], which is where
    [_points[_pack.fileindex]], [_cells[_pack.fileindex]] and
    [_cellTypes[_pack.fileindex]] look for it; the sort keeps the records
    and their number. *)
Theorem sort_by_fileindex_lookup {T} `{TKeyword T} (l : list T) :
  (fun t => fileindex (keyword t)) <$> l ≡ₚ seq 0 (length l) ->
  sort_by_fileindex l ≡ₚ l
  /\ forall f t, sort_by_fileindex l !! f = Some t ->
                 fileindex (keyword t) = f.
Proof.
  intros Hperm.
  assert (HP : sort_by_fileindex l ≡ₚ l)
    by apply merge_sort_Permutation.
  split; [exact HP|].
  assert (E : (fun t => fileindex (keyword t)) <$> sort_by_fileindex l
              = seq 0 (length l)).
  { apply (StronglySorted_unique le).
    - eapply StronglySorted_fmap; [|apply by_fileindex_sorted].
      intros x y Hxy. exact Hxy.
    - apply seq_sorted.
    - rewrite HP. exact Hperm. }
  intros f t Ht.
  assert (Hf : ((fun t => fileindex (keyword t)) <$> sort_by_fileindex l)
               !! f = Some (fileindex (keyword t)))
    by (rewrite list_lookup_fmap, Ht; reflexivity).
  rewrite E in Hf. apply lookup_seq in Hf as [-> _]. reflexivity.
Qed.

Lemma sort_by_fileindex_lookup_witness :
  sort_by_fileindex
    [mkPoints (mkKeyword 2 0 10 20 0) 4 FLOAT;
     mkPoints (mkKeyword 0 1 30 40 0) 5 FLOAT;
     mkPoints (mkKeyword 1 0 50 60 0) 6 DOUBLE]
  ≡ₚ [mkPoints (mkKeyword 2 0 10 20 0) 4 FLOAT;
      mkPoints (mkKeyword 0 1 30 40 0) 5 FLOAT;
      mkPoints (mkKeyword 1 0 50 60 0) 6 DOUBLE]
  /\ forall f t,
       sort_by_fileindex
         [mkPoints (mkKeyword 2 0 10 20 0) 4 FLOAT;
          mkPoints (mkKeyword 0 1 30 40 0) 5 FLOAT;
          mkPoints (mkKeyword 1 0 50 60 0) 6 DOUBLE] !! f = Some t ->
       fileindex (keyword t) = f.
Proof.
  apply (sort_by_fileindex_lookup
           [mkPoints (mkKeyword 2 0 10 20 0) 4 FLOAT;
            mkPoints (mkKeyword 0 1 30 40 0) 5 FLOAT;
            mkPoints (mkKeyword 1 0 50 60 0) 6 DOUBLE]).
  cbn. rewrite (Permutation_swap 0%nat 2%nat [1%nat]).
  apply perm_skip, perm_swap.
Defined.

(** ** Node ids where nothing wraps *)

(** X24.  One file on one worker, the array not shorter than the values
    owed to the point begun before it and the counts within [size_t]: once
    the element loop has finished, lines 388-422 finish, and they push the
    ids [nidoffset + ceil3 npoints], the next, ... for as many points as
    the array holds whole past the first [pbegin] values, with one point
    for each id. *)
Theorem fill_file_node_ids mesh d npoints maxdim file name nidoffset
    eidoffset efirst eoffset log els :
  0 <= npoints -> 0 <= nidoffset ->
  pbegin npoints <= Z.of_nat (length (points d)) ->
  nidoffset + npoints + Z.of_nat (length (points d)) + 3
  <= size_t_modulus ->
  fill_elements (S (length (cells d))) (cells d) efirst maxdim file
    nidoffset eidoffset eoffset (mkElements [] [] [] [] 0)
  = Finished log els ->
  exists mesh' coords,
    fill_file mesh d npoints maxdim file name nidoffset eidoffset efirst
      eoffset = Finished log mesh'
    /\ nIDs mesh'
       = nIDs mesh
           ++ seqZ (nidoffset + ceil3 npoints)
                ((Z.of_nat (length (points d)) - pbegin npoints) / 3)
    /\ node_coordinates (points d) npoints = Some coords
    /\ coordinates mesh' = coordinates mesh ++ coords
    /\ Z.of_nat (length coords)
       = (Z.of_nat (length (points d)) - pbegin npoints) / 3.
Proof.
  intros HP Hn Hle Hb Hels.
  destruct (node_coordinates_fits (points d) npoints ltac:(lia))
    as (coords & Hc & Hlen).
  unfold fill_file. rewrite Hc, bind_defined_Some, Hels.
  rewrite node_ids_seqZ by lia.
  destruct (maxdim =? 0); cbn; rewrite app_nil_r;
    eexists; exists coords; repeat split; try reflexivity; assumption.
Qed.

Lemma fill_file_node_ids_witness :
  exists mesh' coords,
    fill_file empty_mesh (mkDecoded (drop 1 two_points_values) [2; 0; 1] [])
      1 1 0 "region"%string 0 0 0 0 = Finished [] mesh'
    /\ nIDs mesh' = nIDs empty_mesh ++ seqZ (0 + ceil3 1) ((5 - pbegin 1) / 3)
    /\ node_coordinates (drop 1 two_points_values) 1 = Some coords
    /\ coordinates mesh' = coordinates empty_mesh ++ coords
    /\ Z.of_nat (length coords) = (5 - pbegin 1) / 3.
Proof.
  apply (fill_file_node_ids empty_mesh
           (mkDecoded (drop 1 two_points_values) [2; 0; 1] [])
           1 1 0 "region"%string 0 0 0 0 []
           (mkElements [0] [2] [LINE2] [0; 1] 1)).
  - lia.
  - lia.
  - vm_compute. discriminate.
  - vm_compute. discriminate.
  - vm_compute. reflexivity.
Defined.

(** X25.  The workers of one file, their arrays fitting the split and the
    record holding whole points: the ids pushed by worker [k] are
    consecutive, from [nidoffset] plus the number of points begun by the
    workers before it (what the exclusive prefix sum of the decoded value
    counts comes to), for as many points as begin in its part; the
    workers' ranges follow one another in worker order without overlap or
    gap and together are [nidoffset], [nidoffset + 1], ... *)
Theorem workers_node_ids_contiguous fmt nidoffset sizes :
  splits_ok fmt 0 sizes = true -> sum_sizes sizes mod 3 = 0 ->
  0 <= nidoffset -> nidoffset + sum_sizes sizes + 5 <= size_t_modulus ->
  (forall k size, sizes !! k = Some size ->
     node_ids nidoffset (exscan sizes k)
       (completed_size fmt (exscan sizes k) size
          (sum_sizes (drop (S k) sizes)))
     = seqZ (nidoffset + ceil3 (sum_sizes (take k sizes)))
         (ceil3 (sum_sizes (take (S k) sizes))
          - ceil3 (sum_sizes (take k sizes))))
  /\ workers_node_ids fmt nidoffset sizes
     = seqZ nidoffset (sum_sizes sizes / 3).
Proof.
  intros Hok Htot Hn Hb. split.
  - intros k size Hk.
    destruct (splits_ok_lookup _ _ _ _ _ Hok Hk)
      as (H1 & H2 & H3 & H4 & H5 & H6).
    unfold exscan. fold (sum_sizes (take k sizes)).
    unwrap.
    rewrite worker_node_ids; try assumption; try lia.
    + rewrite H5. reflexivity.
    + replace (sum_sizes (take k sizes) + size
               + sum_sizes (drop (S k) sizes))
        with (sum_sizes sizes) by lia.
      exact Htot.
  - pose proof (workers_node_ids_from fmt nidoffset sizes 0 Hok Hn
                  ltac:(lia) Htot ltac:(lia)) as E.
    transitivity (seqZ (nidoffset + ceil3 0)
                    (ceil3 (0 + sum_sizes sizes) - ceil3 0));
      [exact E|].
    change (ceil3 0) with 0. rewrite Z.add_0_r, Z.sub_0_r, Z.add_0_l.
    f_equal. unfold ceil3.
    pose proof (Z.div_mod (sum_sizes sizes) 3 ltac:(lia)).
    pose proof (Z.div_mod (sum_sizes sizes + 2) 3 ltac:(lia)).
    pose proof (Z.mod_pos_bound (sum_sizes sizes + 2) 3 ltac:(lia)).
    lia.
Qed.

Lemma workers_node_ids_contiguous_witness :
  workers_node_ids ASCII 0 [4; 5; 0; 3] = [0; 1; 2; 3]
  /\ workers_node_ids ASCII 0 [4; 5; 0; 3]
     = seqZ 0 (sum_sizes [4; 5; 0; 3] / 3)
  /\ workers_node_ids BINARY 0 [0; 9; 3] = seqZ 0 (sum_sizes [0; 9; 3] / 3).
Proof.
  split; [vm_compute; reflexivity|]. split.
  - apply (workers_node_ids_contiguous ASCII 0 [4; 5; 0; 3]);
      [reflexivity | reflexivity | lia | vm_compute; discriminate].
  - apply (workers_node_ids_contiguous BINARY 0 [0; 9; 3]);
      [reflexivity | reflexivity | lia | vm_compute; discriminate].
Defined.
